(** * SuperProxy: the SOCKS5 session of [proxy.go]

    A shallow embedding of [handleConnection], [sendReply], [relay] and
    [copyAndClose] from [proxy.go], and the properties of the handshake,
    of the reply encoding and of the relay that follow from the code;
    then of [StartProxy], [ParseIPv6], [LoadConfig],
    [EnsureIPv6Addresses] and [setSocketOptions]. *)

From Stdlib.Strings Require Import Byte String.
From Stdlib Require Import List ZArith NArith Bool Lia Arith DecimalString.
From Stdlib Require Import Permutation.
Import ListNotations.

(** ** Bytes and fixed-width integers *)

Definition bytes := list byte.

(** [int(b)] of a Go [byte]. *)
Definition Z_of_byte (b : byte) : Z := Z.of_N (Byte.to_N b).

(** The conversion [byte(v)] of an unsigned integer: the low eight bits. *)
Definition byte_of_Z (z : Z) : byte :=
  match Byte.of_N (Z.to_N (z mod 256)) with
  | Some b => b
  | None => x00
  end.

(** The conversion [uint16(v)] of a Go [int]. *)
Definition uint16 (z : Z) : Z := z mod 65536.

(** ** SOCKS5 constants (RFC 1928), as in the [const] block *)

Definition socks5Version : byte := x05.

Definition authNone : byte := x00.
Definition authNoAcceptable : byte := xff.

Definition cmdConnect : byte := x01.

Definition atypIPv4 : byte := x01.
Definition atypDomain : byte := x03.
Definition atypIPv6 : byte := x04.

Definition repSuccess : byte := x00.
Definition repGeneralFailure : byte := x01.
Definition repConnectionNotAllowed : byte := x02.
Definition repNetworkUnreachable : byte := x03.
Definition repHostUnreachable : byte := x04.
Definition repConnectionRefused : byte := x05.
Definition repCommandNotSupported : byte := x07.
Definition repAddrTypeNotSupported : byte := x08.

(** ** Slices: the operations [sendReply] performs on its 22-byte array *)

(** [buf[i] = b]. *)
Definition set_at (buf : bytes) (i : nat) (b : byte) : bytes :=
  firstn i buf ++ b :: skipn (S i) buf.

(** [copy(buf[lo:hi], src)]: copies [min (hi-lo) (len src)] bytes. *)
Definition copy_at (buf : bytes) (lo hi : nat) (src : bytes) : bytes :=
  let n := Nat.min (hi - lo) (length src) in
  firstn lo buf ++ firstn n src ++ skipn (lo + n) buf.

(** [binary.BigEndian.PutUint16(buf[n:n+2], v)]. *)
Definition putUint16 (buf : bytes) (n : nat) (v : Z) : bytes :=
  set_at (set_at buf n (byte_of_Z (Z.shiftr v 8))) (S n) (byte_of_Z v).

(** [binary.BigEndian.Uint16(b)]: [uint16(b[1]) | uint16(b[0])<<8]. *)
Definition bigEndianUint16 (b : bytes) : Z :=
  Z.lor (Z_of_byte (nth 1 b x00)) (Z.shiftl (Z_of_byte (nth 0 b x00)) 8).

(** ** [net.IP]

    A [net.IP] is a byte slice; [None] is the [nil] slice. *)

Definition netIP := option bytes.

Definition isZeros (p : bytes) : bool := forallb (Byte.eqb x00) p.

Definition v4InV6Prefix : bytes :=
  [x00; x00; x00; x00; x00; x00; x00; x00; x00; x00; xff; xff].

(** [ip.To4()] on a non-nil slice. *)
Definition To4 (ip : bytes) : netIP :=
  if Nat.eqb (length ip) 4 then Some ip
  else if Nat.eqb (length ip) 16
          && isZeros (firstn 10 ip)
          && Byte.eqb (nth 10 ip x00) xff
          && Byte.eqb (nth 11 ip x00) xff
       then Some (firstn 4 (skipn 12 ip))
       else None.

(** [ip.To16()] on a non-nil slice. *)
Definition To16 (ip : bytes) : netIP :=
  if Nat.eqb (length ip) 4 then Some (v4InV6Prefix ++ ip)
  else if Nat.eqb (length ip) 16 then Some ip
       else None.

(** The source of a [copy] from a possibly nil slice. *)
Definition slice_of (ip : netIP) : bytes :=
  match ip with Some b => b | None => [] end.

(** ** [sendReply]: the bytes handed to [conn.Write] *)

Definition sendReplyBytes (rep : byte) (bindIP : netIP) (bindPort : Z) : bytes :=
  let buf := repeat x00 22 in
  let buf := set_at buf 0 socks5Version in
  let buf := set_at buf 1 rep in
  let buf := set_at buf 2 x00 in
  let '(buf, n) :=
    match bindIP with
    | Some ip =>
        match To4 ip with
        | Some v4 => (copy_at (set_at buf 3 atypIPv4) 4 8 v4, 8)
        | None => (copy_at (set_at buf 3 atypIPv6) 4 20 (slice_of (To16 ip)), 20)
        end
    | None => (set_at buf 3 atypIPv4, 8)
    end in
  let buf := putUint16 buf n bindPort in
  firstn (n + 2) buf.

(** ** Errors returned by the dialer

    A Go error is a chain followed by [Unwrap]: [*net.OpError] wraps
    [*os.SyscallError], which wraps a [syscall.Errno]; a name-resolution
    failure or a timeout ends in an error that is no [Errno]. *)

Inductive goError : Type :=
| Errno (code : Z)
| Opaque (msg : string)
| Wrapped (op : string) (inner : goError).

(** [errors.Is(err, target)] for a [syscall.Errno] target. *)
Fixpoint errorsIs (err : goError) (target : Z) : bool :=
  match err with
  | Errno code => Z.eqb code target
  | Opaque _ => false
  | Wrapped _ inner => errorsIs inner target
  end.

(** Values of package [syscall] on linux. *)
Definition ECONNREFUSED : Z := 0x6f.
Definition ENETUNREACH : Z := 0x65.
Definition EHOSTUNREACH : Z := 0x71.

(** The reply status chosen after a failed [dialer.Dial]. *)
Definition dialFailureRep (err : goError) : byte :=
  if errorsIs err ECONNREFUSED then repConnectionRefused
  else if errorsIs err ENETUNREACH then repNetworkUnreachable
  else if errorsIs err EHOSTUNREACH then repHostUnreachable
  else repGeneralFailure.

(** The result of [dialer.Dial]: the local address of the new connection
    (the TCP address [remote.LocalAddr()]), or an error. *)
Inductive dialResult : Type :=
| DialOk (localIP : netIP) (localPort : Z)
| DialErr (err : goError).

(** ** The session: what one run of [handleConnection] does *)

Inductive conn : Type := Client | Remote.

(** The program point of a [io.ReadFull] on the client. *)
Inductive field : Type :=
| GreetingHdr | Methods | RequestHdr
| AddrIPv4 | DomainLen | Domain | AddrIPv6 | DestPort.

Inductive event : Type :=
| EvSetDeadline (c : conn) (seconds : option Z)
| EvRead (f : field) (n : nat) (got : option bytes)
| EvWrite (data : bytes) (ok : bool)
| EvDial (localIP : bytes) (target : string) (res : dialResult)
| EvRelay
| EvClose (c : conn).

(** What the outside world does: the bytes the client delivers before its
    stream ends (end of stream, reset or deadline), whether the k-th write
    on the client succeeds, and the outcome of a dial. *)
Record Env : Type := {
  clientBytes : bytes;
  writeOk : nat -> bool;
  dial : string -> dialResult
}.

Record state : Type := {
  input : bytes;
  nwrites : nat
}.

(** A step returns a value or leaves the function ([None]: a [return]),
    the next state and the events it performed. *)
Definition M (A : Type) : Type := state -> option A * state * list event.

Definition ret {A} (a : A) : M A := fun s => (Some a, s, []).

Definition exit {A} : M A := fun s => (None, s, []).

Definition bind {A B} (m : M A) (k : A -> M B) : M B :=
  fun s =>
    match m s with
    | (Some a, s1, t1) =>
        match k a s1 with
        | (b, s2, t2) => (b, s2, t1 ++ t2)
        end
    | (None, s1, t1) => (None, s1, t1)
    end.

Declare Scope session_scope.
Delimit Scope session_scope with session.
Notation "x <- m ;; k" := (bind m (fun x => k))
  (at level 61, m at next level, right associativity) : session_scope.
Notation "m ;; k" := (bind m (fun _ => k))
  (at level 61, right associativity) : session_scope.
Open Scope session_scope.

Definition emit (e : event) : M unit := fun s => (Some tt, s, [e]).

(** [io.ReadFull(client, buf[:n])]: all [n] bytes, or an error once the
    stream ends first (the bytes read so far are consumed). *)
Definition readFull (f : field) (n : nat) : M bytes :=
  fun s =>
    if Nat.leb n (length (input s))
    then (Some (firstn n (input s)),
          {| input := skipn n (input s); nwrites := nwrites s |},
          [EvRead f n (Some (firstn n (input s)))])
    else (None, {| input := []; nwrites := nwrites s |}, [EvRead f n None]).

Section Session.

(** Functions of the Go standard library applied to the destination:
    [net.IP.String], [strconv.Itoa] and [net.JoinHostPort]. *)
Variable ipString : bytes -> string.
Variable itoa : Z -> string.
Variable joinHostPort : string -> string -> string.

Variable env : Env.

(** [client.Write(data)]; the result tells whether the error is nil. *)
Definition write (data : bytes) : M bool :=
  fun s =>
    let ok := writeOk env (nwrites s) in
    (Some ok, {| input := input s; nwrites := S (nwrites s) |},
     [EvWrite data ok]).

(** [sendReply(client, rep, bindIP, bindPort)]: the result of the write is
    dropped. *)
Definition sendReply (rep : byte) (bindIP : netIP) (bindPort : Z) : M unit :=
  _ <- write (sendReplyBytes rep bindIP bindPort) ;; ret tt.

(** The scan for NO AUTH over the offered methods. *)
Fixpoint hasNoAuth (methods : bytes) : bool :=
  match methods with
  | [] => false
  | m :: rest => if Byte.eqb m authNone then true else hasNoAuth rest
  end.

(** Lines 196-228: dial, reply, relay. [defer remote.Close()] runs when
    the function returns, after [relay]. *)
Definition dialOutbound (outboundIP : bytes) (target : string) : M unit :=
  let res := dial env target in
  emit (EvDial outboundIP target res) ;;
  match res with
  | DialErr err =>
      sendReply (dialFailureRep err) None 0 ;;
      exit
  | DialOk boundIP boundPort =>
      sendReply repSuccess boundIP (uint16 boundPort) ;;
      emit (EvSetDeadline Client None) ;;
      emit (EvSetDeadline Remote None) ;;
      emit EvRelay ;;
      emit (EvClose Remote)
  end.

(** Lines 147-185: the destination address, by address type. *)
Definition parseDestAddr (atyp : byte) : M string :=
  if Byte.eqb atyp atypIPv4 then
    addr <- readFull AddrIPv4 4 ;;
    ret (ipString addr)
  else if Byte.eqb atyp atypDomain then
    domainLen <- readFull DomainLen 1 ;;
    if Byte.eqb (nth 0 domainLen x00) x00 then
      sendReply repGeneralFailure None 0 ;;
      exit
    else
      domain <- readFull Domain (Z.to_nat (Z_of_byte (nth 0 domainLen x00))) ;;
      ret (string_of_list_byte domain)
  else if Byte.eqb atyp atypIPv6 then
    addr <- readFull AddrIPv6 16 ;;
    ret (ipString addr)
  else
    sendReply repAddrTypeNotSupported None 0 ;;
    exit.

(** Lines 131-228: the request, then the dial. *)
Definition request (outboundIP : bytes) : M unit :=
  reqHdr <- readFull RequestHdr 4 ;;
  if negb (Byte.eqb (nth 0 reqHdr x00) socks5Version) then exit else
  if negb (Byte.eqb (nth 1 reqHdr x00) cmdConnect) then
    sendReply repCommandNotSupported None 0 ;;
    exit
  else
  destAddr <- parseDestAddr (nth 3 reqHdr x00) ;;
  portBuf <- readFull DestPort 2 ;;
  let destPort := bigEndianUint16 portBuf in
  let target := joinHostPort destAddr (itoa destPort) in
  dialOutbound outboundIP target.

(** Lines 86-129: the deadline and the auth negotiation, then the request. *)
Definition session (outboundIP : bytes) : M unit :=
  emit (EvSetDeadline Client (Some 10%Z)) ;;
  hdr <- readFull GreetingHdr 2 ;;
  if negb (Byte.eqb (nth 0 hdr x00) socks5Version) then exit else
  let nmethods := Z_of_byte (nth 1 hdr x00) in
  if Z.eqb nmethods 0 || Z.ltb 255 nmethods then exit else
  methods <- readFull Methods (Z.to_nat nmethods) ;;
  if negb (hasNoAuth methods) then
    write [socks5Version; authNoAcceptable] ;;
    exit
  else
  ok <- write [socks5Version; authNone] ;;
  if negb ok then exit else
  request outboundIP.

Definition initial : state := {| input := clientBytes env; nwrites := 0 |}.

(** [handleConnection(client, outboundIP, port)]: the events of one session,
    in order. [defer client.Close()] runs on every way out. *)
Definition handleConnection (outboundIP : bytes) : list event :=
  match session outboundIP initial with
  | (_, _, t) => t ++ [EvClose Client]
  end.

End Session.


(** ** The buffer pool [bufPool]

    A pooled buffer is a 32 KiB block with no identity beyond its slot;
    the model names it by a number. *)

Definition buffer := nat.

Definition bufferSize : nat := 32 * 1024.

(** The [sync.Pool]: the buffers at rest in it, and the name the next call
    of [New] gives to a fresh buffer. *)
Record pool : Type := {
  free : list buffer;
  fresh : nat
}.

(** Removal of the element at position [k]. *)
Fixpoint remove_nth (k : nat) (l : list buffer) : list buffer :=
  match l, k with
  | [], _ => []
  | _ :: rest, O => rest
  | b :: rest, S k' => b :: remove_nth k' rest
  end.

(** [bufPool.Get()]: an arbitrary buffer at rest (the one at position [k],
    chosen by the runtime), or a fresh one from [New]. *)
Definition poolGet (k : nat) (p : pool) : buffer * pool :=
  match nth_error (free p) k with
  | Some b => (b, {| free := remove_nth k (free p); fresh := fresh p |})
  | None => (fresh p, {| free := free p; fresh := S (fresh p) |})
  end.

(** [bufPool.Put(bufp)]. *)
Definition poolPut (b : buffer) (p : pool) : pool :=
  {| free := b :: free p; fresh := fresh p |}.

(** ** [copyAndClose] and [relay] *)

(** A [net.Conn] as [copyAndClose] sees it: which connection it is, and
    whether its dynamic type is the TCP connection type. *)
Record netConn : Type := {
  connName : conn;
  isTCP : bool
}.

(** The two goroutines of [relay]: client to remote, remote to client. *)
Inductive direction : Type := Upstream | Downstream.

(** What one iteration of the loop of [io.CopyBuffer] meets: a chunk read
    from the source, with the fate of its write to the destination, or a
    failed read. The end of the list is the end of the stream. *)
Inductive copyStep : Type :=
| Chunk (data : bytes) (written : bool)
| ReadFail.

Inductive action : Type :=
| Get (b : buffer)
| Copied (data : bytes)
| WriteFailed (data : bytes)
| ReadFailed
| EndOfStream
| CloseWrite (c : conn)
| CloseRead (c : conn)
| Put (b : buffer)
| Done.

Inductive relayEvent : Type :=
| Act (d : direction) (a : action)
| Returned.

(** Where a goroutine stands in [copyAndClose]; from [Get] to [Put] the
    local [bufp] holds a buffer. *)
Inductive pc : Type :=
| AtGet
| AtCopy (bufp : buffer)
| AtCloseWrite (bufp : buffer)
| AtCloseRead (bufp : buffer)
| AtPut (bufp : buffer)
| AtDone
| Finished.

Record task : Type := {
  dst : netConn;
  src : netConn;
  todo : list copyStep;
  at_pc : pc
}.

Definition moveTo (t : task) (l : list copyStep) (p : pc) : task :=
  {| dst := dst t; src := src t; todo := l; at_pc := p |}.

(** One step of a goroutine [go func() { defer wg.Done(); copyAndClose(dst, src) }()]:
    the new task, pool and wait-group counter and the actions performed;
    [None] once the goroutine has ended. *)
Definition taskStep (k : nat) (t : task) (p : pool) (wg : nat)
  : option (task * pool * nat * list action) :=
  match at_pc t with
  | AtGet =>
      let '(b, p') := poolGet k p in
      Some (moveTo t (todo t) (AtCopy b), p', wg, [Get b])
  | AtCopy b =>
      match todo t with
      | [] => Some (moveTo t [] (AtCloseWrite b), p, wg, [EndOfStream])
      | Chunk data true :: rest =>
          Some (moveTo t rest (AtCopy b), p, wg, [Copied data])
      | Chunk data false :: rest =>
          Some (moveTo t rest (AtCloseWrite b), p, wg, [WriteFailed data])
      | ReadFail :: rest =>
          Some (moveTo t rest (AtCloseWrite b), p, wg, [ReadFailed])
      end
  | AtCloseWrite b =>
      Some (moveTo t (todo t) (AtCloseRead b), p, wg,
            if isTCP (dst t) then [CloseWrite (connName (dst t))] else [])
  | AtCloseRead b =>
      Some (moveTo t (todo t) (AtPut b), p, wg,
            if isTCP (src t) then [CloseRead (connName (src t))] else [])
  | AtPut b =>
      Some (moveTo t (todo t) AtDone, poolPut b p, wg, [Put b])
  | AtDone =>
      Some (moveTo t (todo t) Finished, p, Nat.pred wg, [Done])
  | Finished => None
  end.

(** The state of one call of [relay]. *)
Record relayState : Type := {
  up : task;
  down : task;
  pl : pool;
  wg : nat;
  returned : bool;
  log : list relayEvent
}.

(** What the scheduler picks next: a step of one goroutine (with the
    choice [sync.Pool] makes, should the step be a [Get]), or the
    [wg.Wait()] of [relay] itself. *)
Inductive choice : Type :=
| Run (d : direction) (k : nat)
| Wait.

Definition relayStep (s : relayState) (c : choice) : relayState :=
  match c with
  | Run Upstream k =>
      match taskStep k (up s) (pl s) (wg s) with
      | Some (t, p, n, acts) =>
          {| up := t; down := down s; pl := p; wg := n;
             returned := returned s;
             log := log s ++ map (Act Upstream) acts |}
      | None => s
      end
  | Run Downstream k =>
      match taskStep k (down s) (pl s) (wg s) with
      | Some (t, p, n, acts) =>
          {| up := up s; down := t; pl := p; wg := n;
             returned := returned s;
             log := log s ++ map (Act Downstream) acts |}
      | None => s
      end
  | Wait =>
      if Nat.eqb (wg s) 0 && negb (returned s)
      then {| up := up s; down := down s; pl := pl s; wg := wg s;
              returned := true; log := log s ++ [Returned] |}
      else s
  end.

(** [relay(client, remote)] at its start: [wg.Add(2)], then the goroutine
    [copyAndClose(remote, client)] and the goroutine
    [copyAndClose(client, remote)]. *)
Definition relayStart (client remote : netConn)
    (fromClient fromRemote : list copyStep) (p : pool) : relayState :=
  {| up := {| dst := remote; src := client; todo := fromClient; at_pc := AtGet |};
     down := {| dst := client; src := remote; todo := fromRemote; at_pc := AtGet |};
     pl := p; wg := 2; returned := false; log := [] |}.

(** [relay] under a schedule of its own steps: the two goroutines and the
    wait of this one call, with the pool as these two goroutines alone
    leave it. The other users of the pool are added by [sharedRelay]
    below. *)
Definition relay (client remote : netConn)
    (fromClient fromRemote : list copyStep) (p : pool)
    (schedule : list choice) : relayState :=
  fold_left relayStep schedule (relayStart client remote fromClient fromRemote p).

(** ** The pool among all the sessions

    [bufPool] is a variable of the package: every session's
    [copyAndClose] takes its buffer from it and puts it back, and the
    runtime may free a buffer at rest at any moment. A call of [relay]
    therefore runs among steps that are not its own. *)

(** A step on the pool from outside this call of [relay]: the [Get] of
    another [copyAndClose] (with the choice the pool makes), the deferred
    [Put] of another [copyAndClose] (of the buffer it took, the [i]-th of
    those held outside), or the runtime freeing the buffer at rest at
    position [k]. *)
Inductive otherUse : Type :=
| OtherGet (k : nat)
| OtherPut (i : nat)
| PoolDrop (k : nat).

(** This call of [relay], and the buffers the [copyAndClose] calls of the
    other sessions hold. *)
Record shared : Type := {
  here : relayState;
  elsewhere : list buffer
}.

Inductive sharedChoice : Type :=
| Ours (c : choice)
| Theirs (o : otherUse).

Definition withPool (s : relayState) (p : pool) : relayState :=
  {| up := up s; down := down s; pl := p; wg := wg s;
     returned := returned s; log := log s |}.

Definition otherStep (w : shared) (o : otherUse) : shared :=
  match o with
  | OtherGet k =>
      let '(b, p) := poolGet k (pl (here w)) in
      {| here := withPool (here w) p; elsewhere := b :: elsewhere w |}
  | OtherPut i =>
      match nth_error (elsewhere w) i with
      | Some b =>
          {| here := withPool (here w) (poolPut b (pl (here w)));
             elsewhere := remove_nth i (elsewhere w) |}
      | None => w
      end
  | PoolDrop k =>
      {| here := withPool (here w)
                   {| free := remove_nth k (free (pl (here w)));
                      fresh := fresh (pl (here w)) |};
         elsewhere := elsewhere w |}
  end.

Definition sharedStep (w : shared) (c : sharedChoice) : shared :=
  match c with
  | Ours c => {| here := relayStep (here w) c; elsewhere := elsewhere w |}
  | Theirs o => otherStep w o
  end.

(** [relay(client, remote)] among the other users of the pool, which hold
    the buffers [others] when it starts. *)
Definition sharedRelay (client remote : netConn)
    (fromClient fromRemote : list copyStep) (p : pool)
    (others : list buffer) (schedule : list sharedChoice) : shared :=
  fold_left sharedStep schedule
    {| here := relayStart client remote fromClient fromRemote p;
       elsewhere := others |}.

(** ** The paths of a session *)

Section SessionPaths.

Variable ipString : bytes -> string.
Variable itoa : Z -> string.
Variable joinHostPort : string -> string -> string.
Variable env : Env.
Variable outboundIP : bytes.

(** A failure reply: no bound address, port zero. The reply of a session
    is its second write, after the method selection. *)
Definition failureReply (rep : byte) : event :=
  EvWrite (sendReplyBytes rep None 0) (writeOk env 1).

(** The events from the dial on. *)
Inductive dialPath (target : string) : list event -> Prop :=
| dial_failed err :
    dial env target = DialErr err ->
    dialPath target
      [EvDial outboundIP target (DialErr err); failureReply (dialFailureRep err)]
| dial_connected ip port :
    dial env target = DialOk ip port ->
    dialPath target
      [EvDial outboundIP target (DialOk ip port);
       EvWrite (sendReplyBytes repSuccess ip (uint16 port)) (writeOk env 1);
       EvSetDeadline Client None; EvSetDeadline Remote None;
       EvRelay; EvClose Remote].

(** The events of the destination address, and the host once accepted. *)
Inductive addrPath (atyp : byte) : list event -> option string -> Prop :=
| addr_v4_short :
    atyp = atypIPv4 ->
    addrPath atyp [EvRead AddrIPv4 4 None] None
| addr_v4 a :
    atyp = atypIPv4 -> length a = 4 ->
    addrPath atyp [EvRead AddrIPv4 4 (Some a)] (Some (ipString a))
| addr_len_short :
    atyp = atypDomain ->
    addrPath atyp [EvRead DomainLen 1 None] None
| addr_len_zero :
    atyp = atypDomain ->
    addrPath atyp
      [EvRead DomainLen 1 (Some [x00]); failureReply repGeneralFailure] None
| addr_domain_short l :
    atyp = atypDomain -> l <> x00 ->
    addrPath atyp
      [EvRead DomainLen 1 (Some [l]);
       EvRead Domain (Z.to_nat (Z_of_byte l)) None] None
| addr_domain l d :
    atyp = atypDomain -> l <> x00 -> length d = Z.to_nat (Z_of_byte l) ->
    addrPath atyp
      [EvRead DomainLen 1 (Some [l]);
       EvRead Domain (Z.to_nat (Z_of_byte l)) (Some d)]
      (Some (string_of_list_byte d))
| addr_v6_short :
    atyp = atypIPv6 ->
    addrPath atyp [EvRead AddrIPv6 16 None] None
| addr_v6 a :
    atyp = atypIPv6 -> length a = 16 ->
    addrPath atyp [EvRead AddrIPv6 16 (Some a)] (Some (ipString a))
| addr_unsupported :
    atyp <> atypIPv4 -> atyp <> atypDomain -> atyp <> atypIPv6 ->
    addrPath atyp [failureReply repAddrTypeNotSupported] None.

(** The events of the request phase. *)
Inductive requestPath : list event -> Prop :=
| req_short :
    requestPath [EvRead RequestHdr 4 None]
| req_bad_version v cmd rsv atyp :
    v <> socks5Version ->
    requestPath [EvRead RequestHdr 4 (Some [v; cmd; rsv; atyp])]
| req_bad_command cmd rsv atyp :
    cmd <> cmdConnect ->
    requestPath
      [EvRead RequestHdr 4 (Some [socks5Version; cmd; rsv; atyp]);
       failureReply repCommandNotSupported]
| req_addr_stop rsv atyp t :
    addrPath atyp t None ->
    requestPath
      (EvRead RequestHdr 4 (Some [socks5Version; cmdConnect; rsv; atyp]) :: t)
| req_port_short rsv atyp t host :
    addrPath atyp t (Some host) ->
    requestPath
      (EvRead RequestHdr 4 (Some [socks5Version; cmdConnect; rsv; atyp])
         :: t ++ [EvRead DestPort 2 None])
| req_dial rsv atyp t host hi lo d :
    addrPath atyp t (Some host) ->
    dialPath (joinHostPort host (itoa (Z_of_byte hi * 256 + Z_of_byte lo)%Z)) d ->
    requestPath
      (EvRead RequestHdr 4 (Some [socks5Version; cmdConnect; rsv; atyp])
         :: t ++ EvRead DestPort 2 (Some [hi; lo]) :: d).

(** The events of a session before the deferred close of the client. *)
Inductive sessionPath : list event -> Prop :=
| greeting_short :
    sessionPath [EvSetDeadline Client (Some 10%Z); EvRead GreetingHdr 2 None]
| greeting_bad_version v n :
    v <> socks5Version ->
    sessionPath
      [EvSetDeadline Client (Some 10%Z); EvRead GreetingHdr 2 (Some [v; n])]
| greeting_no_methods :
    sessionPath
      [EvSetDeadline Client (Some 10%Z);
       EvRead GreetingHdr 2 (Some [socks5Version; x00])]
| methods_short n :
    n <> x00 ->
    sessionPath
      [EvSetDeadline Client (Some 10%Z);
       EvRead GreetingHdr 2 (Some [socks5Version; n]);
       EvRead Methods (Z.to_nat (Z_of_byte n)) None]
| methods_rejected n methods :
    n <> x00 -> length methods = Z.to_nat (Z_of_byte n) ->
    hasNoAuth methods = false ->
    sessionPath
      [EvSetDeadline Client (Some 10%Z);
       EvRead GreetingHdr 2 (Some [socks5Version; n]);
       EvRead Methods (Z.to_nat (Z_of_byte n)) (Some methods);
       EvWrite [socks5Version; authNoAcceptable] (writeOk env 0)]
| selection_unsent n methods :
    n <> x00 -> length methods = Z.to_nat (Z_of_byte n) ->
    hasNoAuth methods = true -> writeOk env 0 = false ->
    sessionPath
      [EvSetDeadline Client (Some 10%Z);
       EvRead GreetingHdr 2 (Some [socks5Version; n]);
       EvRead Methods (Z.to_nat (Z_of_byte n)) (Some methods);
       EvWrite [socks5Version; authNone] false]
| selection_sent n methods t :
    n <> x00 -> length methods = Z.to_nat (Z_of_byte n) ->
    hasNoAuth methods = true -> writeOk env 0 = true ->
    requestPath t ->
    sessionPath
      ([EvSetDeadline Client (Some 10%Z);
        EvRead GreetingHdr 2 (Some [socks5Version; n]);
        EvRead Methods (Z.to_nat (Z_of_byte n)) (Some methods);
        EvWrite [socks5Version; authNone] true] ++ t).

End SessionPaths.

(** ** Vocabulary of the statements about a session *)

(** The ten bytes of a reply that carries no bound address. *)
Definition nullReply (rep : byte) : bytes :=
  [x05; rep; x00; x01; x00; x00; x00; x00; x00; x00].

(** A message whose status byte (the second one) is not success. *)
Definition nonSuccess (data : bytes) : Prop :=
  exists st, nth_error data 1 = Some st /\ st <> repSuccess.

(** The writes among the events. *)
Definition writes (t : list event) : list event :=
  filter (fun e => match e with EvWrite _ _ => true | _ => false end) t.

(** Reads of the greeting, as opposed to reads of the request. *)
Definition inGreeting (e : event) : bool :=
  match e with
  | EvRead GreetingHdr _ _ | EvRead Methods _ _ => true
  | _ => false
  end.

(** How the server must answer what it has just read: with silence
    ([None]) after malformed input, with a reply of a given status after a
    well-formed request it cannot serve. *)
Inductive verdict : event -> option byte -> Prop :=
| short_read f n :
    verdict (EvRead f n None) None
| greeting_version v n :
    v <> socks5Version ->
    verdict (EvRead GreetingHdr 2 (Some [v; n])) None
| greeting_count_zero :
    verdict (EvRead GreetingHdr 2 (Some [socks5Version; x00])) None
| request_version v cmd rsv atyp :
    v <> socks5Version ->
    verdict (EvRead RequestHdr 4 (Some [v; cmd; rsv; atyp])) None
| unsupported_command cmd rsv atyp :
    cmd <> cmdConnect ->
    verdict (EvRead RequestHdr 4 (Some [socks5Version; cmd; rsv; atyp]))
            (Some repCommandNotSupported)
| unsupported_address_type rsv atyp :
    atyp <> atypIPv4 -> atyp <> atypDomain -> atyp <> atypIPv6 ->
    verdict (EvRead RequestHdr 4 (Some [socks5Version; cmdConnect; rsv; atyp]))
            (Some repAddrTypeNotSupported)
| empty_name :
    verdict (EvRead DomainLen 1 (Some [x00])) (Some repGeneralFailure).

(** The events that must follow an accepted destination address [host]:
    the read of two port bytes and, once read, the dial of the host at
    the port they spell in big-endian order. *)
Definition portThenDial (joinHostPort : string -> string -> string)
    (itoa : Z -> string) (outboundIP : bytes) (host : string)
    (post : list event) : Prop :=
  exists rp post1,
    post = EvRead DestPort 2 rp :: post1
    /\ (rp = None -> post1 = [EvClose Client])
    /\ (forall p, rp = Some p ->
          exists hi lo res post2,
            p = [hi; lo]
            /\ post1 =
               EvDial outboundIP
                 (joinHostPort host (itoa (Z_of_byte hi * 256 + Z_of_byte lo)%Z))
                 res :: post2).

(** The events of a well-formed greeting: version 5, a count, and as many
    method bytes read. *)
Definition greetingRead (n : byte) (methods : bytes) : list event :=
  [EvSetDeadline Client (Some 10%Z);
   EvRead GreetingHdr 2 (Some [socks5Version; n]);
   EvRead Methods (Z.to_nat (Z_of_byte n)) (Some methods)].

(** The greeting property as the specification words it: after a
    well-formed greeting that offers NO AUTH the server selects it and goes
    on to read the request; after one that does not, it answers
    0xFF and closes. *)
Definition greetingAsSpecified (t : list event) : Prop :=
  forall n methods post,
    t = greetingRead n methods ++ post ->
    (In authNone methods ->
       exists ok r post1,
         post = EvWrite [x05; x00] ok :: EvRead RequestHdr 4 r :: post1)
    /\ (~ In authNone methods ->
          exists ok, post = [EvWrite [x05; xff] ok; EvClose Client]).

(** The wire shape of a reply: VERSION, STATUS, RESERVED, ADDR-TYPE,
    BOUND-ADDR and the two bytes of BOUND-PORT, high byte first; the
    address is the 4-byte form of an IPv4-shaped bound address, the
    16-byte form of any other (the address itself when it has 16 bytes,
    zeros when it has not), and four zero bytes when there is none. *)
Definition wireShape (rep : byte) (bound : netIP) (port : Z) (data : bytes)
  : Prop :=
  exists atyp addr hi lo,
    data = [x05; rep; x00; atyp] ++ addr ++ [hi; lo]
    /\ (Z_of_byte hi * 256 + Z_of_byte lo)%Z = port
    /\ match bound with
       | None => atyp = x01 /\ addr = [x00; x00; x00; x00]
       | Some ip =>
           match To4 ip with
           | Some v4 => atyp = x01 /\ addr = v4 /\ length addr = 4
           | None =>
               atyp = x04 /\ length addr = 16
               /\ (length ip = 16 -> addr = ip)
               /\ (length ip <> 16 -> addr = repeat x00 16)
           end
       end.

(** ** Sessions used as examples *)

(** Stand-ins for the three library functions in the examples below: the
    address bytes as text, the port in decimal, host and port joined by a
    colon. *)
Definition showIP (ip : bytes) : string := string_of_list_byte ip.

Definition showPort (port : Z) : string :=
  DecimalString.NilEmpty.string_of_uint (N.to_uint (Z.to_N port)).

Definition joinColon (host port : string) : string :=
  (host ++ ":" ++ port)%string.

(** The greeting 05 01 00: version 5, one method, NO AUTH. *)
Definition greetingNoAuth : bytes := [x05; x01; x00].

(** CONNECT to 127.0.0.1 port 80. *)
Definition connectLoopback : bytes :=
  [x05; x01; x00; x01; x7f; x00; x00; x01; x00; x50].

(** CONNECT to the name "example.com" port 443. *)
Definition connectByName : bytes :=
  [x05; x01; x00; x03; x0b] ++ list_byte_of_string "example.com"
    ++ [x01; xbb].

(** The error of a refused connection, as package [net] wraps it. *)
Definition refused : goError :=
  Wrapped "dial tcp" (Wrapped "connect" (Errno ECONNREFUSED)).

(** The outbound address 2001:db8::1. *)
Definition outbound : bytes :=
  [x20; x01; x0d; xb8; x00; x00; x00; x00;
   x00; x00; x00; x00; x00; x00; x00; x01].

(** A client whose CONNECT meets a refused connection. *)
Definition envRefused : Env :=
  {| clientBytes := greetingNoAuth ++ connectLoopback;
     writeOk := fun _ => true;
     dial := fun _ => DialErr refused |}.

(** A client whose CONNECT by name succeeds, the dialer having bound
    the outbound address and port 40000. *)
Definition envConnected : Env :=
  {| clientBytes := greetingNoAuth ++ connectByName;
     writeOk := fun _ => true;
     dial := fun _ => DialOk (Some outbound) 40000 |}.

(** The same, except that the client is gone when the reply is written:
    the second write fails. *)
Definition envReplyLost : Env :=
  {| clientBytes := greetingNoAuth ++ connectLoopback;
     writeOk := fun k => Nat.eqb k 0;
     dial := fun _ => DialOk (Some outbound) 40000 |}.

(** A client to which the method selection cannot be written. *)
Definition envSelectionLost : Env :=
  {| clientBytes := greetingNoAuth ++ connectLoopback;
     writeOk := fun _ => false;
     dial := fun _ => DialOk (Some outbound) 40000 |}.

(** A client that asks for BIND (command 2). *)
Definition envBind : Env :=
  {| clientBytes := greetingNoAuth ++ [x05; x02; x00; x01; x7f; x00; x00; x01; x00; x50];
     writeOk := fun _ => true;
     dial := fun _ => DialErr refused |}.

(** A client that speaks SOCKS version 4. *)
Definition envVersion4 : Env :=
  {| clientBytes := [x04; x01; x00; x50; x7f; x00; x00; x01; x00];
     writeOk := fun _ => true;
     dial := fun _ => DialErr refused |}.

(** A client that names its destination with the empty name. *)
Definition envEmptyName : Env :=
  {| clientBytes := greetingNoAuth ++ [x05; x01; x00; x03; x00; x01; xbb];
     writeOk := fun _ => true;
     dial := fun _ => DialErr refused |}.

(** The events of the greeting 05 01 00 and of its selection. *)
Definition greeted (ok : bool) : list event :=
  greetingRead x01 [x00] ++ [EvWrite [x05; x00] ok].

(** ** Vocabulary of the statements about the relay *)

Definition direction_eqb (a b : direction) : bool :=
  match a, b with
  | Upstream, Upstream | Downstream, Downstream => true
  | _, _ => false
  end.

(** The actions of one goroutine, in order. *)
Fixpoint actionsOf (d : direction) (l : list relayEvent) : list action :=
  match l with
  | [] => []
  | Act d' a :: rest =>
      if direction_eqb d d' then a :: actionsOf d rest else actionsOf d rest
  | Returned :: rest => actionsOf d rest
  end.

(** The buffers a list of actions acquires, and those it releases. *)
Fixpoint acquired (l : list action) : list buffer :=
  match l with
  | [] => []
  | Get b :: rest => b :: acquired rest
  | _ :: rest => acquired rest
  end.

Fixpoint released (l : list action) : list buffer :=
  match l with
  | [] => []
  | Put b :: rest => b :: released rest
  | _ :: rest => released rest
  end.

(** What the loop of [io.CopyBuffer] does on a stream: it copies chunks
    until the stream ends, a read fails or a write fails. *)
Fixpoint copyEvents (stream : list copyStep) : list action :=
  match stream with
  | [] => [EndOfStream]
  | Chunk data true :: rest => Copied data :: copyEvents rest
  | Chunk data false :: _ => [WriteFailed data]
  | ReadFail :: _ => [ReadFailed]
  end.

(** The half-close at the end of [copyAndClose]: [CloseWrite] on the
    destination, then [CloseRead] on the source, each only on a TCP
    connection. *)
Definition halfClose (dst src : netConn) : list action :=
  (if isTCP dst then [CloseWrite (connName dst)] else [])
  ++ (if isTCP src then [CloseRead (connName src)] else []).

(** The buffer a goroutine holds in [bufp]. *)
Definition held (t : task) : list buffer :=
  match at_pc t with
  | AtCopy b | AtCloseWrite b | AtCloseRead b | AtPut b => [b]
  | AtGet | AtDone | Finished => []
  end.

(** The goroutine has not yet called [wg.Done()]. *)
Definition pending (t : task) : nat :=
  match at_pc t with
  | Finished => 0
  | _ => 1
  end.

(** The goroutine of a direction. *)
Definition taskOf (d : direction) (s : relayState) : task :=
  match d with
  | Upstream => up s
  | Downstream => down s
  end.

(** What a goroutine started as [copyAndClose(dst0, src0)] on [stream] has
    done by the time it stands at its program point. *)
Definition taskInv (dst0 src0 : netConn) (stream : list copyStep)
    (t : task) (acts : list action) : Prop :=
  dst t = dst0 /\ src t = src0 /\
  match at_pc t with
  | AtGet => acts = [] /\ todo t = stream
  | AtCopy b =>
      exists copied,
        acts = Get b :: copied
        /\ copied ++ copyEvents (todo t) = copyEvents stream
  | AtCloseWrite b => acts = Get b :: copyEvents stream
  | AtCloseRead b =>
      acts = Get b :: copyEvents stream
               ++ (if isTCP dst0 then [CloseWrite (connName dst0)] else [])
  | AtPut b => acts = Get b :: copyEvents stream ++ halfClose dst0 src0
  | AtDone =>
      exists b, acts = Get b :: copyEvents stream ++ halfClose dst0 src0 ++ [Put b]
  | Finished =>
      exists b,
        acts = Get b :: copyEvents stream ++ halfClose dst0 src0 ++ [Put b; Done]
  end.

(** The invariant of [relay] on the two goroutines, the wait group and
    the return. *)
Definition relayInv (client remote : netConn)
    (fromClient fromRemote : list copyStep) (s : relayState) : Prop :=
  taskInv remote client fromClient (up s) (actionsOf Upstream (log s))
  /\ taskInv client remote fromRemote (down s) (actionsOf Downstream (log s))
  /\ wg s = pending (up s) + pending (down s)
  /\ (if returned s
      then wg s = 0 /\ exists l, log s = l ++ [Returned] /\ ~ In Returned l
      else ~ In Returned (log s)).

(** The destination, the source and the stream of a direction of
    [relay(client, remote)]. *)
Definition dstOf (d : direction) (client remote : netConn) : netConn :=
  match d with Upstream => remote | Downstream => client end.

Definition srcOf (d : direction) (client remote : netConn) : netConn :=
  match d with Upstream => client | Downstream => remote end.

Definition streamOf (d : direction) (fromClient fromRemote : list copyStep)
  : list copyStep :=
  match d with Upstream => fromClient | Downstream => fromRemote end.

(** The buffers that exist: held by a goroutine of this call, held by
    another session, or at rest in the pool. *)
Definition buffers (w : shared) : list buffer :=
  held (up (here w)) ++ held (down (here w))
  ++ elsewhere w ++ free (pl (here w)).

(** The steps a goroutine has left at most. *)
Definition stepsLeft (t : task) : nat :=
  match at_pc t with
  | AtGet => length (todo t) + 6
  | AtCopy _ => length (todo t) + 5
  | AtCloseWrite _ => 4
  | AtCloseRead _ => 3
  | AtPut _ => 2
  | AtDone => 1
  | Finished => 0
  end.

(** The invariant of [relay] among the other users of the pool: that of
    [relay], no buffer in two places, the names of fresh buffers new, and
    no goroutine further from its end than at its start. *)
Definition sharedInv (client remote : netConn)
    (fromClient fromRemote : list copyStep) (w : shared) : Prop :=
  relayInv client remote fromClient fromRemote (here w)
  /\ NoDup (buffers w)
  /\ (forall b, In b (buffers w) -> b < fresh (pl (here w)))
  /\ stepsLeft (up (here w)) <= length fromClient + 6
  /\ stepsLeft (down (here w)) <= length fromRemote + 6.

(** A schedule that runs the client-to-remote goroutine to its end, then
    the other one, then lets [wg.Wait()] return. *)
Definition runToEnd (d : direction) (stream : list copyStep) : list choice :=
  repeat (Run d 0) (length stream + 6).

Definition oneAfterTheOther (fromClient fromRemote : list copyStep)
  : list choice :=
  runToEnd Upstream fromClient ++ runToEnd Downstream fromRemote ++ [Wait].

(** A TCP client and a TCP remote, and a relay in which the client's
    stream breaks after one chunk while the remote sends two chunks. *)
Definition tcpClient : netConn := {| connName := Client; isTCP := true |}.
Definition tcpRemote : netConn := {| connName := Remote; isTCP := true |}.

Definition brokenUpload : list copyStep := [Chunk [x47; x45; x54] true; ReadFail].
Definition download : list copyStep := [Chunk [x48; x54] true; Chunk [x54; x50] true].

Definition emptyPool : pool := {| free := []; fresh := 0 |}.

(** The downstream goroutine starts first and ends last. *)
Definition interleaved : list choice :=
  [Run Downstream 0; Run Upstream 0; Run Upstream 0; Run Downstream 0;
   Run Upstream 0; Run Upstream 0; Run Upstream 0; Run Upstream 0;
   Run Upstream 0; Wait; Run Downstream 0; Run Downstream 0;
   Run Downstream 0; Run Downstream 0; Run Downstream 0; Run Downstream 0;
   Wait].

(** A pool with two buffers at rest while another session holds a third,
    and a schedule in which the other sessions and the runtime act
    between the steps of the two goroutines: another session takes a
    buffer, the downstream goroutine takes the one left, the upstream
    goroutine has to make a new one, and the runtime frees buffers that
    were put back. *)
Definition warmPool : pool := {| free := [0; 1]; fresh := 3 |}.

Definition heldOutside : list buffer := [2].

Definition crowded : list sharedChoice :=
  [Theirs (OtherGet 1); Ours (Run Downstream 0); Ours (Run Upstream 0);
   Theirs (OtherPut 1); Ours (Run Upstream 0); Ours (Run Downstream 0);
   Ours (Run Upstream 0); Ours (Run Upstream 0); Ours (Run Upstream 0);
   Ours (Run Upstream 0); Theirs (PoolDrop 0); Ours (Run Upstream 0);
   Ours (Wait); Theirs (OtherGet 5); Ours (Run Downstream 0);
   Ours (Run Downstream 0); Ours (Run Downstream 0);
   Ours (Run Downstream 0); Theirs (OtherPut 0); Ours (Run Downstream 0);
   Ours (Run Downstream 0); Theirs (PoolDrop 3); Ours (Wait)].

(** The same up to the moment the downstream goroutine stands at its
    deferred [Put], the upstream one having ended on its failed read. *)
Definition crowdedToPut : list sharedChoice := firstn 18 crowded.

(** ** More vocabulary for sessions *)

(** The dials among the events. *)
Definition dials (t : list event) : list event :=
  filter (fun e => match e with EvDial _ _ _ => true | _ => false end) t.

(** The bytes the successful reads of a trace returned, in order. *)
Fixpoint readBytes (t : list event) : bytes :=
  match t with
  | [] => []
  | EvRead _ _ (Some got) :: rest => got ++ readBytes rest
  | _ :: rest => readBytes rest
  end.

(** A client that offers three methods, NO AUTH last, then asks for
    127.0.0.1 port 80 and already sends two bytes of payload. *)
Definition envEager : Env :=
  {| clientBytes :=
       [x05; x03; x02; x01; x00] ++ connectLoopback ++ [x47; x45];
     writeOk := fun _ => true;
     dial := fun _ => DialOk (Some outbound) 40000 |}.

(** ** More vocabulary for the relay *)

(** The bytes a list of actions has written to the destination. *)
Fixpoint delivered (l : list action) : bytes :=
  match l with
  | [] => []
  | Copied data :: rest => data ++ delivered rest
  | _ :: rest => delivered rest
  end.

(** All the bytes a stream carries. *)
Fixpoint sent (stream : list copyStep) : bytes :=
  match stream with
  | [] => []
  | Chunk data _ :: rest => data ++ sent rest
  | ReadFail :: rest => sent rest
  end.

(** A stream on which no read and no write fails. *)
Fixpoint clean (stream : list copyStep) : bool :=
  match stream with
  | [] => true
  | Chunk _ written :: rest => written && clean rest
  | ReadFail :: _ => false
  end.

(** The [Get]s of other sessions and the buffers the runtime frees, as a
    schedule asks for them. *)
Definition otherGets (schedule : list sharedChoice) : nat :=
  length (filter (fun c => match c with
                           | Theirs (OtherGet _) => true
                           | _ => false
                           end) schedule).

Definition poolDrops (schedule : list sharedChoice) : nat :=
  length (filter (fun c => match c with
                           | Theirs (PoolDrop _) => true
                           | _ => false
                           end) schedule).

(** The buffers [relay]'s goroutines have acquired so far. *)
Definition taken (s : relayState) : nat :=
  length (acquired (actionsOf Upstream (log s)))
  + length (acquired (actionsOf Downstream (log s))).

(** The account of the buffers since the start of [relay] on the pool [p]
    with [others] held elsewhere: those made since are named from
    [fresh p] on; [dropped] are those the runtime freed. *)
Definition poolGrowth (p : pool) (others : list buffer)
    (schedule : list sharedChoice) (w : shared) (dropped : list buffer)
  : Prop :=
  Permutation (dropped ++ buffers w)
    (seq (fresh p) (fresh (pl (here w)) - fresh p) ++ others ++ free p)
  /\ length dropped <= poolDrops schedule
  /\ fresh p <= fresh (pl (here w))
  /\ fresh (pl (here w)) <= fresh p + taken (here w) + otherGets schedule.

(** ** [ParseIPv6] (ipv6.go) and [StartProxy] *)

Inductive ipv6Error : Type :=
| InvalidIPAddress (s : string)
| ExpectedIPv6 (s : string).

(** A [ProxyEntry] of the configuration. *)
Record ProxyEntry : Type := {
  IPv6 : string;
  Port : Z
}.

(** What [ln.Accept()] returns: a client connection, or an error that is
    [net.ErrClosed] or not. *)
Inductive acceptResult : Type :=
| Accepted (client : Env)
| AcceptError (closed : bool).

Inductive proxyError : Type :=
| ProxyAddress (port : Z) (e : ipv6Error)
| ProxyListen (addr : string) (e : goError).

Inductive proxyEvent : Type :=
| PListen (addr : string)
| PLogListening (addr : string) (outboundIP : bytes)
| PServe (outboundIP : bytes) (port : Z) (client : Env)
| PLogAcceptError (port : Z)
| PCloseListener.

(** [StartProxy] has returned, with an error or none, or it is still in
    its loop, waiting in [Accept]. *)
Inductive proxyResult : Type :=
| ProxyReturned (err : option proxyError)
| ProxyAccepting.

Section Listener.

(** [net.ParseIP] and [strconv]'s decimal, of the Go standard library,
    and the operating system's answer to [net.Listen]. *)
Variable parseIP : string -> netIP.
Variable itoa : Z -> string.
Variable listen : string -> option goError.

(** [ParseIPv6(s)]: the parsed address, unless [s] is no address or an
    IPv4 one. *)
Definition ParseIPv6 (s : string) : bytes + ipv6Error :=
  match parseIP s with
  | None => inr (InvalidIPAddress s)
  | Some ip =>
      match To4 ip with
      | Some _ => inr (ExpectedIPv6 s)
      | None => inl ip
      end
  end.

(** The loop of [StartProxy] over what [Accept] returns, one after the
    other: the events, and whether the loop was left. Each accepted client
    is served by a goroutine [handleConnection(conn, outboundIP, port)]. *)
Fixpoint acceptLoop (outboundIP : bytes) (port : Z)
    (accepts : list acceptResult) : list proxyEvent * bool :=
  match accepts with
  | [] => ([], false)
  | Accepted client :: rest =>
      let '(t, done) := acceptLoop outboundIP port rest in
      (PServe outboundIP port client :: t, done)
  | AcceptError true :: _ => ([], true)
  | AcceptError false :: rest =>
      let '(t, done) := acceptLoop outboundIP port rest in
      (PLogAcceptError port :: t, done)
  end.

(** [StartProxy(entry)]; [defer ln.Close()] runs when it returns. *)
Definition StartProxy (entry : ProxyEntry) (accepts : list acceptResult)
  : list proxyEvent * proxyResult :=
  match ParseIPv6 (IPv6 entry) with
  | inr e => ([], ProxyReturned (Some (ProxyAddress (Port entry) e)))
  | inl outboundIP =>
      let listenAddr := (":" ++ itoa (Port entry))%string in
      match listen listenAddr with
      | Some e =>
          ([PListen listenAddr],
           ProxyReturned (Some (ProxyListen listenAddr e)))
      | None =>
          let '(t, done) := acceptLoop outboundIP (Port entry) accepts in
          if done
          then (PListen listenAddr :: PLogListening listenAddr outboundIP
                  :: t ++ [PCloseListener],
                ProxyReturned None)
          else (PListen listenAddr :: PLogListening listenAddr outboundIP :: t,
                ProxyAccepting)
      end
  end.

End Listener.

(** The clients served, in order. *)
Fixpoint served (t : list proxyEvent) : list Env :=
  match t with
  | [] => []
  | PServe _ _ client :: rest => client :: served rest
  | _ :: rest => served rest
  end.

(** The clients accepted before the listener was closed. *)
Fixpoint acceptedBeforeClose (accepts : list acceptResult) : list Env :=
  match accepts with
  | [] => []
  | Accepted client :: rest => client :: acceptedBeforeClose rest
  | AcceptError true :: _ => []
  | AcceptError false :: rest => acceptedBeforeClose rest
  end.

(** The listener was closed at some point of what [Accept] returns. *)
Definition listenerClosed (accepts : list acceptResult) : Prop :=
  In (AcceptError true) accepts.

(** ** [LoadConfig] *)

(** The top-level configuration. *)
Record Config : Type := {
  Interface : string;
  Proxies : list ProxyEntry
}.

Inductive configError : Type :=
| ReadConfig (e : goError)
| ParseConfig (e : goError)
| InterfaceRequired
| ProxyRequired
| InvalidAddress (i : nat) (s : string)
| IPv4Address (i : nat) (s : string)
| PortOutOfRange (i : nat) (port : Z)
| DuplicateIPv6 (i : nat) (s : string)
| DuplicatePort (i : nat) (port : Z).

(** The index [proxies[i]] an error names. *)
Definition errorIndex (e : configError) : option nat :=
  match e with
  | InvalidAddress i _ | IPv4Address i _ | PortOutOfRange i _
  | DuplicateIPv6 i _ | DuplicatePort i _ => Some i
  | _ => None
  end.

Section Configuration.

(** [os.ReadFile], [yaml.Unmarshal] into a [Config], [net.ParseIP] and
    [net.IP.String]. *)
Variable readFile : string -> bytes + goError.
Variable unmarshal : bytes -> Config + goError.
Variable parseIP : string -> netIP.
Variable ipString : bytes -> string.

(** The loop of [LoadConfig] over [cfg.Proxies], from index [i] on, with
    the sets [seen] and [seenPorts] (Go maps used as sets, here the lists
    of their keys); it stores the normalized address in each entry. *)
Fixpoint validateProxies (i : nat) (seen : list string) (seenPorts : list Z)
    (ps : list ProxyEntry) : list ProxyEntry + configError :=
  match ps with
  | [] => inl []
  | p :: rest =>
      match parseIP (IPv6 p) with
      | None => inr (InvalidAddress i (IPv6 p))
      | Some ip =>
          match To4 ip with
          | Some _ => inr (IPv4Address i (IPv6 p))
          | None =>
              let normalized := ipString ip in
              if Z.ltb (Port p) 1 || Z.ltb 65535 (Port p)
              then inr (PortOutOfRange i (Port p))
              else if existsb (String.eqb normalized) seen
              then inr (DuplicateIPv6 i (IPv6 p))
              else if existsb (Z.eqb (Port p)) seenPorts
              then inr (DuplicatePort i (Port p))
              else
                match validateProxies (S i) (normalized :: seen)
                        (Port p :: seenPorts) rest with
                | inl out => inl ({| IPv6 := normalized; Port := Port p |} :: out)
                | inr e => inr e
                end
          end
      end
  end.

Definition LoadConfig (path : string) : Config + configError :=
  match readFile path with
  | inr e => inr (ReadConfig e)
  | inl data =>
      match unmarshal data with
      | inr e => inr (ParseConfig e)
      | inl cfg =>
          if String.eqb (Interface cfg) ""
          then inr InterfaceRequired
          else if Nat.eqb (length (Proxies cfg)) 0
          then inr ProxyRequired
          else
            match validateProxies 0 [] [] (Proxies cfg) with
            | inl ps => inl {| Interface := Interface cfg; Proxies := ps |}
            | inr e => inr e
            end
      end
  end.

(** The normalized address of an entry of the file. *)
Definition normalizedOf (p : ProxyEntry) : string :=
  match parseIP (IPv6 p) with
  | Some ip => ipString ip
  | None => ""
  end.

(** An entry of the file that passes the checks made on it alone. *)
Definition validEntry (p : ProxyEntry) : Prop :=
  (exists ip, parseIP (IPv6 p) = Some ip /\ To4 ip = None)
  /\ (1 <= Port p <= 65535)%Z.

(** Why the entry [p] does not pass after entries with the normalized
    addresses [seen] and the ports [seenPorts], as the error tells it:
    the checks are made in the order of the source, and each error says
    that the checks before its own were passed. *)
Definition failsAs (seen : list string) (seenPorts : list Z)
    (p : ProxyEntry) (e : configError) : Prop :=
  match e with
  | InvalidAddress _ s => s = IPv6 p /\ parseIP (IPv6 p) = None
  | IPv4Address _ s =>
      s = IPv6 p
      /\ exists ip v4, parseIP (IPv6 p) = Some ip /\ To4 ip = Some v4
  | PortOutOfRange _ port =>
      port = Port p
      /\ (exists ip, parseIP (IPv6 p) = Some ip /\ To4 ip = None)
      /\ (Port p < 1 \/ 65535 < Port p)%Z
  | DuplicateIPv6 _ s =>
      s = IPv6 p /\ validEntry p /\ In (normalizedOf p) seen
  | DuplicatePort _ port =>
      port = Port p /\ validEntry p
      /\ ~ In (normalizedOf p) seen /\ In (Port p) seenPorts
  | _ => False
  end.

(** An entry of the file and the entry [LoadConfig] makes of it. *)
Definition loadedFrom (raw loaded : ProxyEntry) : Prop :=
  validEntry raw
  /\ IPv6 loaded = normalizedOf raw
  /\ Port loaded = Port raw.

End Configuration.

(** ** [EnsureIPv6Addresses] (netif.go) *)

Inductive netifError : Type :=
| InterfaceNotFound (iface : string) (e : goError)
| ListAddresses (iface : string) (e : goError)
| InvalidEntry (s : string) (e : ipv6Error)
| AddFailed (addr iface trimmed : string) (e : goError).

(** The result of [cmd.CombinedOutput()]. *)
Inductive cmdResult : Type :=
| CmdOk (output : string)
| CmdFailed (output : string) (e : goError).

Inductive netifEvent : Type :=
| NSkip (normalized : string)
| NCommand (addr iface : string) (res : cmdResult)
| NRace (normalized : string)
| NAdded (addr : string).

(** [strings.Contains(s, substr)]. *)
Definition contains (s substr : string) : bool :=
  match index 0 substr s with
  | Some _ => true
  | None => false
  end.

(** The text of an address without its mask: up to the first '/'. *)
Definition stripMask (s : string) : string :=
  match index 0 "/" s with
  | Some idx => substring 0 idx s
  | None => s
  end.

Definition fileExists : string := "RTNETLINK answers: File exists".

Section Netif.

(** [net.InterfaceByName] ([None]: found), the texts of [ifi.Addrs()],
    [net.ParseIP], [net.IP.String], the outcome of the command
    [ip addr add addr dev iface], which may depend on the commands run
    before it, and [strings.TrimSpace]. *)
Variable interfaceByName : string -> option goError.
Variable interfaceAddrs : string -> list string + goError.
Variable parseIP : string -> netIP.
Variable ipString : bytes -> string.
Variable ipAddrAdd : list string -> string -> string -> cmdResult.
Variable trimSpace : string -> string.

(** The set [existing] (a Go map used as a set, here the list of its
    keys): the normalized addresses of the interface. *)
Fixpoint existingAddresses (addrs : list string) : list string :=
  match addrs with
  | [] => []
  | a :: rest =>
      match parseIP (stripMask a) with
      | Some ip => ipString ip :: existingAddresses rest
      | None => existingAddresses rest
      end
  end.

(** The loop over the entries; [ran] lists the addresses of the commands
    run so far. *)
Fixpoint ensureEntries (iface : string) (existing ran : list string)
    (entries : list ProxyEntry) : list netifEvent * option netifError :=
  match entries with
  | [] => ([], None)
  | entry :: rest =>
      match ParseIPv6 parseIP (IPv6 entry) with
      | inr e => ([], Some (InvalidEntry (IPv6 entry) e))
      | inl ip =>
          let normalized := ipString ip in
          if existsb (String.eqb normalized) existing
          then
            let '(t, r) := ensureEntries iface existing ran rest in
            (NSkip normalized :: t, r)
          else
            let addr := (normalized ++ "/128")%string in
            match ipAddrAdd ran addr iface with
            | CmdFailed output e =>
                if contains output fileExists
                then
                  let '(t, r) :=
                    ensureEntries iface existing (ran ++ [addr]) rest in
                  (NCommand addr iface (CmdFailed output e)
                     :: NRace normalized :: t, r)
                else
                  ([NCommand addr iface (CmdFailed output e)],
                   Some (AddFailed addr iface (trimSpace output) e))
            | CmdOk output =>
                let '(t, r) :=
                  ensureEntries iface existing (ran ++ [addr]) rest in
                (NCommand addr iface (CmdOk output) :: NAdded addr :: t, r)
            end
      end
  end.

Definition EnsureIPv6Addresses (iface : string) (entries : list ProxyEntry)
  : list netifEvent * option netifError :=
  match interfaceByName iface with
  | Some e => ([], Some (InterfaceNotFound iface e))
  | None =>
      match interfaceAddrs iface with
      | inr e => ([], Some (ListAddresses iface e))
      | inl addrs => ensureEntries iface (existingAddresses addrs) [] entries
      end
  end.

(** The normalized addresses among [entries] that are not in [existing],
    each with the mask /128. *)
Definition missing (existing : list string) (entries : list ProxyEntry)
  : list string :=
  map (fun n => (n ++ "/128")%string)
    (filter (fun n => negb (existsb (String.eqb n) existing))
       (map (normalizedOf parseIP ipString) entries)).

End Netif.

(** The addresses of the commands run, in order. *)
Fixpoint commands (t : list netifEvent) : list string :=
  match t with
  | [] => []
  | NCommand addr _ _ :: rest => addr :: commands rest
  | _ :: rest => commands rest
  end.

(** ** [setSocketOptions] (linux) *)

Inductive sockLevel : Type := SOL_SOCKET | IPPROTO_TCP.

Inductive sockOption : Type :=
| SO_REUSEADDR | TCP_NODELAY | SO_KEEPALIVE
| TCP_KEEPIDLE | TCP_KEEPINTVL | TCP_KEEPCNT.

(** A call [unix.SetsockoptInt(fd, level, opt, value)]. *)
Record sockCall : Type := {
  level : sockLevel;
  opt : sockOption;
  value : Z
}.

(** The six settings, in the order of the source. *)
Definition tuning : list sockCall :=
  [ {| level := SOL_SOCKET; opt := SO_REUSEADDR; value := 1 |};
    {| level := IPPROTO_TCP; opt := TCP_NODELAY; value := 1 |};
    {| level := SOL_SOCKET; opt := SO_KEEPALIVE; value := 1 |};
    {| level := IPPROTO_TCP; opt := TCP_KEEPIDLE; value := 30 |};
    {| level := IPPROTO_TCP; opt := TCP_KEEPINTVL; value := 10 |};
    {| level := IPPROTO_TCP; opt := TCP_KEEPCNT; value := 3 |} ].

Section SocketOptions.

(** The kernel's answer to a [setsockopt]. *)
Variable setsockoptInt : sockLevel -> sockOption -> Z -> option goError.

(** One [if e := unix.SetsockoptInt(...); e != nil { sysErr = e; return }]
    followed by the rest of the function passed to [c.Control]: the calls
    made and [sysErr]. *)
Definition thenSet (l : sockLevel) (o : sockOption) (v : Z)
    (rest : list sockCall * option goError) : list sockCall * option goError :=
  match setsockoptInt l o v with
  | Some e => ([{| level := l; opt := o; value := v |}], Some e)
  | None =>
      let '(calls, sysErr) := rest in
      ({| level := l; opt := o; value := v |} :: calls, sysErr)
  end.

(** [setSocketOptions(network, address, c)]. [c.Control(f)] either fails
    without calling [f] ([control] is its error) or calls [f] and returns
    nil. *)
Definition setSocketOptions (control : option goError)
  : list sockCall * option goError :=
  match control with
  | Some err => ([], Some err)
  | None =>
      thenSet SOL_SOCKET SO_REUSEADDR 1
        (thenSet IPPROTO_TCP TCP_NODELAY 1
           (thenSet SOL_SOCKET SO_KEEPALIVE 1
              (thenSet IPPROTO_TCP TCP_KEEPIDLE 30
                 (thenSet IPPROTO_TCP TCP_KEEPINTVL 10
                    (thenSet IPPROTO_TCP TCP_KEEPCNT 3 ([], None))))))
  end.

(** The kernel accepts a call. *)
Definition accepted (c : sockCall) : Prop :=
  setsockoptInt (level c) (opt c) (value c) = None.

End SocketOptions.

(** ** Configurations, interfaces and listeners used as examples *)

(** The outbound address 2001:db8::2. *)
Definition outbound2 : bytes :=
  [x20; x01; x0d; xb8; x00; x00; x00; x00;
   x00; x00; x00; x00; x00; x00; x00; x02].

(** A stand-in for [net.ParseIP] that knows three texts. *)
Definition knownIP (s : string) : netIP :=
  if String.eqb s "2001:db8::1" then Some outbound
  else if String.eqb s "2001:db8::2" then Some outbound2
  else if String.eqb s "10.0.0.1"
       then Some (v4InV6Prefix ++ [x0a; x00; x00; x01])
       else None.

(** A stand-in for [net.IP.String] on the known addresses. *)
Definition knownText (ip : bytes) : string :=
  if list_eq_dec Byte.byte_eq_dec ip outbound then "2001:db8::1"
  else if list_eq_dec Byte.byte_eq_dec ip outbound2 then "2001:db8::2"
       else "?".

Definition entry1 : ProxyEntry := {| IPv6 := "2001:db8::1"; Port := 1080 |}.
Definition entry2 : ProxyEntry := {| IPv6 := "2001:db8::2"; Port := 1081 |}.

(** A file with two proxies, and one whose second proxy repeats the port
    of the first. *)
Definition goodFile : Config :=
  {| Interface := "eth0"; Proxies := [entry1; entry2] |}.

Definition clashingFile : Config :=
  {| Interface := "eth0";
     Proxies := [entry1; {| IPv6 := "2001:db8::2"; Port := 1080 |}] |}.

Definition readsAs (cfg : Config) : bytes -> Config + goError :=
  fun _ => inl cfg.

Definition readable : string -> bytes + goError := fun _ => inl [].

(** An interface that has 2001:db8::1/64 already. *)
Definition found : string -> option goError := fun _ => None.

Definition hasFirst : string -> list string + goError :=
  fun _ => inl ["2001:db8::1/64"%string].

(** A stand-in for [strings.TrimSpace] on ASCII texts: it takes the
    white space off both ends. *)
Definition isSpace (c : Ascii.ascii) : bool :=
  match Ascii.nat_of_ascii c with
  | 9 | 10 | 11 | 12 | 13 | 32 => true
  | _ => false
  end.

Fixpoint trimLeft (s : string) : string :=
  match s with
  | EmptyString => EmptyString
  | String c rest => if isSpace c then trimLeft rest else s
  end.

Fixpoint trimRight (s : string) : string :=
  match s with
  | EmptyString => EmptyString
  | String c rest =>
      match trimRight rest with
      | EmptyString => if isSpace c then EmptyString else String c EmptyString
      | kept => String c kept
      end
  end.

Definition trimAscii (s : string) : string := trimRight (trimLeft s).

(** The line feed. *)
Definition newline : Ascii.ascii :=
  Ascii.Ascii false true false true false false false false.

Definition lineEnd : string := String newline EmptyString.

(** Commands that succeed, that are refused, and that find the address
    added meanwhile. *)
Definition addsFine : list string -> string -> string -> cmdResult :=
  fun _ _ _ => CmdOk "".

Definition notPermitted : list string -> string -> string -> cmdResult :=
  fun _ _ _ =>
    CmdFailed
      (String newline "RTNETLINK answers: Operation not permitted" ++ lineEnd)
      (Opaque "exit status 2").

Definition addedMeanwhile : list string -> string -> string -> cmdResult :=
  fun _ _ _ =>
    CmdFailed "RTNETLINK answers: File exists" (Opaque "exit status 2").

(** A port that can be bound, and what [Accept] returns: a client, an
    error, a client, the close of the listener, and a client that comes
    too late. *)
Definition bindable : string -> option goError := fun _ => None.

Definition arrivals : list acceptResult :=
  [Accepted envConnected; AcceptError false; Accepted envRefused;
   AcceptError true; Accepted envBind].

(** * Properties *)

(** ** Bytes *)

Lemma Z_of_byte_range (b : byte) : (0 <= Z_of_byte b <= 255)%Z.
Proof.
  unfold Z_of_byte. pose proof (Byte.to_N_bounded b). lia.
Qed.

Lemma Z_of_byte_of_Z (z : Z) : Z_of_byte (byte_of_Z z) = (z mod 256)%Z.
Proof.
  unfold Z_of_byte, byte_of_Z.
  assert (Hr : (0 <= z mod 256 < 256)%Z) by (apply Z.mod_pos_bound; lia).
  destruct (Byte.of_N (Z.to_N (z mod 256))) as [b|] eqn:E.
  - apply Byte.to_of_N in E. rewrite E. lia.
  - apply Byte.of_N_None_iff in E. lia.
Qed.

Lemma Z_of_byte_inj (a b : byte) : Z_of_byte a = Z_of_byte b -> a = b.
Proof.
  unfold Z_of_byte. intros H.
  assert (E : Byte.to_N a = Byte.to_N b) by lia.
  pose proof (Byte.of_to_N a) as Ha. pose proof (Byte.of_to_N b) as Hb.
  rewrite E in Ha. congruence.
Qed.

(** The two bytes [PutUint16] stores read back, high byte first, as the
    port itself. *)
Lemma putUint16_big_endian (v : Z) :
  (0 <= v < 65536)%Z ->
  (Z_of_byte (byte_of_Z (Z.shiftr v 8)) * 256 + Z_of_byte (byte_of_Z v) = v)%Z.
Proof.
  intros Hv. rewrite !Z_of_byte_of_Z, Z.shiftr_div_pow2 by lia.
  change (2 ^ 8)%Z with 256%Z.
  rewrite (Z.mod_small (v / 256) 256).
  - pose proof (Z.div_mod v 256). lia.
  - split; [apply Z.div_pos; lia | apply Z.div_lt_upper_bound; lia].
Qed.

(** [Uint16] of two bytes is the big-endian number they spell. *)
Lemma bigEndianUint16_spec (hi lo : byte) :
  bigEndianUint16 [hi; lo] = (Z_of_byte hi * 256 + Z_of_byte lo)%Z.
Proof.
  unfold bigEndianUint16. simpl nth.
  pose proof (Z_of_byte_range hi) as Hh. pose proof (Z_of_byte_range lo) as Hl.
  rewrite Z.shiftl_mul_pow2 by lia. change (2 ^ 8)%Z with 256%Z.
  assert (Hland : Z.land (Z_of_byte hi * 256) (Z_of_byte lo) = 0%Z).
  { apply Z.bits_inj'; intros n Hn. rewrite Z.land_spec, Z.bits_0.
    destruct (Z.ltb n 8) eqn:E.
    - apply Z.ltb_lt in E. change 256%Z with (2 ^ 8)%Z.
      rewrite Z.mul_pow2_bits_low by lia. reflexivity.
    - apply Z.ltb_ge in E.
      assert (Hb : Z.testbit (Z_of_byte lo) n = false).
      { destruct (Z.eq_dec (Z_of_byte lo) 0) as [->|Hne].
        - apply Z.bits_0.
        - apply Z.bits_above_log2; try lia.
          apply Z.lt_le_trans with 8%Z; [|lia].
          apply Z.log2_lt_pow2; lia. }
      rewrite Hb. apply andb_false_r. }
  rewrite Z.lor_comm, <- Z.lxor_lor by exact Hland.
  rewrite <- Z.add_nocarry_lxor by exact Hland. reflexivity.
Qed.

(** ** The reply encoding *)

Lemma To4_length (ip v4 : bytes) : To4 ip = Some v4 -> length v4 = 4.
Proof.
  unfold To4. destruct (Nat.eqb (length ip) 4) eqn:E4.
  - intros [= E]. rewrite <- E. now apply Nat.eqb_eq.
  - destruct (Nat.eqb (length ip) 16) eqn:E16; cbn [andb]; [|discriminate].
    apply Nat.eqb_eq in E16.
    destruct (isZeros (firstn 10 ip) && Byte.eqb (nth 10 ip x00) xff
              && Byte.eqb (nth 11 ip x00) xff); [|discriminate].
    intros E. assert (E' : v4 = firstn 4 (skipn 12 ip)) by congruence.
    rewrite E', length_firstn, length_skipn. lia.
Qed.

Lemma To4_None_To16 (ip : bytes) :
  To4 ip = None ->
  (length ip = 16 /\ To16 ip = Some ip) \/ (length ip <> 16 /\ To16 ip = None).
Proof.
  unfold To4, To16. destruct (Nat.eqb (length ip) 4) eqn:E4; [discriminate|].
  intros _. destruct (Nat.eqb (length ip) 16) eqn:E16.
  - left. split; [now apply Nat.eqb_eq | reflexivity].
  - right. split; [now apply Nat.eqb_neq | reflexivity].
Qed.

Ltac list_of_length l :=
  repeat match goal with
         | H : length l = S _ |- _ =>
             let b := fresh "b" in
             destruct l as [|b l]; [discriminate H | simpl in H; injection H as H]
         | H : length l = 0 |- _ =>
             destruct l; [clear H | discriminate H]
         end.

(** No bound address: the zero address in the 4-byte form. *)
Lemma sendReplyBytes_nil (rep : byte) (port : Z) :
  sendReplyBytes rep None port =
  [x05; rep; x00; x01; x00; x00; x00; x00;
   byte_of_Z (Z.shiftr port 8); byte_of_Z port].
Proof. reflexivity. Qed.

(** An IPv4-shaped bound address: its four bytes. *)
Lemma sendReplyBytes_v4 (rep : byte) (ip v4 : bytes) (port : Z) :
  To4 ip = Some v4 ->
  sendReplyBytes rep (Some ip) port =
  [x05; rep; x00; x01] ++ v4 ++ [byte_of_Z (Z.shiftr port 8); byte_of_Z port].
Proof.
  intros H. pose proof (To4_length _ _ H) as L.
  unfold sendReplyBytes. rewrite H.
  list_of_length v4. reflexivity.
Qed.

(** Any other bound address of 16 bytes: its sixteen bytes. *)
Lemma sendReplyBytes_v6 (rep : byte) (ip : bytes) (port : Z) :
  To4 ip = None -> length ip = 16 ->
  sendReplyBytes rep (Some ip) port =
  [x05; rep; x00; x04] ++ ip ++ [byte_of_Z (Z.shiftr port 8); byte_of_Z port].
Proof.
  intros H L. unfold sendReplyBytes. rewrite H.
  destruct (To4_None_To16 _ H) as [[_ ->]|[N _]]; [|contradiction].
  simpl slice_of. list_of_length ip. reflexivity.
Qed.

(** A bound address of any other length: [To16] is nil, nothing is copied
    and the 16-byte field keeps its zeros. *)
Lemma sendReplyBytes_other (rep : byte) (ip : bytes) (port : Z) :
  To4 ip = None -> length ip <> 16 ->
  sendReplyBytes rep (Some ip) port =
  [x05; rep; x00; x04] ++ repeat x00 16
    ++ [byte_of_Z (Z.shiftr port 8); byte_of_Z port].
Proof.
  intros H L. unfold sendReplyBytes. rewrite H.
  destruct (To4_None_To16 _ H) as [[N _]|[_ ->]]; [contradiction|].
  reflexivity.
Qed.

(** The second byte of every reply is its status. *)
Lemma sendReplyBytes_status (rep : byte) (ip : netIP) (port : Z) :
  nth_error (sendReplyBytes rep ip port) 1 = Some rep.
Proof.
  destruct ip as [ip|]; [|reflexivity].
  destruct (To4 ip) as [v4|] eqn:E.
  - rewrite (sendReplyBytes_v4 rep ip v4 port E). reflexivity.
  - destruct (Nat.eq_dec (length ip) 16) as [L|L].
    + rewrite (sendReplyBytes_v6 rep ip port E L). reflexivity.
    + rewrite (sendReplyBytes_other rep ip port E L). reflexivity.
Qed.

(** ** The method scan and the error chain *)

Lemma hasNoAuth_In (methods : bytes) :
  hasNoAuth methods = true <-> In authNone methods.
Proof.
  induction methods as [|m rest IH]; simpl.
  - split; [discriminate | tauto].
  - destruct (Byte.eqb m authNone) eqn:E.
    + apply Byte.byte_dec_bl in E. tauto.
    + apply Byte.eqb_false in E. rewrite IH. split; [tauto|].
      intros [H|H]; [contradiction | exact H].
Qed.

(** The error at the end of the chain matches one [Errno] at most. *)
Lemma errorsIs_unique (err : goError) (a b : Z) :
  errorsIs err a = true -> errorsIs err b = true -> a = b.
Proof.
  induction err as [code|msg|op inner IH]; simpl.
  - intros Ha Hb. apply Z.eqb_eq in Ha, Hb. congruence.
  - discriminate.
  - exact IH.
Qed.

(** ** Every session follows one of the paths *)

Lemma readFull_cases (f : field) (n : nat) (s : state) :
  (exists got, length got = n /\
     readFull f n s =
       (Some got, {| input := skipn n (input s); nwrites := nwrites s |},
        [EvRead f n (Some got)]))
  \/ readFull f n s =
       (None, {| input := []; nwrites := nwrites s |}, [EvRead f n None]).
Proof.
  unfold readFull. destruct (Nat.leb n (length (input s))) eqn:E.
  - left. exists (firstn n (input s)). split; [|reflexivity].
    apply Nat.leb_le in E. rewrite length_firstn. lia.
  - right. reflexivity.
Qed.

Lemma Z_of_byte_zero (b : byte) : Z_of_byte b = 0%Z -> b = x00.
Proof. intros H. apply Z_of_byte_inj. exact H. Qed.

Section SessionFacts.

Variable ipString : bytes -> string.
Variable itoa : Z -> string.
Variable joinHostPort : string -> string -> string.
Variable env : Env.
Variable outboundIP : bytes.

Lemma dialOutbound_path (target : string) (s : state) :
  nwrites s = 1 ->
  exists r s' t,
    dialOutbound env outboundIP target s = (r, s', t)
    /\ dialPath env outboundIP target t.
Proof.
  intros W. unfold dialOutbound. cbv zeta.
  destruct (dial env target) as [ip port|err] eqn:D;
    unfold sendReply, write, emit, bind, ret, exit; simpl; rewrite W.
  - do 3 eexists. split; [reflexivity|]. now apply dial_connected.
  - do 3 eexists. split; [reflexivity|]. now apply dial_failed.
Qed.

Lemma parseDestAddr_path (atyp : byte) (s : state) :
  nwrites s = 1 ->
  exists r s' t,
    parseDestAddr ipString env atyp s = (r, s', t)
    /\ addrPath ipString env atyp t r
    /\ (r <> None -> nwrites s' = 1).
Proof.
  intros W. unfold parseDestAddr.
  destruct (Byte.eqb atyp atypIPv4) eqn:E4.
  { apply Byte.byte_dec_bl in E4. unfold bind, ret.
    destruct (readFull_cases AddrIPv4 4 s) as [(a & L & ->)| ->].
    - do 3 eexists. split; [reflexivity|]. split; [now apply addr_v4|].
      intros _. exact W.
    - do 3 eexists. split; [reflexivity|]. split; [now apply addr_v4_short|].
      intros N. now elim N. }
  apply Byte.eqb_false in E4.
  destruct (Byte.eqb atyp atypDomain) eqn:E3.
  { apply Byte.byte_dec_bl in E3. unfold bind at 1.
    destruct (readFull_cases DomainLen 1 s) as [(dl & L & ->)| ->].
    - list_of_length dl. cbv beta iota. cbn [nth].
      destruct (Byte.eqb b x00) eqn:Z.
      + apply Byte.byte_dec_bl in Z. subst b.
        unfold sendReply, write, bind, ret, exit. simpl nwrites. rewrite W.
        do 3 eexists. split; [reflexivity|].
        split; [now apply addr_len_zero|]. intros N. now elim N.
      + apply Byte.eqb_false in Z. unfold bind, ret.
        match goal with
        | |- context [readFull Domain ?n ?st] =>
            destruct (readFull_cases Domain n st) as [(d & Ld & ->)| ->]
        end.
        * do 3 eexists. split; [reflexivity|].
          split; [now apply addr_domain|]. intros _. exact W.
        * do 3 eexists. split; [reflexivity|].
          split; [now apply addr_domain_short|]. intros N. now elim N.
    - do 3 eexists. split; [reflexivity|].
      split; [now apply addr_len_short|]. intros N. now elim N. }
  apply Byte.eqb_false in E3.
  destruct (Byte.eqb atyp atypIPv6) eqn:E6.
  { apply Byte.byte_dec_bl in E6. unfold bind, ret.
    destruct (readFull_cases AddrIPv6 16 s) as [(a & L & ->)| ->].
    - do 3 eexists. split; [reflexivity|]. split; [now apply addr_v6|].
      intros _. exact W.
    - do 3 eexists. split; [reflexivity|]. split; [now apply addr_v6_short|].
      intros N. now elim N. }
  apply Byte.eqb_false in E6.
  unfold sendReply, write, bind, ret, exit. rewrite W.
  do 3 eexists. split; [reflexivity|].
  split; [now apply addr_unsupported|]. intros N. now elim N.
Qed.

Lemma request_path (s : state) :
  nwrites s = 1 ->
  exists r s' t,
    request ipString itoa joinHostPort env outboundIP s = (r, s', t)
    /\ requestPath ipString itoa joinHostPort env outboundIP t.
Proof.
  intros W. unfold request. unfold bind at 1.
  destruct (readFull_cases RequestHdr 4 s) as [(h & L & ->)| ->];
    [|do 3 eexists; split; [reflexivity | apply req_short]].
  list_of_length h. rename b into v, b0 into cmd, b1 into rsv, b2 into atyp.
  cbv beta iota. cbn [nth].
  destruct (Byte.eqb v socks5Version) eqn:V; cbn [negb]; cbv iota.
  2:{ apply Byte.eqb_false in V. unfold exit.
      do 3 eexists. split; [reflexivity|]. rewrite app_nil_r.
      now apply req_bad_version. }
  apply Byte.byte_dec_bl in V. subst v.
  destruct (Byte.eqb cmd cmdConnect) eqn:C; cbn [negb]; cbv iota.
  2:{ apply Byte.eqb_false in C.
      unfold sendReply, write, bind, ret, exit. simpl nwrites. rewrite W.
      do 3 eexists. split; [reflexivity|]. simpl.
      now apply req_bad_command. }
  apply Byte.byte_dec_bl in C. subst cmd.
  set (s1 := {| input := skipn 4 (input s); nwrites := nwrites s |}).
  assert (W1 : nwrites s1 = 1) by exact W.
  destruct (parseDestAddr_path atyp s1 W1) as (r & s2 & t & E & P & W2).
  unfold bind at 1. rewrite E.
  destruct r as [host|].
  2:{ do 3 eexists. split; [reflexivity|]. simpl. now apply req_addr_stop. }
  specialize (W2 ltac:(discriminate)).
  unfold bind at 1.
  destruct (readFull_cases DestPort 2 s2) as [(pb & Lp & ->)| ->].
  2:{ do 3 eexists. split; [reflexivity|]. simpl.
      now apply req_port_short with (host := host). }
  list_of_length pb. rename b into hi, b0 into lo.
  rewrite bigEndianUint16_spec.
  match goal with
  | |- context [dialOutbound env outboundIP ?tg ?st] =>
      destruct (dialOutbound_path tg st) as (r3 & s3 & d & E3 & P3);
      [exact W2 | rewrite E3]
  end.
  do 3 eexists. split; [reflexivity|]. simpl.
  now apply req_dial with (host := host).
Qed.

Lemma session_path :
  exists r s' t,
    session ipString itoa joinHostPort env outboundIP (initial env) = (r, s', t)
    /\ sessionPath ipString itoa joinHostPort env outboundIP t.
Proof.
  unfold session. unfold bind at 1. unfold emit at 1. unfold bind at 1.
  destruct (readFull_cases GreetingHdr 2 (initial env)) as [(h & L & ->)| ->];
    [|do 3 eexists; split; [reflexivity | apply greeting_short]].
  list_of_length h. rename b into v, b0 into n. cbv beta iota. cbn [nth].
  destruct (Byte.eqb v socks5Version) eqn:V; cbn [negb]; cbv iota.
  2:{ apply Byte.eqb_false in V. unfold exit.
      do 3 eexists. split; [reflexivity|]. simpl.
      now apply greeting_bad_version. }
  apply Byte.byte_dec_bl in V. subst v.
  pose proof (Z_of_byte_range n) as R.
  destruct (Z.eqb (Z_of_byte n) 0) eqn:Z0; cbn [orb]; cbv iota.
  { apply Z.eqb_eq, Z_of_byte_zero in Z0. subst n. unfold exit.
    do 3 eexists. split; [reflexivity|]. simpl. apply greeting_no_methods. }
  assert (N0 : n <> x00).
  { intros ->. apply Z.eqb_neq in Z0. now apply Z0. }
  destruct (Z.ltb 255 (Z_of_byte n)) eqn:Z255; [apply Z.ltb_lt in Z255; lia|].
  cbv iota. unfold bind at 1.
  match goal with
  | |- context [readFull Methods ?k ?st] =>
      destruct (readFull_cases Methods k st) as [(ms & Lm & ->)| ->]
  end.
  2:{ do 3 eexists. split; [reflexivity|]. simpl. now apply methods_short. }
  destruct (hasNoAuth ms) eqn:A; cbn [negb]; cbv iota.
  2:{ unfold write, bind, exit. cbn [nwrites input].
      change (nwrites (initial env)) with 0.
      do 3 eexists. split; [reflexivity|]. simpl.
      now apply methods_rejected. }
  unfold bind at 1. unfold write at 1. cbv beta iota zeta.
  change (nwrites (initial env)) with 0. cbn [nwrites input].
  destruct (writeOk env 0) eqn:W0; cbn [negb]; cbv iota.
  2:{ unfold exit. do 3 eexists. split; [reflexivity|]. simpl.
      now apply selection_unsent. }
  match goal with
  | |- context [request _ _ _ _ _ ?st] =>
      destruct (request_path st) as (r & s' & t & E & P);
      [reflexivity | rewrite E]
  end.
  do 3 eexists. split; [reflexivity|].
  change (sessionPath ipString itoa joinHostPort env outboundIP
            ([EvSetDeadline Client (Some 10%Z);
              EvRead GreetingHdr 2 (Some [socks5Version; n]);
              EvRead Methods (Z.to_nat (Z_of_byte n)) (Some ms);
              EvWrite [socks5Version; authNone] true] ++ t)).
  now apply selection_sent.
Qed.

(** The trace of [handleConnection] is a path of the session followed by
    the close of the client. *)
Lemma handleConnection_path :
  exists t,
    sessionPath ipString itoa joinHostPort env outboundIP t
    /\ handleConnection ipString itoa joinHostPort env outboundIP
       = t ++ [EvClose Client].
Proof.
  destruct session_path as (r & s' & t & E & P).
  exists t. split; [exact P|]. unfold handleConnection. now rewrite E.
Qed.

End SessionFacts.

(** ** The handshake *)

Ltac invert_paths :=
  repeat match goal with
         | P : sessionPath _ _ _ _ _ _ |- _ => inversion P; subst; clear P
         | P : requestPath _ _ _ _ _ _ |- _ => inversion P; subst; clear P
         | P : addrPath _ _ _ _ _ |- _ => inversion P; subst; clear P
         | P : dialPath _ _ _ _ |- _ => inversion P; subst; clear P
         end.

(** All the ways to cut a trace given by its elements around one event. *)
Ltac split_trace H :=
  match type of H with
  | [] = ?pre ++ _ :: _ => destruct pre; discriminate H
  | _ :: _ = ?pre ++ _ :: _ =>
      let e := fresh "e" in
      destruct pre as [|e pre]; cbn [app] in H;
      [ let He := fresh "He" in
        let Hp := fresh "Hp" in
        injection H as He Hp; inversion He; subst; try clear He
      | let E := fresh "E" in injection H as E H; split_trace H ]
  end.

Ltac session_cases H :=
  match type of H with
  | handleConnection ?f ?g ?j ?e ?ip = _ =>
      let t := fresh "t" in
      let P := fresh "P" in
      let E := fresh "E" in
      destruct (handleConnection_path f g j e ip) as (t & P & E);
      rewrite E in H; invert_paths; cbn [app] in H, E
  end.

Ltac absurd_case :=
  solve [ congruence
        | exfalso;
          unfold socks5Version, cmdConnect, atypIPv4, atypDomain, atypIPv6,
            authNone in *;
          congruence ].

Ltac no_such_event :=
  cbn [In]; intros I;
  repeat match type of I with
         | _ \/ _ => destruct I as [I|I]; [discriminate I|]
         end;
  solve [discriminate I | contradiction I].

(** The encoding of [sendReply] has the wire shape, for every status,
    bound address and 16-bit port. *)
Lemma sendReplyBytes_shape (rep : byte) (bound : netIP) (port : Z) :
  (0 <= port < 65536)%Z ->
  wireShape rep bound port (sendReplyBytes rep bound port).
Proof.
  intros R. pose proof (putUint16_big_endian port R) as B.
  unfold wireShape. destruct bound as [ip|].
  - destruct (To4 ip) as [v4|] eqn:E.
    + exists x01, v4, (byte_of_Z (Z.shiftr port 8)), (byte_of_Z port).
      split; [now apply sendReplyBytes_v4|]. split; [exact B|].
      split; [reflexivity|]. split; [reflexivity|]. now apply To4_length with ip.
    + destruct (Nat.eq_dec (length ip) 16) as [L|L].
      * exists x04, ip, (byte_of_Z (Z.shiftr port 8)), (byte_of_Z port).
        split; [now apply sendReplyBytes_v6|]. split; [exact B|].
        split; [reflexivity|]. split; [exact L|]. split; [reflexivity|].
        intros L'. contradiction.
      * exists x04, (repeat x00 16), (byte_of_Z (Z.shiftr port 8)),
          (byte_of_Z port).
        split; [now apply sendReplyBytes_other|]. split; [exact B|].
        split; [reflexivity|]. split; [reflexivity|].
        split; [intros L'; contradiction | reflexivity].
  - exists x01, [x00; x00; x00; x00], (byte_of_Z (Z.shiftr port 8)),
      (byte_of_Z port).
    split; [apply sendReplyBytes_nil|]. split; [exact B|]. tauto.
Qed.

Lemma uint16_range (z : Z) : (0 <= uint16 z < 65536)%Z.
Proof. unfold uint16. apply Z.mod_pos_bound. lia. Qed.

(** A failed dial is never answered with success. *)
Lemma dialFailureRep_not_success (err : goError) :
  dialFailureRep err <> repSuccess.
Proof.
  unfold dialFailureRep.
  destruct (errorsIs err ECONNREFUSED); [discriminate|].
  destruct (errorsIs err ENETUNREACH); [discriminate|].
  destruct (errorsIs err EHOSTUNREACH); discriminate.
Qed.

(** Matches the events a path lists against the events a statement asks
    for. *)
Ltac follow_events :=
  repeat first
    [ reflexivity
    | assumption
    | congruence
    | match goal with
      | |- _ /\ _ => split
      | |- forall _, _ => intro
      | H : Some _ = Some _ |- _ => injection H as H; subst
      | |- portThenDial _ _ _ _ _ => unfold portThenDial
      | |- exists _, _ => eexists
      end ].

Section Handshake.

Variable ipString : bytes -> string.
Variable itoa : Z -> string.
Variable joinHostPort : string -> string -> string.
Variable env : Env.
Variable outboundIP : bytes.

Local Abbreviation run :=
  (handleConnection ipString itoa joinHostPort env outboundIP).

(** C1. Whenever the dial fails, the very next events are the write of the
    ten-byte reply whose status is chosen by [dialFailureRep], then the
    close of the client; and that status is 5 for connection refused, 3
    for network unreachable, 4 for host unreachable and 1 for any other
    error, name-resolution failures included. *)
Theorem dial_failure_reply (pre post : list event) (localIP : bytes)
    (target : string) (err : goError) :
  run = pre ++ EvDial localIP target (DialErr err) :: post ->
  post = [EvWrite (nullReply (dialFailureRep err)) (writeOk env 1);
          EvClose Client]
  /\ (errorsIs err ECONNREFUSED = true -> dialFailureRep err = x05)
  /\ (errorsIs err ENETUNREACH = true -> dialFailureRep err = x03)
  /\ (errorsIs err EHOSTUNREACH = true -> dialFailureRep err = x04)
  /\ (errorsIs err ECONNREFUSED = false ->
      errorsIs err ENETUNREACH = false ->
      errorsIs err EHOSTUNREACH = false -> dialFailureRep err = x01).
Proof.
  intros H. split.
  - session_cases H; split_trace H; try absurd_case; reflexivity.
  - unfold dialFailureRep. repeat split.
    + intros ->. reflexivity.
    + intros E. destruct (errorsIs err ECONNREFUSED) eqn:R.
      * pose proof (errorsIs_unique _ _ _ R E). discriminate.
      * now rewrite E.
    + intros E. destruct (errorsIs err ECONNREFUSED) eqn:R.
      * pose proof (errorsIs_unique _ _ _ R E). discriminate.
      * destruct (errorsIs err ENETUNREACH) eqn:N.
        -- pose proof (errorsIs_unique _ _ _ N E). discriminate.
        -- now rewrite E.
    + intros -> -> ->. reflexivity.
Qed.

(** C4. A request with version 5 whose command is not CONNECT is answered
    with the reply of status 7 and the close of the client, and the
    session performs no dial at all. *)
Theorem command_not_supported (pre post : list event) (cmd rsv atyp : byte) :
  run = pre ++ EvRead RequestHdr 4 (Some [x05; cmd; rsv; atyp]) :: post ->
  cmd <> cmdConnect ->
  post = [EvWrite (nullReply x07) (writeOk env 1); EvClose Client]
  /\ (forall localIP target res, ~ In (EvDial localIP target res) run).
Proof.
  intros H C. session_cases H; split_trace H; try absurd_case.
  split; [reflexivity|]. intros localIP target res. rewrite E. no_such_event.
Qed.

(** C7. A write whose status byte is not success is followed by the close
    of the client and by nothing else, and the session holds no relay. *)
Theorem failure_reply_ends_session (pre post : list event) (data : bytes)
    (ok : bool) :
  run = pre ++ EvWrite data ok :: post ->
  nonSuccess data ->
  post = [EvClose Client] /\ ~ In EvRelay run.
Proof.
  intros H (st & N & S).
  session_cases H; split_trace H; try absurd_case;
    try (rewrite sendReplyBytes_status in N);
    try (cbn in N; injection N as N; now elim S).
  all: split; [reflexivity | rewrite E; no_such_event].
Qed.

(** C10. After a successful dial the session writes the success reply with
    the address and port the dialer bound, and whatever the result of that
    write it clears the deadlines and enters the relay. *)
Theorem success_reply_unchecked (pre post : list event) (localIP : bytes)
    (target : string) (ip : netIP) (port : Z) :
  run = pre ++ EvDial localIP target (DialOk ip port) :: post ->
  post = [EvWrite (sendReplyBytes repSuccess ip (uint16 port)) (writeOk env 1);
          EvSetDeadline Client None; EvSetDeadline Remote None;
          EvRelay; EvClose Remote; EvClose Client]
  /\ In EvRelay run.
Proof.
  intros H. session_cases H; split_trace H; try absurd_case.
  all: split; [reflexivity | rewrite E; cbn [In]; tauto].
Qed.

(** C6. What follows the read of malformed input (a short or failed read,
    a version other than 5, a method count of zero) is the close of the
    client alone, and nothing was written but, past the greeting, the
    method selection; what follows the read of a well-formed request the
    server cannot serve is the reply with the matching status, then the
    close. *)
Theorem malformed_dropped_invalid_answered (pre post : list event)
    (e : event) (v : option byte) :
  run = pre ++ e :: post ->
  verdict e v ->
  post = match v with
         | None => [EvClose Client]
         | Some rep => [EvWrite (nullReply rep) (writeOk env 1); EvClose Client]
         end
  /\ writes pre = if inGreeting e then [] else [EvWrite [x05; x00] true].
Proof.
  intros H V.
  session_cases H; split_trace H; inversion V; subst; try absurd_case.
  all: split; reflexivity.
Qed.

(** C2. The bytes [sendReply] writes have the wire shape for every
    status, bound address and 16-bit port: version 5, the status, the
    reserved zero, the address type, the address (4 bytes with type 1 for
    an IPv4-shaped bound address, 16 bytes with type 4 for any other,
    the zero address with type 1 when there is none) and the port, high
    byte first. Every message a session writes is a method selection, or
    the reply of a failure, with the status of that failure, no bound
    address and port zero, hence the ten-byte message with the zero
    address, or the success reply with the address and port the dial of
    this session bound. *)
Theorem reply_wire_shape :
  (forall rep bound port,
     (0 <= port < 65536)%Z ->
     wireShape rep bound port (sendReplyBytes rep bound port))
  /\ (forall data ok,
        In (EvWrite data ok) run ->
        data = [x05; x00] \/ data = [x05; xff]
        \/ (exists rep,
              (rep = repCommandNotSupported \/ rep = repGeneralFailure
               \/ rep = repAddrTypeNotSupported
               \/ exists target err,
                    In (EvDial outboundIP target (DialErr err)) run
                    /\ rep = dialFailureRep err)
              /\ rep <> repSuccess
              /\ data = sendReplyBytes rep None 0
              /\ data = nullReply rep
              /\ length data = 10)
        \/ (exists target ip port,
              In (EvDial outboundIP target (DialOk ip port)) run
              /\ data = sendReplyBytes repSuccess ip (uint16 port)
              /\ wireShape repSuccess ip (uint16 port) data)).
Proof.
  split; [exact sendReplyBytes_shape|].
  intros data ok I. apply in_split in I. destruct I as (pre & post & H).
  session_cases H; split_trace H; try absurd_case; try tauto.
  all: right; right.
  all: try (right; do 3 eexists;
            split; [rewrite E; cbn [In]; eauto 12|];
            split; [reflexivity|];
            apply sendReplyBytes_shape; apply uint16_range).
  all: left.
  all: match goal with
       | |- exists r, _ /\ _ /\ sendReplyBytes ?rep None 0 = _ /\ _ =>
           exists rep
       end.
  all: split;
    [ first [ left; reflexivity
            | right; left; reflexivity
            | right; right; left; reflexivity
            | right; right; right; do 2 eexists;
              split; [rewrite E; cbn [In]; eauto 12 | reflexivity] ]|].
  all: split; [first [discriminate | apply dialFailureRep_not_success]|].
  all: repeat split; reflexivity.
Qed.

(** C3, as the code has it. After a well-formed greeting that offers
    NO AUTH the server writes the selection 05 00; when that write
    succeeds its next step is the read of the request header, and when it
    fails the session closes. After a well-formed greeting without
    NO AUTH the server writes 05 FF and closes, reading nothing more. *)
Theorem method_selection (n : byte) (methods : bytes) (post : list event) :
  run = greetingRead n methods ++ post ->
  (In authNone methods ->
     exists post1,
       post = EvWrite [x05; x00] (writeOk env 0) :: post1
       /\ (writeOk env 0 = true ->
           exists r post2, post1 = EvRead RequestHdr 4 r :: post2)
       /\ (writeOk env 0 = false -> post1 = [EvClose Client]))
  /\ (~ In authNone methods ->
        post = [EvWrite [x05; xff] (writeOk env 0); EvClose Client]).
Proof.
  intros H. unfold greetingRead in H. cbn [app] in H.
  session_cases H; inversion H; subst; clear H.
  all: try match goal with
           | A : hasNoAuth _ = true |- _ => apply hasNoAuth_In in A
           | A : hasNoAuth ?m = false |- _ =>
               assert (~ In authNone m)
                 by (rewrite <- hasNoAuth_In; congruence);
               clear A
           end.
  all: split; intros I; try contradiction; try reflexivity.
  all: eexists; split;
    [ match goal with W : writeOk env 0 = _ |- _ => rewrite W end; reflexivity
    | split; intros W'; try congruence; try reflexivity; eauto ].
Qed.

(** C5. After a CONNECT request header the address type decides what is
    read: type 1 four address bytes, type 3 one length byte and then as
    many name bytes (a zero length is answered with status 1), type 4
    sixteen address bytes, and any other type is answered with status 8;
    an accepted address is followed by the read of the two port bytes,
    and the dial goes to the port they spell high byte first. *)
Theorem destination_parsing (pre post : list event) (rsv atyp : byte) :
  run = pre ++ EvRead RequestHdr 4 (Some [x05; x01; rsv; atyp]) :: post ->
  (atyp = x01 ->
     exists r post1,
       post = EvRead AddrIPv4 4 r :: post1
       /\ (r = None -> post1 = [EvClose Client])
       /\ (forall a, r = Some a ->
             length a = 4
             /\ portThenDial joinHostPort itoa outboundIP (ipString a) post1))
  /\ (atyp = x03 ->
        exists r post1,
          post = EvRead DomainLen 1 r :: post1
          /\ (r = None -> post1 = [EvClose Client])
          /\ (r = Some [x00] ->
                post1 = [EvWrite (nullReply x01) (writeOk env 1);
                         EvClose Client])
          /\ (forall dl, r = Some dl -> dl <> [x00] ->
                exists l r2 post2,
                  dl = [l]
                  /\ post1 = EvRead Domain (Z.to_nat (Z_of_byte l)) r2 :: post2
                  /\ (r2 = None -> post2 = [EvClose Client])
                  /\ (forall d, r2 = Some d ->
                        length d = Z.to_nat (Z_of_byte l)
                        /\ portThenDial joinHostPort itoa outboundIP
                             (string_of_list_byte d) post2)))
  /\ (atyp = x04 ->
        exists r post1,
          post = EvRead AddrIPv6 16 r :: post1
          /\ (r = None -> post1 = [EvClose Client])
          /\ (forall a, r = Some a ->
                length a = 16
                /\ portThenDial joinHostPort itoa outboundIP (ipString a) post1))
  /\ (atyp <> x01 -> atyp <> x03 -> atyp <> x04 ->
        post = [EvWrite (nullReply x08) (writeOk env 1); EvClose Client]).
Proof.
  intros H.
  session_cases H; split_trace H; try absurd_case.
  all: repeat match goal with |- _ /\ _ => split end.
  all: intros; try absurd_case; try reflexivity.
  all: follow_events.
Qed.

End Handshake.

(** ** The handshake theorems at the example sessions *)

Lemma dial_failure_reply_refused :
  handleConnection showIP showPort joinColon envRefused outbound
  = (greeted true
       ++ [EvRead RequestHdr 4 (Some [x05; x01; x00; x01]);
           EvRead AddrIPv4 4 (Some [x7f; x00; x00; x01]);
           EvRead DestPort 2 (Some [x00; x50])])
    ++ EvDial outbound (joinColon (showIP [x7f; x00; x00; x01]) "80")
         (DialErr refused)
    :: [EvWrite (nullReply x05) true; EvClose Client]
  /\ dialFailureRep refused = x05.
Proof.
  split; [reflexivity|].
  apply (dial_failure_reply showIP showPort joinColon envRefused outbound
           (greeted true
              ++ [EvRead RequestHdr 4 (Some [x05; x01; x00; x01]);
                  EvRead AddrIPv4 4 (Some [x7f; x00; x00; x01]);
                  EvRead DestPort 2 (Some [x00; x50])])
           [EvWrite (nullReply x05) true; EvClose Client]
           outbound (joinColon (showIP [x7f; x00; x00; x01]) "80") refused).
  - reflexivity.
  - reflexivity.
Defined.

Lemma reply_wire_shape_connected :
  wireShape x05 None 0 (sendReplyBytes x05 None 0)
  /\ In (EvWrite ([x05; x00; x00; x04] ++ outbound ++ [x9c; x40]) true)
        (handleConnection showIP showPort joinColon envConnected outbound)
  /\ (([x05; x00; x00; x04] ++ outbound ++ [x9c; x40]) = [x05; x00]
      \/ ([x05; x00; x00; x04] ++ outbound ++ [x9c; x40]) = [x05; xff]
      \/ (exists rep,
            (rep = repCommandNotSupported \/ rep = repGeneralFailure
             \/ rep = repAddrTypeNotSupported
             \/ exists target err,
                  In (EvDial outbound target (DialErr err))
                     (handleConnection showIP showPort joinColon envConnected
                        outbound)
                  /\ rep = dialFailureRep err)
            /\ rep <> repSuccess
            /\ ([x05; x00; x00; x04] ++ outbound ++ [x9c; x40])
               = sendReplyBytes rep None 0
            /\ ([x05; x00; x00; x04] ++ outbound ++ [x9c; x40]) = nullReply rep
            /\ length ([x05; x00; x00; x04] ++ outbound ++ [x9c; x40]) = 10)
      \/ (exists target ip port,
            In (EvDial outbound target (DialOk ip port))
               (handleConnection showIP showPort joinColon envConnected
                  outbound)
            /\ ([x05; x00; x00; x04] ++ outbound ++ [x9c; x40])
               = sendReplyBytes repSuccess ip (uint16 port)
            /\ wireShape repSuccess ip (uint16 port)
                 ([x05; x00; x00; x04] ++ outbound ++ [x9c; x40]))).
Proof.
  assert (I : In (EvWrite ([x05; x00; x00; x04] ++ outbound ++ [x9c; x40]) true)
                (handleConnection showIP showPort joinColon envConnected outbound)).
  { vm_compute. tauto. }
  destruct (reply_wire_shape showIP showPort joinColon envConnected outbound)
    as [A B].
  split; [apply A; lia|]. split; [exact I|]. exact (B _ _ I).
Defined.

Lemma command_not_supported_bind :
  handleConnection showIP showPort joinColon envBind outbound
  = greeted true
    ++ EvRead RequestHdr 4 (Some [x05; x02; x00; x01])
    :: [EvWrite (nullReply x07) true; EvClose Client]
  /\ x02 <> cmdConnect
  /\ forall localIP target res,
       ~ In (EvDial localIP target res)
            (handleConnection showIP showPort joinColon envBind outbound).
Proof.
  split; [reflexivity|]. split; [discriminate|].
  apply (command_not_supported showIP showPort joinColon envBind outbound
           (greeted true) [EvWrite (nullReply x07) true; EvClose Client]
           x02 x00 x01).
  - reflexivity.
  - discriminate.
Defined.

Lemma destination_parsing_by_name :
  handleConnection showIP showPort joinColon envConnected outbound
  = greeted true
    ++ EvRead RequestHdr 4 (Some [x05; x01; x00; x03])
    :: skipn 5 (handleConnection showIP showPort joinColon envConnected outbound)
  /\ exists r post1,
       skipn 5 (handleConnection showIP showPort joinColon envConnected outbound)
       = EvRead DomainLen 1 r :: post1.
Proof.
  split; [reflexivity|].
  destruct (destination_parsing showIP showPort joinColon envConnected outbound
              (greeted true)
              (skipn 5 (handleConnection showIP showPort joinColon
                          envConnected outbound))
              x00 x03 eq_refl) as (_ & D & _).
  destruct (D eq_refl) as (r & post1 & E & _).
  exists r, post1. exact E.
Defined.

Lemma malformed_dropped_invalid_answered_examples :
  (handleConnection showIP showPort joinColon envVersion4 outbound
   = [EvSetDeadline Client (Some 10%Z)]
     ++ EvRead GreetingHdr 2 (Some [x04; x01]) :: [EvClose Client]
   /\ verdict (EvRead GreetingHdr 2 (Some [x04; x01])) None
   /\ writes [EvSetDeadline Client (Some 10%Z)] = [])
  /\ (handleConnection showIP showPort joinColon envEmptyName outbound
      = (greeted true ++ [EvRead RequestHdr 4 (Some [x05; x01; x00; x03])])
        ++ EvRead DomainLen 1 (Some [x00])
        :: [EvWrite (nullReply x01) true; EvClose Client]
      /\ verdict (EvRead DomainLen 1 (Some [x00])) (Some repGeneralFailure)
      /\ writes (greeted true
                   ++ [EvRead RequestHdr 4 (Some [x05; x01; x00; x03])])
         = [EvWrite [x05; x00] true]).
Proof.
  assert (V4 : verdict (EvRead GreetingHdr 2 (Some [x04; x01])) None)
    by (apply greeting_version; discriminate).
  split.
  - split; [reflexivity|]. split; [exact V4|].
    exact (proj2 (malformed_dropped_invalid_answered showIP showPort joinColon
                    envVersion4 outbound [EvSetDeadline Client (Some 10%Z)]
                    [EvClose Client] _ _ eq_refl V4)).
  - split; [reflexivity|]. split; [exact empty_name|].
    exact (proj2 (malformed_dropped_invalid_answered showIP showPort joinColon
                    envEmptyName outbound
                    (greeted true
                       ++ [EvRead RequestHdr 4 (Some [x05; x01; x00; x03])])
                    [EvWrite (nullReply x01) true; EvClose Client] _ _
                    eq_refl empty_name)).
Defined.

Lemma failure_reply_ends_session_refused :
  handleConnection showIP showPort joinColon envRefused outbound
  = firstn 8 (handleConnection showIP showPort joinColon envRefused outbound)
    ++ EvWrite (nullReply x05) true :: [EvClose Client]
  /\ nonSuccess (nullReply x05)
  /\ ~ In EvRelay (handleConnection showIP showPort joinColon envRefused outbound).
Proof.
  assert (N : nonSuccess (nullReply x05)).
  { exists x05. split; [reflexivity | discriminate]. }
  split; [reflexivity|]. split; [exact N|].
  apply (failure_reply_ends_session showIP showPort joinColon envRefused
           outbound
           (firstn 8 (handleConnection showIP showPort joinColon envRefused
                        outbound))
           [EvClose Client] (nullReply x05) true eq_refl N).
Defined.

Lemma success_reply_unchecked_lost :
  writeOk envReplyLost 1 = false
  /\ In EvRelay (handleConnection showIP showPort joinColon envReplyLost outbound).
Proof.
  split; [reflexivity|].
  apply (success_reply_unchecked showIP showPort joinColon envReplyLost
           outbound
           (firstn 7 (handleConnection showIP showPort joinColon envReplyLost
                        outbound))
           (skipn 8 (handleConnection showIP showPort joinColon envReplyLost
                       outbound))
           outbound (joinColon (showIP [x7f; x00; x00; x01]) "80")
           (Some outbound) 40000).
  reflexivity.
Defined.

Lemma method_selection_lost :
  handleConnection showIP showPort joinColon envSelectionLost outbound
  = greetingRead x01 [x00] ++ [EvWrite [x05; x00] false; EvClose Client]
  /\ In authNone [x00]
  /\ exists post1,
       [EvWrite [x05; x00] false; EvClose Client]
       = EvWrite [x05; x00] (writeOk envSelectionLost 0) :: post1
       /\ (writeOk envSelectionLost 0 = true ->
           exists r post2, post1 = EvRead RequestHdr 4 r :: post2)
       /\ (writeOk envSelectionLost 0 = false -> post1 = [EvClose Client]).
Proof.
  split; [reflexivity|]. split; [left; reflexivity|].
  exact (proj1 (method_selection showIP showPort joinColon envSelectionLost
                  outbound x01 [x00]
                  [EvWrite [x05; x00] false; EvClose Client] eq_refl)
               (or_introl eq_refl)).
Defined.

(** C3 as the specification words it fails when the selection cannot be
    written: NO AUTH is offered, and the session closes without reading
    the request. *)
Lemma greeting_as_specified_fails :
  ~ greetingAsSpecified
      (handleConnection showIP showPort joinColon envSelectionLost outbound).
Proof.
  intros C.
  destruct (C x01 [x00] [EvWrite [x05; x00] false; EvClose Client] eq_refl)
    as [A _].
  destruct (A (or_introl eq_refl)) as (ok & r & post1 & E).
  discriminate E.
Defined.

(** ** The relay *)

Lemma actionsOf_app (d : direction) (l1 l2 : list relayEvent) :
  actionsOf d (l1 ++ l2) = actionsOf d l1 ++ actionsOf d l2.
Proof.
  induction l1 as [|[d' a|] l1 IH]; simpl; [reflexivity| |exact IH].
  destruct (direction_eqb d d'); simpl; now rewrite IH.
Qed.

Lemma actionsOf_same (d : direction) (acts : list action) :
  actionsOf d (map (Act d) acts) = acts.
Proof.
  induction acts as [|a acts IH]; simpl; [reflexivity|].
  destruct d; simpl; now rewrite IH.
Qed.

Lemma actionsOf_other (d d' : direction) (acts : list action) :
  direction_eqb d d' = false -> actionsOf d (map (Act d') acts) = [].
Proof.
  intros N. induction acts as [|a acts IH]; simpl; [reflexivity|].
  now rewrite N.
Qed.

Lemma acquired_app (l1 l2 : list action) :
  acquired (l1 ++ l2) = acquired l1 ++ acquired l2.
Proof.
  induction l1 as [|a l1 IH]; simpl; [reflexivity|].
  destruct a; simpl; now rewrite IH.
Qed.

Lemma released_app (l1 l2 : list action) :
  released (l1 ++ l2) = released l1 ++ released l2.
Proof.
  induction l1 as [|a l1 IH]; simpl; [reflexivity|].
  destruct a; simpl; now rewrite IH.
Qed.

(** The copy loop neither acquires nor releases a buffer, however it
    ends. *)
Lemma copyEvents_no_buffer (stream : list copyStep) :
  acquired (copyEvents stream) = [] /\ released (copyEvents stream) = [].
Proof.
  induction stream as [|[data [|]|] rest IH]; simpl; auto.
Qed.

Lemma halfClose_no_buffer (dst0 src0 : netConn) :
  acquired (halfClose dst0 src0) = [] /\ released (halfClose dst0 src0) = [].
Proof.
  unfold halfClose. destruct (isTCP dst0), (isTCP src0); simpl; auto.
Qed.

(** A prefix of the copy loop's actions holds no [Get] and no [Put]. *)
Lemma copied_no_buffer (copied rest : list action) (stream : list copyStep) :
  copied ++ rest = copyEvents stream ->
  acquired copied = [] /\ released copied = [].
Proof.
  intros E. destruct (copyEvents_no_buffer stream) as [A R].
  rewrite <- E, acquired_app in A. rewrite <- E, released_app in R.
  apply app_eq_nil in A, R. tauto.
Qed.

(** *** One step of a goroutine *)

Lemma taskStep_None (k : nat) (t : task) (p : pool) (n : nat) :
  taskStep k t p n = None -> at_pc t = Finished.
Proof.
  unfold taskStep. destruct (at_pc t); try discriminate; [| |reflexivity].
  - destruct (poolGet k p). discriminate.
  - destruct (todo t) as [|[data [|]|] rest]; discriminate.
Qed.

Lemma taskStep_inv (dst0 src0 : netConn) (stream : list copyStep)
    (k : nat) (t t' : task) (p p' : pool) (n n' : nat)
    (acts new : list action) :
  taskInv dst0 src0 stream t acts ->
  taskStep k t p n = Some (t', p', n', new) ->
  taskInv dst0 src0 stream t' (acts ++ new).
Proof.
  intros (D & S & I) T. unfold taskStep in T. unfold taskInv.
  destruct (at_pc t) eqn:PC.
  - destruct (poolGet k p) as [b q]. injection T as <- <- <- <-.
    destruct I as [-> I]. simpl. repeat split; try assumption.
    exists []. split; [reflexivity|]. simpl. now rewrite I.
  - destruct I as (copied & -> & I).
    destruct (todo t) as [|[data [|]|] rest] eqn:TD;
      injection T as <- <- <- <-; simpl; repeat split; try assumption.
    + simpl in I. now rewrite <- I.
    + exists (copied ++ [Copied data]). split; [reflexivity|].
      rewrite <- app_assoc. exact I.
    + simpl in I. now rewrite <- I.
    + simpl in I. now rewrite <- I.
  - injection T as <- <- <- <-. simpl. rewrite D. repeat split; try assumption.
    now rewrite I.
  - injection T as <- <- <- <-. simpl. rewrite S. repeat split; try assumption.
    rewrite I. unfold halfClose. simpl. now rewrite <- app_assoc.
  - injection T as <- <- <- <-. simpl. repeat split; try assumption.
    exists bufp. rewrite I. simpl. now rewrite <- app_assoc.
  - injection T as <- <- <- <-. simpl. repeat split; try assumption.
    destruct I as (b & ->). exists b. simpl.
    rewrite <- !app_assoc. reflexivity.
  - discriminate.
Qed.

Lemma taskStep_wg (k : nat) (t t' : task) (p p' : pool) (n n' c : nat)
    (new : list action) :
  n = pending t + c ->
  taskStep k t p n = Some (t', p', n', new) ->
  n' = pending t' + c.
Proof.
  intros N T. unfold taskStep in T. unfold pending in *.
  destruct (at_pc t) eqn:PC.
  - destruct (poolGet k p). injection T as <- <- <- <-. exact N.
  - destruct (todo t) as [|[data [|]|] rest];
      injection T as <- <- <- <-; exact N.
  - injection T as <- <- <- <-. exact N.
  - injection T as <- <- <- <-. exact N.
  - injection T as <- <- <- <-. exact N.
  - injection T as <- <- <- <-. simpl. subst n. reflexivity.
  - discriminate.
Qed.

Lemma taskStep_no_return (k : nat) (t t' : task) (p p' : pool) (n n' : nat)
    (new : list action) (d : direction) :
  taskStep k t p n = Some (t', p', n', new) ->
  ~ In Returned (map (Act d) new).
Proof.
  intros _ I. apply in_map_iff in I. destruct I as (a & E & _). discriminate.
Qed.

(** *** The pool under one step of a goroutine *)

Lemma remove_nth_perm (l : list buffer) (k : nat) (b : buffer) :
  nth_error l k = Some b -> Permutation (b :: remove_nth k l) l.
Proof.
  revert k. induction l as [|x l IH]; intros [|k] E; simpl in *;
    try discriminate.
  - injection E as ->. reflexivity.
  - rewrite perm_swap. constructor. now apply IH.
Qed.

Lemma taskStep_owned (k : nat) (t t' : task) (p p' : pool) (n n' : nat)
    (new : list action) :
  taskStep k t p n = Some (t', p', n', new) ->
  (forall b, In b (acquired new) -> In b (held t'))
  /\ ((Permutation (held t' ++ free p') (held t ++ free p)
       /\ fresh p' = fresh p)
      \/ (Permutation (held t' ++ free p') (fresh p :: held t ++ free p)
          /\ fresh p' = S (fresh p))).
Proof.
  intros T. unfold taskStep in T. unfold held.
  destruct (at_pc t) eqn:PC.
  - unfold poolGet in T. destruct (nth_error (free p) k) as [b|] eqn:E;
      injection T as <- <- <- <-; simpl.
    + split; [intros x [->|[]]; now left|]. left.
      split; [now apply remove_nth_perm | reflexivity].
    + split; [intros x [->|[]]; now left|]. right.
      split; reflexivity.
  - destruct (todo t) as [|[data [|]|] rest];
      injection T as <- <- <- <-; simpl; (split; [intros x []|]);
      left; split; reflexivity.
  - injection T as <- <- <- <-. simpl.
    split; [destruct (isTCP (dst t)); intros x []|]. left. split; reflexivity.
  - injection T as <- <- <- <-. simpl.
    split; [destruct (isTCP (src t)); intros x []|]. left. split; reflexivity.
  - injection T as <- <- <- <-. simpl.
    split; [intros x []|]. left. split; reflexivity.
  - injection T as <- <- <- <-. simpl.
    split; [intros x []|]. left. split; reflexivity.
  - discriminate.
Qed.

(** The pool facts are kept when the owned buffers are permuted, or
    joined by the fresh one. *)
Lemma poolFacts_step (o o' : list buffer) (f f' : nat) :
  NoDup o -> (forall b, In b o -> b < f) ->
  ((Permutation o' o /\ f' = f) \/ (Permutation o' (f :: o) /\ f' = S f)) ->
  NoDup o' /\ (forall b, In b o' -> b < f') /\ (forall b, In b o -> In b o').
Proof.
  intros N B [[P ->]|[P ->]].
  - split; [|split].
    + apply Permutation_NoDup with o; [now symmetry | exact N].
    + intros b I. apply B. now apply Permutation_in with o'.
    + intros b I. apply Permutation_in with o; [now symmetry | exact I].
  - assert (N' : NoDup (f :: o)).
    { constructor; [|exact N]. intros I. apply B in I. lia. }
    split; [|split].
    + apply Permutation_NoDup with (f :: o); [now symmetry | exact N'].
    + intros b I. apply (Permutation_in _ P) in I. destruct I as [<-|I].
      * lia.
      * apply B in I. lia.
    + intros b I. apply Permutation_in with (f :: o); [now symmetry|].
      now right.
Qed.

(** *** One step of the relay *)

Lemma relayStep_inv (client remote : netConn)
    (fromClient fromRemote : list copyStep) (s : relayState) (c : choice) :
  relayInv client remote fromClient fromRemote s ->
  relayInv client remote fromClient fromRemote (relayStep s c).
Proof.
  intros Inv. pose proof Inv as (U & D & W & R).
  destruct c as [[|] k|]; unfold relayStep.
  - destruct (taskStep k (up s) (pl s) (wg s)) as [[[[t p] n] acts]|] eqn:T;
      [|exact Inv].
    unfold relayInv. simpl.
    rewrite !actionsOf_app, actionsOf_same, actionsOf_other, app_nil_r
      by reflexivity.
    split; [exact (taskStep_inv _ _ _ _ _ _ _ _ _ _ _ _ U T)|].
    split; [exact D|].
    split; [exact (taskStep_wg k (up s) t (pl s) p (wg s) n (pending (down s)) acts W T)|].
    destruct (returned s).
    + exfalso. destruct R as [Z _]. rewrite Z in W.
      assert (PU : pending (up s) = 0) by lia.
      unfold pending in PU. unfold taskStep in T.
      destruct (at_pc (up s)); discriminate.
    + intros I. apply in_app_or in I. destruct I as [I|I]; [now apply R|].
      now apply (taskStep_no_return _ _ _ _ _ _ _ _ _ T) in I.
  - destruct (taskStep k (down s) (pl s) (wg s)) as [[[[t p] n] acts]|] eqn:T;
      [|exact Inv].
    unfold relayInv. simpl.
    rewrite !actionsOf_app, actionsOf_same, actionsOf_other, app_nil_r
      by reflexivity.
    split; [exact U|].
    split; [exact (taskStep_inv _ _ _ _ _ _ _ _ _ _ _ _ D T)|].
    split.
    { rewrite Nat.add_comm.
      refine (taskStep_wg k (down s) t (pl s) p (wg s) n (pending (up s)) acts _ T).
      lia. }
    destruct (returned s).
    + exfalso. destruct R as [Z _]. rewrite Z in W.
      assert (PD : pending (down s) = 0) by lia.
      unfold pending in PD. unfold taskStep in T.
      destruct (at_pc (down s)); discriminate.
    + intros I. apply in_app_or in I. destruct I as [I|I]; [now apply R|].
      now apply (taskStep_no_return _ _ _ _ _ _ _ _ _ T) in I.
  - destruct (Nat.eqb (wg s) 0) eqn:Z; simpl; [|exact Inv].
    destruct (returned s) eqn:Ret; simpl; [exact Inv|].
    apply Nat.eqb_eq in Z. unfold relayInv. simpl.
    rewrite !actionsOf_app. simpl. rewrite !app_nil_r.
    split; [exact U|]. split; [exact D|]. split; [exact W|].
    split; [exact Z|]. now exists (log s).
Qed.

(** *** Every schedule *)

Lemma relayStart_inv (client remote : netConn)
    (fromClient fromRemote : list copyStep) (p : pool) :
  relayInv client remote fromClient fromRemote
    (relayStart client remote fromClient fromRemote p).
Proof.
  unfold relayInv, taskInv. simpl. repeat split; auto.
Qed.

Lemma schedule_inv (P : relayState -> Prop) :
  (forall s c, P s -> P (relayStep s c)) ->
  forall schedule s, P s -> P (fold_left relayStep schedule s).
Proof.
  intros Step schedule. induction schedule as [|c rest IH]; intros s H.
  - exact H.
  - simpl. apply IH, Step, H.
Qed.

Lemma relay_inv (client remote : netConn)
    (fromClient fromRemote : list copyStep) (p : pool)
    (schedule : list choice) :
  relayInv client remote fromClient fromRemote
    (relay client remote fromClient fromRemote p schedule).
Proof.
  unfold relay. apply schedule_inv.
  - intros s c. apply relayStep_inv.
  - apply relayStart_inv.
Qed.

(** What a goroutine has acquired is what it has released and what it
    still holds. *)
Lemma taskInv_matched (dst0 src0 : netConn) (stream : list copyStep)
    (t : task) (acts : list action) :
  taskInv dst0 src0 stream t acts ->
  acquired acts = released acts ++ held t /\ length (acquired acts) <= 1.
Proof.
  intros (_ & _ & I). unfold held.
  destruct (copyEvents_no_buffer stream) as [CA CR].
  destruct (halfClose_no_buffer dst0 src0) as [HA HR].
  destruct (at_pc t).
  - destruct I as [-> _]. simpl. auto.
  - destruct I as (copied & -> & E).
    destruct (copied_no_buffer _ _ _ E) as [A R].
    simpl. rewrite A, R. simpl. auto.
  - rewrite I. simpl. rewrite CA, CR. simpl. auto.
  - rewrite I. simpl. rewrite acquired_app, released_app, CA, CR.
    destruct (isTCP dst0); simpl; auto.
  - rewrite I. simpl. rewrite acquired_app, released_app, CA, CR, HA, HR.
    simpl. auto.
  - destruct I as (b & ->). simpl.
    rewrite !acquired_app, !released_app, CA, CR, HA, HR. simpl. auto.
  - destruct I as (b & ->). simpl.
    rewrite !acquired_app, !released_app, CA, CR, HA, HR. simpl. auto.
Qed.

(** *** The relay returns *)

Lemma pending_zero (t : task) : pending t = 0 -> at_pc t = Finished.
Proof. unfold pending. destruct (at_pc t); try discriminate. reflexivity. Qed.

Lemma stepsLeft_zero (t : task) : stepsLeft t = 0 -> at_pc t = Finished.
Proof.
  unfold stepsLeft. destruct (at_pc t); try discriminate; try lia.
  reflexivity.
Qed.

Lemma taskStep_stepsLeft (k : nat) (t t' : task) (p p' : pool) (n n' : nat)
    (new : list action) :
  taskStep k t p n = Some (t', p', n', new) -> stepsLeft t' < stepsLeft t.
Proof.
  intros T. unfold taskStep in T. unfold stepsLeft.
  destruct (at_pc t) eqn:PC.
  - destruct (poolGet k p). injection T as <- <- <- <-. simpl. lia.
  - destruct (todo t) as [|[data [|]|] rest];
      injection T as <- <- <- <-; simpl; lia.
  - injection T as <- <- <- <-. simpl. lia.
  - injection T as <- <- <- <-. simpl. lia.
  - injection T as <- <- <- <-. simpl. lia.
  - injection T as <- <- <- <-. simpl. lia.
  - discriminate.
Qed.

(** A goroutine that has not ended is never blocked: its next step is
    taken whatever the other goroutine has done. *)
Lemma relayStep_progress (s : relayState) (d : direction) (k : nat) :
  at_pc (taskOf d s) <> Finished ->
  stepsLeft (taskOf d (relayStep s (Run d k))) < stepsLeft (taskOf d s).
Proof.
  intros NF. destruct d; simpl in *.
  - destruct (taskStep k (up s) (pl s) (wg s)) as [[[[t p] n] acts]|] eqn:T.
    + simpl. now apply taskStep_stepsLeft in T.
    + apply taskStep_None in T. contradiction.
  - destruct (taskStep k (down s) (pl s) (wg s)) as [[[[t p] n] acts]|] eqn:T.
    + simpl. now apply taskStep_stepsLeft in T.
    + apply taskStep_None in T. contradiction.
Qed.

Lemma run_finishes (d : direction) (m : nat) (s : relayState) :
  stepsLeft (taskOf d s) <= m ->
  at_pc (taskOf d (fold_left relayStep (repeat (Run d 0) m) s)) = Finished.
Proof.
  revert s. induction m as [|m IH]; intros s L.
  - apply stepsLeft_zero. simpl. lia.
  - cbn [repeat fold_left]. apply IH.
    destruct (stepsLeft (taskOf d s)) as [|r] eqn:E.
    + assert (F : at_pc (taskOf d s) = Finished) by now apply stepsLeft_zero.
      assert (U : relayStep s (Run d 0) = s).
      { destruct d; simpl in *; unfold taskStep; now rewrite F. }
      rewrite U, E. lia.
    + assert (NF : at_pc (taskOf d s) <> Finished).
      { intros F. unfold stepsLeft in E. rewrite F in E. discriminate. }
      pose proof (relayStep_progress s d 0 NF). lia.
Qed.

Lemma run_keeps_returned (d : direction) (m : nat) (s : relayState) :
  returned (fold_left relayStep (repeat (Run d 0) m) s) = returned s.
Proof.
  revert s. induction m as [|m IH]; intros s; [reflexivity|].
  simpl. rewrite IH. destruct d; simpl.
  - now destruct (taskStep 0 (up s) (pl s) (wg s)) as [[[[t p] n] acts]|].
  - now destruct (taskStep 0 (down s) (pl s) (wg s)) as [[[[t p] n] acts]|].
Qed.

Lemma run_down_keeps_up (m : nat) (s : relayState) :
  up (fold_left relayStep (repeat (Run Downstream 0) m) s) = up s.
Proof.
  revert s. induction m as [|m IH]; intros s; [reflexivity|].
  simpl. rewrite IH. simpl.
  now destruct (taskStep 0 (down s) (pl s) (wg s)) as [[[[t p] n] acts]|].
Qed.

Lemma run_up_keeps_down (m : nat) (s : relayState) :
  down (fold_left relayStep (repeat (Run Upstream 0) m) s) = down s.
Proof.
  revert s. induction m as [|m IH]; intros s; [reflexivity|].
  simpl. rewrite IH. simpl.
  now destruct (taskStep 0 (up s) (pl s) (wg s)) as [[[[t p] n] acts]|].
Qed.

Lemma relayStep_keeps_returned (s : relayState) (c : choice) :
  returned s = true -> returned (relayStep s c) = true.
Proof.
  intros R. destruct c as [[|] k|]; simpl.
  - now destruct (taskStep k (up s) (pl s) (wg s)) as [[[[t p] n] acts]|].
  - now destruct (taskStep k (down s) (pl s) (wg s)) as [[[[t p] n] acts]|].
  - now destruct (Nat.eqb (wg s) 0 && negb (returned s)).
Qed.

(** From wherever the goroutines stand, the schedule that runs one to its
    end, then the other, then [wg.Wait()], ends both and lets [relay]
    return. *)
Lemma finish_returns (client remote : netConn)
    (fromClient fromRemote : list copyStep) (s : relayState) :
  relayInv client remote fromClient fromRemote s ->
  stepsLeft (up s) <= length fromClient + 6 ->
  stepsLeft (down s) <= length fromRemote + 6 ->
  returned (fold_left relayStep (oneAfterTheOther fromClient fromRemote) s)
  = true
  /\ forall d,
       at_pc (taskOf d (fold_left relayStep
                          (oneAfterTheOther fromClient fromRemote) s))
       = Finished.
Proof.
  intros Inv LU LD. unfold oneAfterTheOther. rewrite app_assoc.
  rewrite fold_left_app.
  set (s2 := fold_left relayStep
               (runToEnd Upstream fromClient ++ runToEnd Downstream fromRemote)
               s).
  assert (Inv2 : relayInv client remote fromClient fromRemote s2).
  { unfold s2. apply schedule_inv; [|exact Inv].
    intros s0 c. apply relayStep_inv. }
  assert (FU : at_pc (up s2) = Finished).
  { unfold s2, runToEnd. rewrite fold_left_app, run_down_keeps_up.
    now apply (run_finishes Upstream). }
  assert (FD : at_pc (down s2) = Finished).
  { unfold s2, runToEnd. rewrite fold_left_app.
    apply (run_finishes Downstream). simpl. now rewrite run_up_keeps_down. }
  destruct Inv2 as (_ & _ & W & _).
  unfold pending in W. rewrite FU, FD in W. simpl.
  split.
  - rewrite W. simpl. destruct (returned s2) eqn:R; simpl; auto.
  - intros d. rewrite W. simpl.
    destruct (returned s2) eqn:R; destruct d; simpl; assumption.
Qed.

(** Under the schedule that runs one goroutine, then the other, then
    [wg.Wait()], [relay] returns. *)
Lemma relay_returns (client remote : netConn)
    (fromClient fromRemote : list copyStep) (p : pool) :
  returned (relay client remote fromClient fromRemote p
              (oneAfterTheOther fromClient fromRemote)) = true.
Proof.
  unfold relay.
  apply (finish_returns client remote fromClient fromRemote
           (relayStart client remote fromClient fromRemote p)).
  - apply relayStart_inv.
  - simpl. unfold stepsLeft. simpl. lia.
  - simpl. unfold stepsLeft. simpl. lia.
Qed.

(** When [relay] has returned, both goroutines have ended. *)
Lemma returned_finished (client remote : netConn)
    (fromClient fromRemote : list copyStep) (s : relayState) :
  relayInv client remote fromClient fromRemote s ->
  returned s = true ->
  at_pc (up s) = Finished /\ at_pc (down s) = Finished.
Proof.
  intros (_ & _ & W & R) Ret. rewrite Ret in R. destruct R as [Z _].
  rewrite Z in W. split; apply pending_zero; lia.
Qed.

(** C9. When client and remote are TCP connections, [relay] returns under
    the schedule that runs the goroutines one after the other; under
    every schedule it returns only after both goroutines have run to
    their end, each one having copied its stream to the end of the copy
    and then closed the write side of its destination and the read side
    of its source; and a goroutine that has not ended can always take its
    next step, whatever the other one has done. *)
Theorem relay_rendezvous (client remote : netConn)
    (fromClient fromRemote : list copyStep) (p : pool) :
  isTCP client = true -> isTCP remote = true ->
  returned (relay client remote fromClient fromRemote p
              (oneAfterTheOther fromClient fromRemote)) = true
  /\ (forall schedule,
        returned (relay client remote fromClient fromRemote p schedule) = true ->
        exists l bu bd,
          log (relay client remote fromClient fromRemote p schedule)
          = l ++ [Returned]
          /\ ~ In Returned l
          /\ actionsOf Upstream l
             = Get bu :: copyEvents fromClient
                 ++ [CloseWrite (connName remote); CloseRead (connName client);
                     Put bu; Done]
          /\ actionsOf Downstream l
             = Get bd :: copyEvents fromRemote
                 ++ [CloseWrite (connName client); CloseRead (connName remote);
                     Put bd; Done])
  /\ (forall schedule d k,
        let s := relay client remote fromClient fromRemote p schedule in
        at_pc (taskOf d s) <> Finished ->
        stepsLeft (taskOf d (relayStep s (Run d k))) < stepsLeft (taskOf d s)).
Proof.
  intros TC TR. split; [apply relay_returns|]. split.
  - intros schedule Ret.
    pose proof (relay_inv client remote fromClient fromRemote p schedule) as Inv.
    destruct (returned_finished _ _ _ _ _ Inv Ret) as [FU FD].
    destruct Inv as ((_ & _ & U) & (_ & _ & D) & _ & R).
    rewrite Ret in R. destruct R as (_ & l & L & NR).
    rewrite FU in U. rewrite FD in D.
    destruct U as (bu & U). destruct D as (bd & D).
    exists l, bu, bd. split; [exact L|]. split; [exact NR|].
    rewrite L, actionsOf_app in U, D. simpl in U, D.
    rewrite app_nil_r in U, D. unfold halfClose in U, D.
    rewrite TC, TR in U, D. split; assumption.
  - intros schedule d k s. apply relayStep_progress.
Qed.

(** *** The pool among all the sessions *)

Lemma remove_nth_none (l : list buffer) (k : nat) :
  nth_error l k = None -> remove_nth k l = l.
Proof.
  revert k. induction l as [|x l IH]; intros [|k] E; simpl in *;
    try discriminate; try reflexivity.
  now rewrite IH.
Qed.

Lemma perm_around (x a a' m f f' : list buffer) :
  Permutation (a' ++ f') (x ++ a ++ f) ->
  Permutation (a' ++ m ++ f') (x ++ a ++ m ++ f).
Proof.
  intros P. rewrite Permutation_app_swap_app, P.
  rewrite Permutation_app_swap_app. apply Permutation_app_head.
  apply Permutation_app_swap_app.
Qed.

(** A step of [relay] moves buffers between its goroutines and the pool,
    and may make one new buffer; the buffers held elsewhere stay. *)
Lemma relayStep_buffers (s : relayState) (c : choice) (e : list buffer) :
  (Permutation
     (held (up (relayStep s c)) ++ held (down (relayStep s c))
      ++ e ++ free (pl (relayStep s c)))
     (held (up s) ++ held (down s) ++ e ++ free (pl s))
   /\ fresh (pl (relayStep s c)) = fresh (pl s))
  \/ (Permutation
        (held (up (relayStep s c)) ++ held (down (relayStep s c))
         ++ e ++ free (pl (relayStep s c)))
        (fresh (pl s) :: held (up s) ++ held (down s) ++ e ++ free (pl s))
      /\ fresh (pl (relayStep s c)) = S (fresh (pl s))).
Proof.
  destruct c as [[|] k|]; unfold relayStep.
  - destruct (taskStep k (up s) (pl s) (wg s)) as [[[[t p] n] acts]|] eqn:T;
      [|left; split; reflexivity].
    simpl. destruct (taskStep_owned _ _ _ _ _ _ _ _ T) as (_ & [[P F]|[P F]]);
      [left|right]; (split; [|exact F]).
    + rewrite !(app_assoc (held (down s))).
      exact (perm_around [] _ _ _ _ _ P).
    + rewrite !(app_assoc (held (down s))).
      exact (perm_around [fresh (pl s)] _ _ _ _ _ P).
  - destruct (taskStep k (down s) (pl s) (wg s)) as [[[[t p] n] acts]|] eqn:T;
      [|left; split; reflexivity].
    simpl. destruct (taskStep_owned _ _ _ _ _ _ _ _ T) as (_ & [[P F]|[P F]]);
      [left|right]; (split; [|exact F]).
    + apply Permutation_app_head. exact (perm_around [] _ _ _ _ _ P).
    + rewrite (perm_around [fresh (pl s)] _ _ e _ _ P). simpl.
      symmetry. apply Permutation_middle.
  - left. destruct (Nat.eqb (wg s) 0 && negb (returned s)); split; reflexivity.
Qed.

(** No step of [relay] takes a goroutine further from its end. *)
Lemma relayStep_stepsLeft (s : relayState) (c : choice) (d : direction) :
  stepsLeft (taskOf d (relayStep s c)) <= stepsLeft (taskOf d s).
Proof.
  destruct c as [[|] k|]; unfold relayStep.
  - destruct (taskStep k (up s) (pl s) (wg s)) as [[[[t p] n] acts]|] eqn:T;
      [|reflexivity].
    apply taskStep_stepsLeft in T. destruct d; simpl; lia.
  - destruct (taskStep k (down s) (pl s) (wg s)) as [[[[t p] n] acts]|] eqn:T;
      [|reflexivity].
    apply taskStep_stepsLeft in T. destruct d; simpl; lia.
  - destruct (Nat.eqb (wg s) 0 && negb (returned s)); destruct d; reflexivity.
Qed.

(** A step from outside moves a buffer between the pool and another
    session, makes a new one for another session (at a [Get]), or takes
    one out of the pool for good (the runtime). *)
Lemma otherStep_buffers (w : shared) (o : otherUse) :
  (Permutation (buffers (otherStep w o)) (buffers w)
   /\ fresh (pl (here (otherStep w o))) = fresh (pl (here w)))
  \/ ((exists k, o = OtherGet k)
      /\ Permutation (buffers (otherStep w o))
           (fresh (pl (here w)) :: buffers w)
      /\ fresh (pl (here (otherStep w o))) = S (fresh (pl (here w))))
  \/ ((exists k, o = PoolDrop k)
      /\ exists b, Permutation (b :: buffers (otherStep w o)) (buffers w)
                   /\ fresh (pl (here (otherStep w o))) = fresh (pl (here w))).
Proof.
  destruct o as [k|i|k]; unfold otherStep, buffers.
  - unfold poolGet.
    destruct (nth_error (free (pl (here w))) k) as [b|] eqn:E; simpl.
    + left. split; [|reflexivity].
      do 2 apply Permutation_app_head.
      change (Permutation
                ([b] ++ elsewhere w ++ remove_nth k (free (pl (here w))))
                (elsewhere w ++ free (pl (here w)))).
      rewrite Permutation_app_swap_app. apply Permutation_app_head.
      now apply remove_nth_perm.
    + right. left. split; [now exists k|]. split; [|reflexivity].
      rewrite !(app_assoc (held (up (here w))) (held (down (here w)))).
      symmetry. apply Permutation_middle.
  - destruct (nth_error (elsewhere w) i) as [b|] eqn:E;
      [|left; split; reflexivity].
    simpl. left. split; [|reflexivity].
    do 2 apply Permutation_app_head.
    rewrite <- (remove_nth_perm _ _ _ E) at 2. simpl.
    symmetry. apply Permutation_middle.
  - simpl.
    destruct (nth_error (free (pl (here w))) k) as [b|] eqn:E.
    + right. right. split; [now exists k|]. exists b. split; [|reflexivity].
      rewrite <- (remove_nth_perm _ _ _ E) at 2.
      rewrite !app_assoc. apply Permutation_middle.
    + left. rewrite (remove_nth_none _ _ E). split; reflexivity.
Qed.

Lemma poolFacts_drop (o o' : list buffer) (b : buffer) (f : nat) :
  NoDup o -> (forall x, In x o -> x < f) ->
  Permutation (b :: o') o ->
  NoDup o' /\ (forall x, In x o' -> x < f).
Proof.
  intros N B P. split.
  - apply Permutation_sym in P. apply (Permutation_NoDup P) in N.
    now inversion N.
  - intros x I. apply B. apply (Permutation_in _ P). now right.
Qed.

Lemma sharedStep_inv (client remote : netConn)
    (fromClient fromRemote : list copyStep) (w : shared) (c : sharedChoice) :
  sharedInv client remote fromClient fromRemote w ->
  sharedInv client remote fromClient fromRemote (sharedStep w c).
Proof.
  intros (Inv & N & B & LU & LD). destruct c as [c|o]; unfold sharedInv.
  - simpl. split; [now apply relayStep_inv|].
    pose proof (relayStep_stepsLeft (here w) c Upstream) as SU.
    pose proof (relayStep_stepsLeft (here w) c Downstream) as SD.
    simpl in SU, SD.
    destruct (poolFacts_step _ _ _ _ N B
                (relayStep_buffers (here w) c (elsewhere w)))
      as (N' & B' & _).
    split; [exact N'|]. split; [exact B'|]. split; lia.
  - assert (K : relayInv client remote fromClient fromRemote
                  (here (otherStep w o))
                /\ up (here (otherStep w o)) = up (here w)
                /\ down (here (otherStep w o)) = down (here w)).
    { destruct o as [k|i|k]; unfold otherStep.
      - destruct (poolGet k (pl (here w))). simpl.
        split; [exact Inv | split; reflexivity].
      - destruct (nth_error (elsewhere w) i); simpl;
          (split; [exact Inv | split; reflexivity]).
      - simpl. split; [exact Inv | split; reflexivity]. }
    destruct K as (Inv' & EU & ED). simpl.
    split; [exact Inv'|]. rewrite EU, ED.
    destruct (otherStep_buffers w o) as [P|[(_ & P)|(_ & b & P & F)]].
    + destruct (poolFacts_step _ _ _ _ N B (or_introl P)) as (N' & B' & _).
      now repeat split.
    + destruct (poolFacts_step _ _ _ _ N B (or_intror P)) as (N' & B' & _).
      now repeat split.
    + destruct (poolFacts_drop _ _ _ _ N B P) as (N' & B').
      rewrite F. now repeat split.
Qed.

Lemma sharedRelay_inv (client remote : netConn)
    (fromClient fromRemote : list copyStep) (p : pool)
    (others : list buffer) (schedule : list sharedChoice) :
  NoDup (others ++ free p) ->
  (forall b, In b (others ++ free p) -> b < fresh p) ->
  sharedInv client remote fromClient fromRemote
    (sharedRelay client remote fromClient fromRemote p others schedule).
Proof.
  intros N B. unfold sharedRelay.
  set (w0 := {| here := relayStart client remote fromClient fromRemote p;
                elsewhere := others |}).
  assert (I0 : sharedInv client remote fromClient fromRemote w0).
  { unfold sharedInv, buffers, w0. simpl.
    split; [apply relayStart_inv|]. split; [exact N|]. split; [exact B|].
    unfold stepsLeft. simpl. lia. }
  clearbody w0. revert w0 I0.
  induction schedule as [|c rest IH]; intros w0 I0; [exact I0|].
  simpl. apply IH. now apply sharedStep_inv.
Qed.

(** The steps of [relay] alone leave the buffers held elsewhere as they
    are. *)
Lemma ours_alone (cs : list choice) (w : shared) :
  fold_left sharedStep (map Ours cs) w
  = {| here := fold_left relayStep cs (here w); elsewhere := elsewhere w |}.
Proof.
  revert w. induction cs as [|c cs IH]; intros w.
  - now destruct w.
  - simpl. now rewrite IH.
Qed.

(** A goroutine that has ended has run [copyAndClose] once, from its
    [Get] to its [Put] of the same buffer. *)
Lemma finished_trace (dst0 src0 : netConn) (stream : list copyStep)
    (t : task) (acts : list action) :
  taskInv dst0 src0 stream t acts ->
  at_pc t = Finished ->
  exists b,
    acts = Get b :: copyEvents stream ++ halfClose dst0 src0 ++ [Put b; Done]
    /\ acquired acts = [b] /\ released acts = [b].
Proof.
  intros (_ & _ & I) F. rewrite F in I. destruct I as (b & ->).
  exists b. split; [reflexivity|].
  destruct (copyEvents_no_buffer stream) as [CA CR].
  destruct (halfClose_no_buffer dst0 src0) as [HA HR].
  simpl. rewrite !acquired_app, !released_app, CA, CR, HA, HR.
  split; reflexivity.
Qed.

(** The step at the deferred [Put] hands the buffer to the pool. *)
Lemma put_step (w : shared) (d : direction) (k : nat) (b : buffer) :
  at_pc (taskOf d (here w)) = AtPut b ->
  held (taskOf d (here (sharedStep w (Ours (Run d k))))) = []
  /\ free (pl (here (sharedStep w (Ours (Run d k)))))
     = b :: free (pl (here w))
  /\ actionsOf d (log (here (sharedStep w (Ours (Run d k)))))
     = actionsOf d (log (here w)) ++ [Put b].
Proof.
  intros PC. destruct d; simpl in PC |- *; unfold taskStep;
    rewrite PC; simpl; rewrite actionsOf_app; simpl;
    split; try reflexivity; split; reflexivity.
Qed.

(** C8. [relay] runs among the other users of the pool: the other
    sessions take buffers and put them back and the runtime frees buffers
    at rest, in any order between the steps of the two goroutines.
    Whatever the streams do (a failed read and a failed write included)
    and at every moment: each goroutine has acquired at most one buffer,
    and what it has acquired is what it has released and what it still
    holds; no buffer is in two places (held by a goroutine, held by
    another session, at rest in the pool); a goroutine that has ended has
    run from its [Get], through the copy and the half-close, to the [Put]
    of the same buffer, so it has acquired one buffer and released that
    buffer once; the step at the [Put] takes the buffer out of the hands
    of the goroutine and puts it to rest in the pool; and both goroutines
    do come to their end, and [relay] returns, when they are run on. *)
Theorem buffers_released_once (client remote : netConn)
    (fromClient fromRemote : list copyStep) (p : pool)
    (others : list buffer) (schedule : list sharedChoice) :
  NoDup (others ++ free p) ->
  (forall b, In b (others ++ free p) -> b < fresh p) ->
  let w := sharedRelay client remote fromClient fromRemote p others schedule in
  let s := here w in
  let w' := sharedRelay client remote fromClient fromRemote p others
              (schedule ++ map Ours (oneAfterTheOther fromClient fromRemote)) in
  (forall d,
     acquired (actionsOf d (log s))
     = released (actionsOf d (log s)) ++ held (taskOf d s)
     /\ length (acquired (actionsOf d (log s))) <= 1)
  /\ NoDup (held (up s) ++ held (down s) ++ elsewhere w ++ free (pl s))
  /\ (forall d,
        at_pc (taskOf d s) = Finished ->
        exists b,
          actionsOf d (log s)
          = Get b :: copyEvents (streamOf d fromClient fromRemote)
              ++ halfClose (dstOf d client remote) (srcOf d client remote)
              ++ [Put b; Done]
          /\ acquired (actionsOf d (log s)) = [b]
          /\ released (actionsOf d (log s)) = [b])
  /\ (forall d k b,
        at_pc (taskOf d s) = AtPut b ->
        let s' := here (sharedStep w (Ours (Run d k))) in
        held (taskOf d s') = []
        /\ free (pl s') = b :: free (pl s)
        /\ actionsOf d (log s') = actionsOf d (log s) ++ [Put b])
  /\ (forall d, at_pc (taskOf d (here w')) = Finished)
  /\ returned (here w') = true.
Proof.
  intros N B w s w'.
  pose proof (sharedRelay_inv client remote fromClient fromRemote p others
                schedule N B) as (Inv & N' & _ & LU & LD).
  fold w in Inv, N', LU, LD. fold s in Inv, LU, LD.
  assert (T : forall d,
             taskInv (dstOf d client remote) (srcOf d client remote)
               (streamOf d fromClient fromRemote) (taskOf d s)
               (actionsOf d (log s))).
  { destruct Inv as (U & D & _). intros [|]; assumption. }
  split; [|split; [|split; [|split]]].
  - intros d. exact (taskInv_matched _ _ _ _ _ (T d)).
  - exact N'.
  - intros d F. exact (finished_trace _ _ _ _ _ (T d) F).
  - intros d k b PC. exact (put_step w d k b PC).
  - assert (E : here w' = fold_left relayStep
                            (oneAfterTheOther fromClient fromRemote) s).
    { unfold w', sharedRelay. rewrite fold_left_app, ours_alone. reflexivity. }
    rewrite E.
    destruct (finish_returns _ _ _ _ _ Inv LU LD) as [R F].
    split; [exact F | exact R].
Qed.

(** ** The relay theorems at the example relay *)

Lemma relay_rendezvous_interleaved :
  isTCP tcpClient = true /\ isTCP tcpRemote = true
  /\ returned (relay tcpClient tcpRemote brokenUpload download emptyPool
                 interleaved) = true
  /\ exists l bu bd,
       log (relay tcpClient tcpRemote brokenUpload download emptyPool
              interleaved) = l ++ [Returned]
       /\ ~ In Returned l
       /\ actionsOf Upstream l
          = Get bu :: copyEvents brokenUpload
              ++ [CloseWrite Remote; CloseRead Client; Put bu; Done]
       /\ actionsOf Downstream l
          = Get bd :: copyEvents download
              ++ [CloseWrite Client; CloseRead Remote; Put bd; Done].
Proof.
  split; [reflexivity|]. split; [reflexivity|]. split; [reflexivity|].
  exact (proj1 (proj2 (relay_rendezvous tcpClient tcpRemote brokenUpload
                         download emptyPool eq_refl eq_refl))
               interleaved eq_refl).
Defined.

(** The buffers of the example: one held by another session, two at
    rest. *)
Lemma crowded_buffers :
  NoDup (heldOutside ++ free warmPool)
  /\ (forall b, In b (heldOutside ++ free warmPool) -> b < fresh warmPool).
Proof.
  split.
  - simpl. repeat constructor; simpl; intros H;
      repeat (destruct H as [H|H]; [discriminate H|]); exact H.
  - simpl. intros b H.
    repeat (destruct H as [H|H]; [subst b; lia|]). destruct H.
Defined.

Lemma buffers_released_once_crowded :
  NoDup (heldOutside ++ free warmPool)
  /\ (forall b, In b (heldOutside ++ free warmPool) -> b < fresh warmPool)
  /\ (let w := sharedRelay tcpClient tcpRemote brokenUpload download warmPool
                 heldOutside crowded in
      let s := here w in
      let w' := sharedRelay tcpClient tcpRemote brokenUpload download warmPool
                  heldOutside
                  (crowded ++ map Ours (oneAfterTheOther brokenUpload download)) in
      (forall d, at_pc (taskOf d s) = Finished)
      /\ (forall d,
            acquired (actionsOf d (log s))
            = released (actionsOf d (log s)) ++ held (taskOf d s)
            /\ length (acquired (actionsOf d (log s))) <= 1)
      /\ NoDup (held (up s) ++ held (down s) ++ elsewhere w ++ free (pl s))
      /\ (forall d,
            exists b,
              actionsOf d (log s)
              = Get b :: copyEvents (streamOf d brokenUpload download)
                  ++ halfClose (dstOf d tcpClient tcpRemote)
                       (srcOf d tcpClient tcpRemote)
                  ++ [Put b; Done]
              /\ acquired (actionsOf d (log s)) = [b]
              /\ released (actionsOf d (log s)) = [b])
      /\ (forall d, at_pc (taskOf d (here w')) = Finished)
      /\ returned (here w') = true)
  /\ (let w := sharedRelay tcpClient tcpRemote brokenUpload download warmPool
                 heldOutside crowdedToPut in
      let s' := here (sharedStep w (Ours (Run Downstream 0))) in
      at_pc (taskOf Downstream (here w)) = AtPut 0
      /\ held (taskOf Downstream s') = []
      /\ free (pl s') = 0 :: free (pl (here w))
      /\ actionsOf Downstream (log s')
         = actionsOf Downstream (log (here w)) ++ [Put 0]).
Proof.
  destruct crowded_buffers as [N B].
  split; [exact N|]. split; [exact B|].
  split.
  2:{ intros w s'.
      assert (PC : at_pc (taskOf Downstream (here w)) = AtPut 0)
        by reflexivity.
      split; [exact PC|].
      destruct (buffers_released_once tcpClient tcpRemote brokenUpload
                  download warmPool heldOutside crowdedToPut N B)
        as (_ & _ & _ & P & _).
      exact (P Downstream 0 0 PC). }
  intros w s w'.
  assert (F : forall d, at_pc (taskOf d s) = Finished)
    by (intros [|]; reflexivity).
  destruct (buffers_released_once tcpClient tcpRemote brokenUpload download
              warmPool heldOutside crowded N B)
    as (M & ND & T & _ & F' & R).
  split; [exact F|]. split; [exact M|]. split; [exact ND|].
  split; [intros d; exact (T d (F d))|]. split; [exact F' | exact R].
Defined.

(** ** More about sessions *)

(** The cuts of a trace around one event, also when the event is fully
    known. *)
Ltac cut_trace H :=
  match type of H with
  | [] = ?pre ++ _ :: _ => destruct pre; discriminate H
  | _ :: _ = ?pre ++ _ :: _ =>
      let e := fresh "e" in
      destruct pre as [|e pre]; cbn [app] in H;
      [ inversion H; subst; clear H
      | let E := fresh "E" in
        let H' := fresh "H" in
        inversion H as [[E H']]; clear H; subst e; cut_trace H' ]
  end.

Section SessionShape.

Variable ipString : bytes -> string.
Variable itoa : Z -> string.
Variable joinHostPort : string -> string -> string.
Variable env : Env.
Variable outboundIP : bytes.

Local Abbreviation run :=
  (handleConnection ipString itoa joinHostPort env outboundIP).

(** X1. The client connection is closed exactly once, by the last event of the
    session, on every path ([defer client.Close()]). *)
Theorem client_closed_last :
  exists t,
    handleConnection ipString itoa joinHostPort env outboundIP
    = t ++ [EvClose Client]
    /\ ~ In (EvClose Client) t.
Proof.
  destruct (handleConnection_path ipString itoa joinHostPort env outboundIP)
    as (t & P & E).
  exists t. split; [exact E|]. clear E.
  invert_paths; cbn [app]; no_such_event.
Qed.

(** X2. The remote connection is closed in exactly the sessions whose dial
    succeeded, after the relay and just before the client. *)
Theorem remote_closed_iff_connected :
  (In (EvClose Remote)
      (handleConnection ipString itoa joinHostPort env outboundIP) <->
   exists target ip port,
     In (EvDial outboundIP target (DialOk ip port))
        (handleConnection ipString itoa joinHostPort env outboundIP))
  /\ (forall pre post,
        handleConnection ipString itoa joinHostPort env outboundIP
        = pre ++ EvClose Remote :: post ->
        post = [EvClose Client] /\ exists pre', pre = pre' ++ [EvRelay]).
Proof.
  split; [split|].
  - intros I. apply in_split in I. destruct I as (pre & post & H).
    session_cases H; cut_trace H; try absurd_case.
    all: do 3 eexists; rewrite E; cbn [In]; eauto 12.
  - intros (target & ip & port & I).
    apply in_split in I. destruct I as (pre & post & H).
    session_cases H; cut_trace H; try absurd_case.
    all: rewrite E; cbn [In]; tauto.
  - intros pre post H.
    session_cases H; cut_trace H; try absurd_case.
    all: split; [reflexivity|].
    all: match goal with
         | |- exists p, ?l = p ++ [EvRelay] =>
             exists (removelast l); reflexivity
         end.
Qed.

(** X3. A session dials at most once and writes at most twice: the method
    selection and one reply. *)
Theorem one_dial_two_writes :
  length (dials run) <= 1 /\ length (writes run) <= 2.
Proof.
  destruct (handleConnection_path ipString itoa joinHostPort env outboundIP)
    as (t & P & E).
  rewrite E. clear E. invert_paths; cbn; lia.
Qed.

(** X4. Every dial of a session leaves from the outbound address the session
    was given, and its result is what the dialer answered for the
    target. *)
Theorem dial_from_outbound (localIP : bytes) (target : string)
    (res : dialResult) :
  In (EvDial localIP target res) run ->
  localIP = outboundIP /\ res = dial env target.
Proof.
  intros I. apply in_split in I. destruct I as (pre & post & H).
  session_cases H; cut_trace H; try absurd_case.
  all: split; [reflexivity | congruence].
Qed.

(** X5. A reply with status success is written only right after a successful
    dial, and carries the address and port the dialer bound. *)
Theorem success_only_after_dial (pre post : list event) (data : bytes)
    (ok : bool) :
  run = pre ++ EvWrite data ok :: post ->
  nth_error data 1 = Some repSuccess -> 2 < length data ->
  exists pre' target ip port,
    pre = pre' ++ [EvDial outboundIP target (DialOk ip port)]
    /\ data = sendReplyBytes repSuccess ip (uint16 port).
Proof.
  intros H S L.
  session_cases H; cut_trace H; try absurd_case;
    try (cbn in L; lia); try (cbn in S; discriminate S);
    try (rewrite sendReplyBytes_status in S; injection S as S;
         now apply dialFailureRep_not_success in S).
  all: match goal with
       | |- exists p t i q, ?l = p ++ [EvDial _ _ _] /\ _ =>
           exists (removelast l)
       end.
  all: do 3 eexists; split; reflexivity.
Qed.

(** X6. The session starts by setting the ten-second handshake deadline;
    the deadlines are cleared only on the way into the relay, and the
    relay is entered only with both deadlines cleared. *)
Theorem deadline_discipline :
  (exists t,
     handleConnection ipString itoa joinHostPort env outboundIP
     = EvSetDeadline Client (Some 10%Z) :: t)
  /\ (forall pre post,
        handleConnection ipString itoa joinHostPort env outboundIP
        = pre ++ EvRelay :: post ->
        exists pre',
          pre = pre' ++ [EvSetDeadline Client None; EvSetDeadline Remote None])
  /\ (forall c pre post,
        handleConnection ipString itoa joinHostPort env outboundIP
        = pre ++ EvSetDeadline c None :: post ->
        In EvRelay post).
Proof.
  split; [|split].
  - destruct (handleConnection_path ipString itoa joinHostPort env outboundIP)
      as (t & P & E).
    rewrite E. clear E. invert_paths; cbn [app]; eexists; reflexivity.
  - intros pre post H.
    session_cases H; cut_trace H; try absurd_case.
    all: match goal with
         | |- exists p, ?l = p ++ [_; _] =>
             exists (removelast (removelast l)); reflexivity
         end.
  - intros c pre post H.
    session_cases H; cut_trace H; try absurd_case.
    all: cbn [In]; tauto.
Qed.

End SessionShape.

(** ** Sessions and the bytes of the client *)

Lemma readFull_front (f : field) (l r : bytes) (w : nat) :
  readFull f (length l) {| input := l ++ r; nwrites := w |}
  = (Some l, {| input := r; nwrites := w |},
     [EvRead f (length l) (Some l)]).
Proof.
  unfold readFull. cbn [input nwrites].
  assert (L : Nat.leb (length l) (length (l ++ r)) = true).
  { apply Nat.leb_le. rewrite length_app. lia. }
  rewrite L, firstn_app, Nat.sub_diag, firstn_all, skipn_app, Nat.sub_diag,
    skipn_all. simpl. now rewrite app_nil_r.
Qed.

Lemma bind_readFull_front {B} (f : field) (l r : bytes) (w : nat)
    (k : bytes -> M B) :
  bind (readFull f (length l)) k {| input := l ++ r; nwrites := w |}
  = match k l {| input := r; nwrites := w |} with
    | (b, s2, t2) => (b, s2, EvRead f (length l) (Some l) :: t2)
    end.
Proof. unfold bind. rewrite readFull_front. reflexivity. Qed.

Section SessionInput.

Variable ipString : bytes -> string.
Variable itoa : Z -> string.
Variable joinHostPort : string -> string -> string.
Variable env : Env.
Variable outboundIP : bytes.

Local Abbreviation run :=
  (handleConnection ipString itoa joinHostPort env outboundIP).

(** X8. A session from the client's bytes to the relay. Given a greeting
    that offers NO AUTH among its methods, a CONNECT request for a 4-byte
    address and port, a selection that can be written and a dial that
    succeeds, the session reads exactly the greeting and the request,
    dials the address at the port the two bytes spell, replies success
    with the bound address, clears the deadlines, relays and closes; the
    bytes after the request are left unread for the relay. *)
Theorem connect_ipv4_end_to_end (n rsv a1 a2 a3 a4 hi lo : byte)
    (methods extra : bytes) (ip : netIP) (port : Z) :
  clientBytes env
  = [x05; n] ++ methods
    ++ [x05; x01; rsv; x01] ++ [a1; a2; a3; a4] ++ [hi; lo] ++ extra ->
  Z_of_byte n = Z.of_nat (length methods) ->
  In authNone methods ->
  writeOk env 0 = true ->
  dial env (joinHostPort (ipString [a1; a2; a3; a4])
              (itoa (Z_of_byte hi * 256 + Z_of_byte lo)%Z))
  = DialOk ip port ->
  run
  = [EvSetDeadline Client (Some 10%Z);
     EvRead GreetingHdr 2 (Some [x05; n]);
     EvRead Methods (length methods) (Some methods);
     EvWrite [x05; x00] true;
     EvRead RequestHdr 4 (Some [x05; x01; rsv; x01]);
     EvRead AddrIPv4 4 (Some [a1; a2; a3; a4]);
     EvRead DestPort 2 (Some [hi; lo]);
     EvDial outboundIP
       (joinHostPort (ipString [a1; a2; a3; a4])
          (itoa (Z_of_byte hi * 256 + Z_of_byte lo)%Z))
       (DialOk ip port);
     EvWrite (sendReplyBytes repSuccess ip (uint16 port)) (writeOk env 1);
     EvSetDeadline Client None; EvSetDeadline Remote None;
     EvRelay; EvClose Remote; EvClose Client]
  /\ clientBytes env = readBytes run ++ extra.
Proof.
  intros HB HN HA HW HD.
  assert (NZ : Z.to_nat (Z_of_byte n) = length methods) by lia.
  assert (N0 : Z.eqb (Z_of_byte n) 0 = false).
  { apply Z.eqb_neq. destruct methods; [destruct HA | simpl in HN; lia]. }
  assert (N255 : Z.ltb 255 (Z_of_byte n) = false).
  { apply Z.ltb_ge. pose proof (Z_of_byte_range n). lia. }
  apply hasNoAuth_In in HA.
  assert (R : session ipString itoa joinHostPort env outboundIP (initial env)
              = (Some tt, {| input := extra; nwrites := 2 |},
                 [EvSetDeadline Client (Some 10%Z);
                  EvRead GreetingHdr 2 (Some [x05; n]);
                  EvRead Methods (length methods) (Some methods);
                  EvWrite [x05; x00] true;
                  EvRead RequestHdr 4 (Some [x05; x01; rsv; x01]);
                  EvRead AddrIPv4 4 (Some [a1; a2; a3; a4]);
                  EvRead DestPort 2 (Some [hi; lo]);
                  EvDial outboundIP
                    (joinHostPort (ipString [a1; a2; a3; a4])
                       (itoa (Z_of_byte hi * 256 + Z_of_byte lo)%Z))
                    (DialOk ip port);
                  EvWrite (sendReplyBytes repSuccess ip (uint16 port))
                    (writeOk env 1);
                  EvSetDeadline Client None; EvSetDeadline Remote None;
                  EvRelay; EvClose Remote])).
  { unfold session, initial. rewrite HB.
    unfold bind at 1. unfold emit at 1.
    change 2 with (length [x05; n]) at 1. rewrite bind_readFull_front.
    cbn [nth]. change (Byte.eqb x05 socks5Version) with true. cbn [negb].
    cbv zeta. rewrite N0, N255. cbn [orb]. rewrite NZ.
    rewrite bind_readFull_front. rewrite HA. cbn [negb].
    unfold bind at 1. unfold write at 1. cbn [nwrites input].
    rewrite HW. cbn [negb].
    unfold request.
    change 4 with (length [x05; x01; rsv; x01]) at 1.
    rewrite bind_readFull_front. cbn [nth].
    change (Byte.eqb x05 socks5Version) with true.
    change (Byte.eqb x01 cmdConnect) with true. cbn [negb].
    unfold parseDestAddr. change (Byte.eqb x01 atypIPv4) with true. cbv iota.
    unfold bind at 1.
    change 4 with (length [a1; a2; a3; a4]) at 1.
    rewrite bind_readFull_front. unfold ret at 1.
    change 2 with (length [hi; lo]) at 1.
    rewrite bind_readFull_front. rewrite bigEndianUint16_spec.
    unfold dialOutbound. cbv zeta. rewrite HD.
    unfold sendReply, write, emit, bind, ret. cbn [nwrites input app].
    reflexivity. }
  unfold handleConnection. rewrite R. split; [reflexivity|].
  rewrite HB. cbn [readBytes app]. now rewrite <- !app_assoc.
Qed.

End SessionInput.

(** ** More about the reply encoding *)

(** X9. A reply has 10 bytes when there is no bound address or an IPv4-shaped
    one, and 22 bytes otherwise: it always fits the 22-byte array of
    [sendReply]. *)
Theorem reply_length (rep : byte) (ip : netIP) (port : Z) :
  length (sendReplyBytes rep ip port)
  = match ip with
    | None => 10
    | Some a => match To4 a with Some _ => 10 | None => 22 end
    end.
Proof.
  destruct ip as [a|]; [|reflexivity].
  destruct (To4 a) as [v4|] eqn:E.
  - rewrite (sendReplyBytes_v4 rep a v4 port E).
    pose proof (To4_length _ _ E) as L.
    rewrite !length_app, L. reflexivity.
  - destruct (Nat.eq_dec (length a) 16) as [L|L].
    + rewrite (sendReplyBytes_v6 rep a port E L), !length_app, L. reflexivity.
    + rewrite (sendReplyBytes_other rep a port E L). reflexivity.
Qed.

(** X10. The port of a reply round-trips: the last two bytes [sendReply] wrote
    with [PutUint16], read back with [Uint16] as the request parser reads
    a port, give the 16-bit port again. *)
Theorem reply_port_round_trip (rep : byte) (ip : netIP) (port : Z) :
  (0 <= port < 65536)%Z ->
  bigEndianUint16
    (skipn (length (sendReplyBytes rep ip port) - 2)
       (sendReplyBytes rep ip port))
  = port.
Proof.
  intros R.
  assert (T : forall front : bytes,
             skipn (length (front ++ [byte_of_Z (Z.shiftr port 8);
                                      byte_of_Z port]) - 2)
               (front ++ [byte_of_Z (Z.shiftr port 8); byte_of_Z port])
             = [byte_of_Z (Z.shiftr port 8); byte_of_Z port]).
  { intros front. rewrite length_app. simpl length.
    replace (length front + 2 - 2) with (length front) by lia.
    rewrite skipn_app, Nat.sub_diag, skipn_all. reflexivity. }
  assert (S : exists front,
             sendReplyBytes rep ip port
             = front ++ [byte_of_Z (Z.shiftr port 8); byte_of_Z port]).
  { destruct ip as [a|].
    - destruct (To4 a) as [v4|] eqn:E.
      + exists ([x05; rep; x00; x01] ++ v4).
        rewrite (sendReplyBytes_v4 rep a v4 port E). now rewrite <- app_assoc.
      + destruct (Nat.eq_dec (length a) 16) as [L|L].
        * exists ([x05; rep; x00; x04] ++ a).
          rewrite (sendReplyBytes_v6 rep a port E L). now rewrite <- app_assoc.
        * exists ([x05; rep; x00; x04] ++ repeat x00 16).
          rewrite (sendReplyBytes_other rep a port E L).
          now rewrite <- app_assoc.
    - exists [x05; rep; x00; x01; x00; x00; x00; x00]. reflexivity. }
  destruct S as (front & ->). rewrite T, bigEndianUint16_spec.
  now apply putUint16_big_endian.
Qed.

Lemma To4_mapped_iff (ip : bytes) :
  length ip = 16 ->
  (firstn 12 ip = v4InV6Prefix -> To4 ip = Some (skipn 12 ip))
  /\ (firstn 12 ip <> v4InV6Prefix -> To4 ip = None).
Proof.
  intros L. list_of_length ip. unfold To4. cbn [length Nat.eqb andb].
  cbn [firstn skipn nth isZeros forallb]. split.
  - intros [= -> -> -> -> -> -> -> -> -> -> -> ->]. reflexivity.
  - intros N.
    repeat match goal with
           | |- context [Byte.eqb ?x ?y] =>
               destruct (Byte.eqb x y) eqn:?; cbn [andb]; [|reflexivity]
           end.
    exfalso. apply N.
    repeat match goal with
           | H : Byte.eqb _ _ = true |- _ => apply Byte.byte_dec_bl in H; subst
           end.
    reflexivity.
Qed.

(** X11. A 16-byte bound address comes back as its own 16 bytes exactly when
    it is not an IPv4-mapped address; an IPv4-mapped one is sent in the
    4-byte form, as its last four bytes. *)
Theorem bound_address_echo (rep : byte) (ip : bytes) (port : Z) :
  length ip = 16 ->
  (firstn 12 ip = v4InV6Prefix ->
   sendReplyBytes rep (Some ip) port
   = [x05; rep; x00; x01] ++ skipn 12 ip
       ++ [byte_of_Z (Z.shiftr port 8); byte_of_Z port])
  /\ (firstn 12 ip <> v4InV6Prefix ->
      sendReplyBytes rep (Some ip) port
      = [x05; rep; x00; x04] ++ ip
          ++ [byte_of_Z (Z.shiftr port 8); byte_of_Z port]).
Proof.
  intros L. destruct (To4_mapped_iff ip L) as [M N]. split; intros H.
  - now apply sendReplyBytes_v4, M.
  - now apply sendReplyBytes_v6; [apply N|].
Qed.

(** ** More about the relay *)

Lemma delivered_app (l1 l2 : list action) :
  delivered (l1 ++ l2) = delivered l1 ++ delivered l2.
Proof.
  induction l1 as [|a l1 IH]; [reflexivity|].
  destruct a; cbn [delivered app]; rewrite IH; try reflexivity.
  apply app_assoc.
Qed.

(** The copy loop delivers a front of its stream, and all of it when no
    read and no write fails. *)
Lemma copyEvents_delivered (stream : list copyStep) :
  (exists rest, sent stream = delivered (copyEvents stream) ++ rest)
  /\ (clean stream = true -> delivered (copyEvents stream) = sent stream).
Proof.
  induction stream as [|[data [|]|] stream [(rest & IH) IC]]; simpl.
  - split; [now exists [] | reflexivity].
  - split.
    + exists rest. now rewrite IH, app_assoc.
    + intros C. now rewrite IC.
  - split; [|discriminate]. exists (data ++ sent stream). reflexivity.
  - split; [|discriminate]. exists (sent stream). reflexivity.
Qed.

Lemma halfClose_delivered (dst0 src0 : netConn) :
  delivered (halfClose dst0 src0) = [].
Proof. unfold halfClose. now destruct (isTCP dst0), (isTCP src0). Qed.

(** What a goroutine has done is a front of one run of [copyAndClose]. *)
Lemma taskInv_front (dst0 src0 : netConn) (stream : list copyStep)
    (t : task) (acts : list action) :
  taskInv dst0 src0 stream t acts ->
  acts = []
  \/ exists b rest,
       acts ++ rest
       = Get b :: copyEvents stream ++ halfClose dst0 src0 ++ [Put b; Done].
Proof.
  intros (_ & _ & I). destruct (at_pc t).
  - left. tauto.
  - right. destruct I as (copied & -> & E). exists bufp.
    exists (copyEvents (todo t) ++ halfClose dst0 src0 ++ [Put bufp; Done]).
    simpl. now rewrite app_assoc, E.
  - right. exists bufp, (halfClose dst0 src0 ++ [Put bufp; Done]).
    now rewrite I.
  - right. exists bufp.
    exists ((if isTCP src0 then [CloseRead (connName src0)] else [])
            ++ [Put bufp; Done]).
    rewrite I. unfold halfClose. simpl. now rewrite <- !app_assoc.
  - right. exists bufp, [Put bufp; Done]. rewrite I. simpl.
    now rewrite <- !app_assoc.
  - right. destruct I as (b & ->). exists b, [Done]. simpl.
    now rewrite <- !app_assoc.
  - right. destruct I as (b & ->). exists b, []. now rewrite app_nil_r.
Qed.

Lemma In_actionsOf (d : direction) (a : action) (l : list relayEvent) :
  In (Act d a) l <-> In a (actionsOf d l).
Proof.
  induction l as [|[d' a'|] l IH]; simpl; [tauto| |].
  - destruct (direction_eqb d d') eqn:E; simpl; rewrite <- IH.
    + assert (d = d') by (destruct d, d'; try discriminate E; reflexivity).
      subst d'. split; intros [H|H]; auto.
      * injection H as <-. now left.
      * left. now rewrite H.
    + split; [|auto]. intros [H|H]; [|exact H].
      injection H as Hd _. rewrite Hd in E. destruct d; discriminate E.
  - rewrite <- IH. split; [intros [H|H]; [discriminate H | exact H] | auto].
Qed.

Lemma copyEvents_no_close (stream : list copyStep) (c : conn) :
  ~ In (CloseWrite c) (copyEvents stream)
  /\ ~ In (CloseRead c) (copyEvents stream).
Proof.
  induction stream as [|[data [|]|] stream [IW IR]]; simpl; split;
    intros H; intuition discriminate.
Qed.

Section RelayFacts.

Variables client remote : netConn.
Variables fromClient fromRemote : list copyStep.
Variable p : pool.

Local Abbreviation relayOn :=
  (relay client remote fromClient fromRemote p).

Lemma taskOf_inv (schedule : list choice) (d : direction) :
  taskInv (dstOf d client remote) (srcOf d client remote)
    (streamOf d fromClient fromRemote)
    (taskOf d (relayOn schedule))
    (actionsOf d (log (relayOn schedule))).
Proof.
  pose proof (relay_inv client remote fromClient fromRemote p schedule)
    as (U & D & _).
  destruct d; assumption.
Qed.

(** X12. Within a direction the bytes arrive in the order they were sent: what
    has been written to the destination is always a front of what the
    source carries, and once [relay] has returned on a stream without
    failures it is all of it. *)
Theorem relay_keeps_byte_order (schedule : list choice) (d : direction) :
  (exists rest,
     sent (streamOf d fromClient fromRemote)
     = delivered (actionsOf d (log (relayOn schedule))) ++ rest)
  /\ (returned (relayOn schedule) = true ->
      clean (streamOf d fromClient fromRemote) = true ->
      delivered (actionsOf d (log (relayOn schedule)))
      = sent (streamOf d fromClient fromRemote)).
Proof.
  pose proof (taskOf_inv schedule d) as T.
  set (stream := streamOf d fromClient fromRemote) in *.
  destruct (copyEvents_delivered stream) as [(tail & S) C].
  split.
  - destruct (taskInv_front _ _ _ _ _ T) as [->|(b & rest & E)].
    + now exists (sent stream).
    + apply (f_equal delivered) in E.
      rewrite delivered_app in E. cbn [delivered] in E.
      rewrite !delivered_app, halfClose_delivered in E. simpl in E.
      rewrite app_nil_r in E.
      exists (delivered rest ++ tail). now rewrite app_assoc, E.
  - intros Ret CL.
    pose proof (relay_inv client remote fromClient fromRemote p schedule)
      as Inv.
    destruct (returned_finished _ _ _ _ _ Inv Ret) as [FU FD].
    destruct T as (_ & _ & T).
    assert (F : at_pc (taskOf d (relayOn schedule)) = Finished)
      by now destruct d.
    rewrite F in T. destruct T as (b & ->). cbn [delivered].
    rewrite !delivered_app, halfClose_delivered. simpl.
    rewrite app_nil_r. now apply C.
Qed.

(** X13. A half-close is performed only on a TCP connection, and only on the
    proper side: the write side of the direction's destination, the read
    side of its source. *)
Theorem half_close_only_on_tcp (schedule : list choice) (d : direction)
    (c : conn) :
  (In (Act d (CloseWrite c)) (log (relayOn schedule)) ->
   isTCP (dstOf d client remote) = true
   /\ c = connName (dstOf d client remote))
  /\ (In (Act d (CloseRead c)) (log (relayOn schedule)) ->
      isTCP (srcOf d client remote) = true
      /\ c = connName (srcOf d client remote)).
Proof.
  pose proof (taskOf_inv schedule d) as T.
  destruct (copyEvents_no_close (streamOf d fromClient fromRemote) c)
    as [NW NR].
  split; intros I; apply In_actionsOf in I.
  - destruct (taskInv_front _ _ _ _ _ T) as [E|(b & rest & E)];
      [rewrite E in I; destruct I|].
    assert (I' : In (CloseWrite c)
                   (Get b :: copyEvents (streamOf d fromClient fromRemote)
                      ++ halfClose (dstOf d client remote)
                           (srcOf d client remote) ++ [Put b; Done])).
    { rewrite <- E. apply in_or_app. now left. }
    destruct I' as [I'|I']; [discriminate I'|].
    apply in_app_or in I'. destruct I' as [I'|I']; [contradiction|].
    apply in_app_or in I'. destruct I' as [I'|I'].
    + unfold halfClose in I'.
      destruct (isTCP (dstOf d client remote)),
        (isTCP (srcOf d client remote)); simpl in I';
        intuition (try discriminate); try congruence.
    + simpl in I'. intuition discriminate.
  - destruct (taskInv_front _ _ _ _ _ T) as [E|(b & rest & E)];
      [rewrite E in I; destruct I|].
    assert (I' : In (CloseRead c)
                   (Get b :: copyEvents (streamOf d fromClient fromRemote)
                      ++ halfClose (dstOf d client remote)
                           (srcOf d client remote) ++ [Put b; Done])).
    { rewrite <- E. apply in_or_app. now left. }
    destruct I' as [I'|I']; [discriminate I'|].
    apply in_app_or in I'. destruct I' as [I'|I']; [contradiction|].
    apply in_app_or in I'. destruct I' as [I'|I'].
    + unfold halfClose in I'.
      destruct (isTCP (dstOf d client remote)),
        (isTCP (srcOf d client remote)); simpl in I';
        intuition (try discriminate); try congruence.
    + simpl in I'. intuition discriminate.
Qed.

(** X14. Once [relay] has returned nothing happens any more: no goroutine
    acts and the state stays as it is, whatever is scheduled. *)
Theorem relay_frozen_after_return (schedule more : list choice) :
  returned (relayOn schedule) = true ->
  relayOn (schedule ++ more) = relayOn schedule.
Proof.
  intros Ret. unfold relay. rewrite fold_left_app.
  fold (relayOn schedule).
  pose proof (relay_inv client remote fromClient fromRemote p schedule) as Inv.
  destruct (returned_finished _ _ _ _ _ Inv Ret) as [FU FD].
  generalize dependent (relayOn schedule). clear schedule.
  intros s Ret _ FU FD.
  induction more as [|c more IH]; [reflexivity|].
  simpl. assert (E : relayStep s c = s).
  { destruct c as [[|] k|]; simpl.
    - unfold taskStep. now rewrite FU.
    - unfold taskStep. now rewrite FD.
    - rewrite Ret. now rewrite andb_false_r. }
  now rewrite E.
Qed.

End RelayFacts.

(** *** The growth of the pool *)

(** A step of [relay] makes a new buffer only at a [Get], which the
    goroutine then counts among its acquisitions. *)
Lemma relayStep_taken (s : relayState) (c : choice) :
  (fresh (pl (relayStep s c)) = fresh (pl s)
   /\ taken s <= taken (relayStep s c))
  \/ (fresh (pl (relayStep s c)) = S (fresh (pl s))
      /\ taken (relayStep s c) = S (taken s)).
Proof.
  assert (T : forall k t t' q q' n n' new,
             taskStep k t q n = Some (t', q', n', new) ->
             fresh q' = fresh q
             \/ (fresh q' = S (fresh q) /\ length (acquired new) = 1)).
  { intros k t t' q q' n n' new H. unfold taskStep in H.
    destruct (at_pc t).
    - unfold poolGet in H. destruct (nth_error (free q) k);
        injection H as <- <- <- <-; simpl; auto.
    - destruct (todo t) as [|[data [|]|] rest];
        injection H as <- <- <- <-; auto.
    - injection H as <- <- <- <-; auto.
    - injection H as <- <- <- <-; auto.
    - injection H as <- <- <- <-; auto.
    - injection H as <- <- <- <-; auto.
    - discriminate. }
  unfold taken. destruct c as [[|] k|]; unfold relayStep.
  - destruct (taskStep k (up s) (pl s) (wg s)) as [[[[t q] n] acts]|] eqn:E;
      [|left; split; [reflexivity | lia]].
    simpl. rewrite !actionsOf_app, actionsOf_same, actionsOf_other, app_nil_r,
      acquired_app, length_app by reflexivity.
    destruct (T _ _ _ _ _ _ _ _ E) as [F|[F A]]; [left | right]; lia.
  - destruct (taskStep k (down s) (pl s) (wg s)) as [[[[t q] n] acts]|] eqn:E;
      [|left; split; [reflexivity | lia]].
    simpl. rewrite !actionsOf_app, actionsOf_same, actionsOf_other, app_nil_r,
      acquired_app, length_app by reflexivity.
    destruct (T _ _ _ _ _ _ _ _ E) as [F|[F A]]; [left | right]; lia.
  - left. destruct (Nat.eqb (wg s) 0 && negb (returned s)); simpl;
      rewrite ?actionsOf_app; simpl; rewrite ?app_nil_r; split;
      try reflexivity; lia.
Qed.

Lemma otherStep_log (w : shared) (o : otherUse) :
  log (here (otherStep w o)) = log (here w).
Proof.
  destruct o as [k|i|k]; unfold otherStep.
  - now destruct (poolGet k (pl (here w))).
  - now destruct (nth_error (elsewhere w) i).
  - reflexivity.
Qed.

Lemma filter_length_app {A} (f : A -> bool) (l1 l2 : list A) :
  length (filter f (l1 ++ l2)) = length (filter f l1) + length (filter f l2).
Proof. now rewrite filter_app, length_app. Qed.

(** A new buffer takes the next name. *)
Lemma growth_fresh (p : pool) (f : nat) (dropped bs bs' base : list buffer) :
  fresh p <= f ->
  Permutation (dropped ++ bs) (seq (fresh p) (f - fresh p) ++ base) ->
  Permutation bs' (f :: bs) ->
  Permutation (dropped ++ bs') (seq (fresh p) (S f - fresh p) ++ base).
Proof.
  intros L P Q. rewrite Q.
  replace (S f - fresh p) with (S (f - fresh p)) by lia.
  rewrite seq_S. replace (fresh p + (f - fresh p)) with f by lia.
  rewrite <- app_assoc. simpl.
  rewrite <- Permutation_middle, <- Permutation_middle.
  now constructor.
Qed.

Lemma sharedStep_growth (p : pool) (others : list buffer)
    (schedule : list sharedChoice) (w : shared) (c : sharedChoice) :
  (exists dropped, poolGrowth p others schedule w dropped) ->
  exists dropped,
    poolGrowth p others (schedule ++ [c]) (sharedStep w c) dropped.
Proof.
  intros (dropped & P & D & L & G). unfold poolGrowth, otherGets, poolDrops in *.
  rewrite !filter_length_app. destruct c as [c|o].
  - exists dropped. cbn [sharedStep here elsewhere filter length].
    unfold buffers in *. cbn [here elsewhere].
    destruct (relayStep_buffers (here w) c (elsewhere w)) as [[Q F]|[Q F]];
      destruct (relayStep_taken (here w) c) as [[F' A]|[F' A]]; try lia.
    + rewrite F. split; [now rewrite Q|]. split; lia.
    + rewrite F. split; [now apply growth_fresh with (2 := P)|]. split; lia.
  - unfold taken in *. cbn [sharedStep]. rewrite otherStep_log.
    destruct (otherStep_buffers w o)
      as [[Q F]|[((k & ->) & Q & F)|((k & ->) & b & Q & F)]].
    + exists dropped. rewrite F. split; [now rewrite Q|].
      split; [lia|]. split; lia.
    + exists dropped. rewrite F.
      split; [now apply growth_fresh with (2 := P)|].
      cbn [filter length]. split; lia.
    + exists (b :: dropped). rewrite F. split.
      * rewrite <- P, <- Q. apply (Permutation_middle dropped).
      * cbn [filter length]. split; [lia|]. split; lia.
Qed.

(** The steps from outside leave the goroutines of [relay] as they are. *)
Lemma sharedRelay_relayInv (client remote : netConn)
    (fromClient fromRemote : list copyStep) (p : pool)
    (others : list buffer) (schedule : list sharedChoice) :
  relayInv client remote fromClient fromRemote
    (here (sharedRelay client remote fromClient fromRemote p others schedule)).
Proof.
  unfold sharedRelay.
  set (w0 := {| here := relayStart client remote fromClient fromRemote p;
                elsewhere := others |}).
  assert (I0 : relayInv client remote fromClient fromRemote (here w0))
    by apply relayStart_inv.
  clearbody w0. revert w0 I0.
  induction schedule as [|c rest IH]; intros w0 I0; [exact I0|].
  simpl. apply IH. destruct c as [c|o]; simpl.
  - now apply relayStep_inv.
  - destruct o as [k|i|k]; unfold otherStep.
    + now destruct (poolGet k (pl (here w0))).
    + now destruct (nth_error (elsewhere w0) i).
    + exact I0.
Qed.

(** X15. [relay] among the other users of the pool makes at most two new
    buffers and loses none. Under every schedule the buffers made by
    [New] since the start are at most two more than the [Get]s of the
    other sessions; and the buffers held by the two goroutines, held by
    other sessions and at rest, together with those the runtime has
    freed (at most one at each such step), are exactly the buffers of the
    start and those made since. *)
Theorem relay_pool_growth (client remote : netConn)
    (fromClient fromRemote : list copyStep) (p : pool)
    (others : list buffer) (schedule : list sharedChoice) :
  let w := sharedRelay client remote fromClient fromRemote p others schedule in
  fresh p <= fresh (pl (here w))
  /\ fresh (pl (here w)) <= fresh p + 2 + otherGets schedule
  /\ exists dropped,
       Permutation (dropped ++ buffers w)
         (seq (fresh p) (fresh (pl (here w)) - fresh p) ++ others ++ free p)
       /\ length dropped <= poolDrops schedule.
Proof.
  intros w.
  assert (G : exists dropped, poolGrowth p others schedule w dropped).
  { unfold w. clear w. induction schedule as [|c schedule IH] using rev_ind.
    - exists []. unfold poolGrowth, sharedRelay, buffers, taken. simpl.
      rewrite Nat.sub_diag. simpl. repeat split; auto; lia.
    - unfold sharedRelay in *. rewrite fold_left_app. simpl.
      now apply sharedStep_growth. }
  destruct G as (dropped & P & D & L & G).
  assert (T : taken (here w) <= 2).
  { pose proof (sharedRelay_relayInv client remote fromClient fromRemote p
                  others schedule) as Inv.
    fold w in Inv. destruct Inv as (U & Dn & _).
    apply taskInv_matched in U, Dn. unfold taken. lia. }
  split; [exact L|]. split; [lia|]. now exists dropped.
Qed.

(** ** The listener *)

Lemma acceptLoop_served (ip : bytes) (port : Z) (accepts : list acceptResult) :
  served (fst (acceptLoop ip port accepts)) = acceptedBeforeClose accepts
  /\ (snd (acceptLoop ip port accepts) = true <-> listenerClosed accepts)
  /\ (forall ip' port' c,
        In (PServe ip' port' c) (fst (acceptLoop ip port accepts)) ->
        ip' = ip /\ port' = port /\ In (Accepted c) accepts)
  /\ ~ In PCloseListener (fst (acceptLoop ip port accepts)).
Proof.
  unfold listenerClosed.
  induction accepts as [|[client|[|]] rest (S & L & P & C)]; simpl.
  - repeat split; try tauto; try discriminate.
  - destruct (acceptLoop ip port rest) as [t done]. simpl in *.
    split; [now rewrite S|]. split; [|split].
    + rewrite L. split; [auto|]. intros [H|H]; [discriminate H | exact H].
    + intros ip' port' c [H|H].
      * injection H as <- <- <-. auto.
      * destruct (P _ _ _ H) as (? & ? & ?). auto.
    + intros [H|H]; [discriminate H | contradiction].
  - repeat split; auto; try tauto.
  - destruct (acceptLoop ip port rest) as [t done]. simpl in *.
    split; [exact S|]. split; [|split].
    + rewrite L. split; [auto|]. intros [H|H]; [discriminate H | exact H].
    + intros ip' port' c [H|H]; [discriminate H|].
      destruct (P _ _ _ H) as (? & ? & ?). auto.
    + intros [H|H]; [discriminate H | contradiction].
Qed.

Lemma served_app (t1 t2 : list proxyEvent) :
  served (t1 ++ t2) = served t1 ++ served t2.
Proof.
  induction t1 as [|e t1 IH]; [reflexivity|].
  destruct e; simpl; now rewrite IH.
Qed.

Section ListenerFacts.

Variable parseIP : string -> netIP.
Variable itoa : Z -> string.
Variable listen : string -> option goError.
Variable ipString : bytes -> string.
Variable joinHostPort : string -> string -> string.

(** X16. Every session a listener serves is given the address parsed from the
    entry, which is no IPv4 address, and the entry's port; it serves only
    clients it accepted, and only after the address was parsed and the
    port was bound; and every dial of such a session leaves from that
    address. *)
Theorem sessions_use_entry_address (entry : ProxyEntry)
    (accepts : list acceptResult) (ip : bytes) (port : Z) (client : Env) :
  In (PServe ip port client)
     (fst (StartProxy parseIP itoa listen entry accepts)) ->
  ParseIPv6 parseIP (IPv6 entry) = inl ip
  /\ To4 ip = None
  /\ port = Port entry
  /\ listen (":" ++ itoa (Port entry))%string = None
  /\ In (Accepted client) accepts
  /\ forall localIP target res,
       In (EvDial localIP target res)
          (handleConnection ipString itoa joinHostPort client ip) ->
       localIP = ip.
Proof.
  unfold StartProxy.
  destruct (ParseIPv6 parseIP (IPv6 entry)) as [oip|e] eqn:PE;
    [|intros []].
  cbv zeta. destruct (listen (":" ++ itoa (Port entry))%string) eqn:LE.
  { simpl. intros [H|[]]. discriminate H. }
  pose proof (acceptLoop_served oip (Port entry) accepts) as (_ & _ & P & _).
  destruct (acceptLoop oip (Port entry) accepts) as [t done].
  intros I.
  assert (I' : In (PServe ip port client) t).
  { destruct done; simpl in I.
    - destruct I as [H|[H|H]]; try discriminate H.
      apply in_app_or in H. destruct H as [H|[H|[]]];
        [exact H | discriminate H].
    - destruct I as [H|[H|H]]; try discriminate H. exact H. }
  destruct (P _ _ _ I') as (-> & -> & A).
  split; [reflexivity|]. split.
  { unfold ParseIPv6 in PE. destruct (parseIP (IPv6 entry)); [|discriminate].
    destruct (To4 b) eqn:T; [discriminate|]. now injection PE as <-. }
  split; [reflexivity|]. split; [reflexivity|]. split; [exact A|].
  intros localIP target res D.
  apply in_split in D. destruct D as (pre & post & H).
  session_cases H; cut_trace H; try absurd_case; reflexivity.
Qed.

End ListenerFacts.

Section AcceptLoop.

Variable parseIP : string -> netIP.
Variable itoa : Z -> string.
Variable listen : string -> option goError.

(** X17. With the address parsed and the port bound, the sessions served are
    those of the clients accepted before the listener was closed, in
    order: an accept error that is not the close of the listener stops
    nothing. [StartProxy] returns, without error and having closed the
    listener last, exactly when the listener was closed; until then it
    stays in its loop. *)
Theorem accept_loop_serves_until_closed (entry : ProxyEntry)
    (accepts : list acceptResult) (ip : bytes) :
  ParseIPv6 parseIP (IPv6 entry) = inl ip ->
  listen (":" ++ itoa (Port entry))%string = None ->
  served (fst (StartProxy parseIP itoa listen entry accepts))
  = acceptedBeforeClose accepts
  /\ (listenerClosed accepts ->
      snd (StartProxy parseIP itoa listen entry accepts) = ProxyReturned None
      /\ exists t,
           fst (StartProxy parseIP itoa listen entry accepts)
           = t ++ [PCloseListener]
           /\ ~ In PCloseListener t)
  /\ (~ listenerClosed accepts ->
      snd (StartProxy parseIP itoa listen entry accepts) = ProxyAccepting
      /\ ~ In PCloseListener
           (fst (StartProxy parseIP itoa listen entry accepts))).
Proof.
  intros PE LE. unfold StartProxy. rewrite PE. cbv zeta. rewrite LE.
  pose proof (acceptLoop_served ip (Port entry) accepts) as (S & L & _ & C).
  destruct (acceptLoop ip (Port entry) accepts) as [t done]. simpl in *.
  destruct done; simpl.
  - split; [now rewrite served_app, S, app_nil_r|]. split.
    + intros _. split; [reflexivity|].
      exists (PListen (":" ++ itoa (Port entry))
                :: PLogListening (":" ++ itoa (Port entry)) ip :: t).
      split; [reflexivity|]. intros [H|[H|H]]; try discriminate H.
      contradiction.
    + intros N. exfalso. apply N, L. reflexivity.
  - split; [exact S|]. split.
    + intros Cl. apply L in Cl. discriminate Cl.
    + intros _. split; [reflexivity|].
      intros [H|[H|H]]; try discriminate H. contradiction.
Qed.

End AcceptLoop.

(** ** The configuration *)

Section ConfigurationFacts.

Variable readFile : string -> bytes + goError.
Variable unmarshal : bytes -> Config + goError.
Variable parseIP : string -> netIP.
Variable ipString : bytes -> string.

Local Abbreviation validate := (validateProxies parseIP ipString).
Local Abbreviation load := (LoadConfig readFile unmarshal parseIP ipString).

Lemma seen_string (s : string) (l : list string) :
  existsb (String.eqb s) l = false <-> ~ In s l.
Proof.
  rewrite <- Bool.not_true_iff_false, existsb_exists. split.
  - intros N I. apply N. exists s. split; [exact I | apply String.eqb_refl].
  - intros N (x & I & E). apply String.eqb_eq in E. now subst x.
Qed.

Lemma seen_port (z : Z) (l : list Z) :
  existsb (Z.eqb z) l = false <-> ~ In z l.
Proof.
  rewrite <- Bool.not_true_iff_false, existsb_exists. split.
  - intros N I. apply N. exists z. split; [exact I | apply Z.eqb_refl].
  - intros N (x & I & E). apply Z.eqb_eq in E. now subst x.
Qed.

(** What the loop has accepted: entry by entry the loaded ones come from
    valid ones, and their addresses and ports are new and pairwise
    distinct. *)
Lemma validate_sound (ps : list ProxyEntry) :
  forall i seen seenPorts out,
    validate i seen seenPorts ps = inl out ->
    Forall2 (loadedFrom parseIP ipString) ps out
    /\ NoDup (map IPv6 out) /\ NoDup (map Port out)
    /\ (forall s, In s (map IPv6 out) -> ~ In s seen)
    /\ (forall z, In z (map Port out) -> ~ In z seenPorts).
Proof.
  induction ps as [|p rest IH]; intros i seen seenPorts out; simpl.
  - intros [= <-]. repeat split; try constructor; intros ? [].
  - destruct (parseIP (IPv6 p)) as [ip|] eqn:PI; [|discriminate].
    destruct (To4 ip) eqn:T4; [discriminate|].
    destruct (Z.ltb (Port p) 1 || Z.ltb 65535 (Port p)) eqn:R; [discriminate|].
    destruct (existsb (String.eqb (ipString ip)) seen) eqn:DS; [discriminate|].
    destruct (existsb (Z.eqb (Port p)) seenPorts) eqn:DP; [discriminate|].
    destruct (validate (S i) (ipString ip :: seen) (Port p :: seenPorts) rest)
      as [out'|e] eqn:V; [|discriminate].
    intros [= <-]. destruct (IH _ _ _ _ V) as (F & NS & NP & FS & FP).
    apply orb_false_elim in R. destruct R as [R1 R2].
    apply Z.ltb_ge in R1, R2. apply seen_string in DS. apply seen_port in DP.
    simpl. split; [|split; [|split; [|split]]].
    + constructor; [|exact F]. unfold loadedFrom, validEntry, normalizedOf.
      simpl. rewrite PI. repeat split; try lia. now exists ip.
    + constructor; [|exact NS]. intros I. apply (FS _ I). now left.
    + constructor; [|exact NP]. intros I. apply (FP _ I). now left.
    + intros s [<-|I]; [exact DS|]. intros I'. apply (FS _ I). now right.
    + intros z [<-|I]; [exact DP|]. intros I'. apply (FP _ I). now right.
Qed.

(** The loop accepts every list of valid entries whose normalized
    addresses and whose ports are new and pairwise distinct. *)
Lemma validate_complete (ps : list ProxyEntry) :
  forall i seen seenPorts,
    Forall (validEntry parseIP) ps ->
    NoDup (map (normalizedOf parseIP ipString) ps) ->
    NoDup (map Port ps) ->
    (forall s, In s (map (normalizedOf parseIP ipString) ps) -> ~ In s seen) ->
    (forall z, In z (map Port ps) -> ~ In z seenPorts) ->
    exists out, validate i seen seenPorts ps = inl out.
Proof.
  induction ps as [|p rest IH]; intros i seen seenPorts V NS NP FS FP; simpl.
  - now exists [].
  - inversion V as [|? ? [(ip & PI & T4) R] V']; subst.
    inversion NS as [|? ? NS1 NS2]; subst.
    inversion NP as [|? ? NP1 NP2]; subst.
    assert (NE : normalizedOf parseIP ipString p = ipString ip)
      by (unfold normalizedOf; now rewrite PI).
    rewrite PI, T4.
    replace (Z.ltb (Port p) 1 || Z.ltb 65535 (Port p)) with false
      by (symmetry; apply orb_false_intro; apply Z.ltb_ge; lia).
    replace (existsb (String.eqb (ipString ip)) seen) with false
      by (symmetry; apply seen_string, FS; left; exact NE).
    replace (existsb (Z.eqb (Port p)) seenPorts) with false
      by (symmetry; apply seen_port, FP; left; reflexivity).
    destruct (IH (S i) (ipString ip :: seen) (Port p :: seenPorts) V' NS2 NP2)
      as (out & ->).
    + intros s I [<-|I']; [apply NS1; now rewrite NE | apply (FS s); simpl; auto].
    + intros z I [<-|I']; [now apply NP1 | apply (FP z); simpl; auto].
    + eexists. reflexivity.
Qed.

Lemma failsAs_same (s1 s2 : list string) (z1 z2 : list Z)
    (p : ProxyEntry) (e : configError) :
  (forall x, In x s1 <-> In x s2) ->
  (forall z, In z z1 <-> In z z2) ->
  failsAs parseIP ipString s1 z1 p e -> failsAs parseIP ipString s2 z2 p e.
Proof.
  intros ES EZ. destruct e; simpl; try tauto.
  - intros (E & V & I). rewrite <- ES. tauto.
  - intros (E & V & N & I). rewrite <- ES, <- EZ. tauto.
Qed.

(** An error of the loop names the first entry that does not pass: the
    entries before it pass, and the entry itself fails the check the
    error names, against the addresses and ports seen before it. *)
Lemma validate_first_error (ps : list ProxyEntry) :
  forall i seen seenPorts e k,
    validate i seen seenPorts ps = inr e ->
    errorIndex e = Some k ->
    i <= k
    /\ exists out p,
         validate i seen seenPorts (firstn (k - i) ps) = inl out
         /\ nth_error ps (k - i) = Some p
         /\ failsAs parseIP ipString
              (map (normalizedOf parseIP ipString) (firstn (k - i) ps) ++ seen)
              (map Port (firstn (k - i) ps) ++ seenPorts) p e.
Proof.
  induction ps as [|p rest IH]; intros i seen seenPorts e k; simpl.
  - discriminate.
  - assert (Here : forall e', errorIndex e' = Some i -> e = e' ->
                     failsAs parseIP ipString seen seenPorts p e' ->
                     errorIndex e = Some k ->
                     i <= k
                     /\ exists out q,
                          validate i seen seenPorts (firstn (k - i) (p :: rest))
                          = inl out
                          /\ nth_error (p :: rest) (k - i) = Some q
                          /\ failsAs parseIP ipString
                               (map (normalizedOf parseIP ipString)
                                  (firstn (k - i) (p :: rest)) ++ seen)
                               (map Port (firstn (k - i) (p :: rest))
                                ++ seenPorts) q e).
    { intros e' Ei -> F Ek. rewrite Ei in Ek. injection Ek as <-.
      split; [lia|]. rewrite Nat.sub_diag. exists [], p. simpl. auto. }
    destruct (parseIP (IPv6 p)) as [ip|] eqn:PI.
    2:{ intros [= <-]. apply (Here (InvalidAddress i (IPv6 p))); simpl; auto. }
    destruct (To4 ip) as [v4|] eqn:T4.
    { intros [= <-]. apply (Here (IPv4Address i (IPv6 p))); simpl; auto.
      split; [reflexivity|]. now exists ip, v4. }
    destruct (Z.ltb (Port p) 1 || Z.ltb 65535 (Port p)) eqn:R.
    { intros [= <-]. apply (Here (PortOutOfRange i (Port p))); simpl; auto.
      split; [reflexivity|]. split; [now exists ip|].
      apply orb_true_iff in R. destruct R as [R|R]; apply Z.ltb_lt in R; lia. }
    assert (V : validEntry parseIP p).
    { apply orb_false_elim in R. destruct R as [R1 R2].
      apply Z.ltb_ge in R1, R2. split; [now exists ip | lia]. }
    assert (NE : normalizedOf parseIP ipString p = ipString ip)
      by (unfold normalizedOf; now rewrite PI).
    destruct (existsb (String.eqb (ipString ip)) seen) eqn:DS.
    { intros [= <-]. apply (Here (DuplicateIPv6 i (IPv6 p))); simpl; auto.
      split; [reflexivity|]. split; [exact V|]. rewrite NE.
      apply existsb_exists in DS. destruct DS as (x & I & E).
      apply String.eqb_eq in E. now subst x. }
    destruct (existsb (Z.eqb (Port p)) seenPorts) eqn:DP.
    { intros [= <-]. apply (Here (DuplicatePort i (Port p))); simpl; auto.
      split; [reflexivity|]. split; [exact V|]. rewrite NE.
      split; [now apply seen_string|].
      apply existsb_exists in DP. destruct DP as (x & I & E).
      apply Z.eqb_eq in E. now subst x. }
    destruct (validate (S i) (ipString ip :: seen) (Port p :: seenPorts) rest)
      as [out'|e'] eqn:W; [discriminate|].
    intros [= <-] Ek. destruct (IH _ _ _ _ _ W Ek) as (B & out & q & P & Q & F).
    split; [lia|].
    replace (k - i) with (S (k - S i)) by lia. simpl.
    rewrite PI, T4, R, DS, DP, P.
    eexists. exists q. split; [reflexivity|]. split; [exact Q|].
    rewrite NE. revert F. apply failsAs_same.
    + intros x. rewrite !in_app_iff. simpl. rewrite in_app_iff. tauto.
    + intros z. rewrite !in_app_iff. simpl. rewrite in_app_iff. tauto.
Qed.

(** X18. A configuration [LoadConfig] returns names an interface, holds at
    least one proxy, as many as the file and in its order, each with the
    port of the file, between 1 and 65535, and with the normalized text
    of an address that is no IPv4 address; no two of them share a port or
    an address. *)
Theorem load_config_sound (path : string) (cfg : Config) :
  load path = inl cfg ->
  Interface cfg <> ""%string
  /\ Proxies cfg <> []
  /\ NoDup (map IPv6 (Proxies cfg))
  /\ NoDup (map Port (Proxies cfg))
  /\ exists data raw,
       readFile path = inl data /\ unmarshal data = inl raw
       /\ Interface cfg = Interface raw
       /\ Forall2 (loadedFrom parseIP ipString) (Proxies raw) (Proxies cfg).
Proof.
  unfold LoadConfig.
  destruct (readFile path) as [data|e] eqn:RF; [|discriminate].
  destruct (unmarshal data) as [raw|e] eqn:UM; [|discriminate].
  destruct (String.eqb (Interface raw) "") eqn:EI; [discriminate|].
  destruct (Nat.eqb (length (Proxies raw)) 0) eqn:EP; [discriminate|].
  destruct (validate 0 [] [] (Proxies raw)) as [ps|e] eqn:V; [|discriminate].
  intros [= <-]. simpl.
  destruct (validate_sound _ _ _ _ _ V) as (F & NS & NP & _ & _).
  apply String.eqb_neq in EI. apply Nat.eqb_neq in EP.
  split; [exact EI|]. split.
  { intros ->. inversion F as [E|]. rewrite <- E in EP. now apply EP. }
  split; [exact NS|]. split; [exact NP|].
  exists data, raw. auto.
Qed.

(** X19. [LoadConfig] refuses nothing it should accept: a file that reads and
    parses, names an interface and holds at least one proxy, all valid,
    with pairwise distinct ports and pairwise distinct normalized
    addresses, is loaded. *)
Theorem load_config_complete (path : string) (data : bytes) (raw : Config) :
  readFile path = inl data ->
  unmarshal data = inl raw ->
  Interface raw <> ""%string ->
  Proxies raw <> [] ->
  Forall (validEntry parseIP) (Proxies raw) ->
  NoDup (map (normalizedOf parseIP ipString) (Proxies raw)) ->
  NoDup (map Port (Proxies raw)) ->
  exists cfg, load path = inl cfg.
Proof.
  intros RF UM NI NP V DS DP. unfold LoadConfig. rewrite RF, UM.
  apply String.eqb_neq in NI. rewrite NI.
  destruct (Proxies raw) as [|p rest] eqn:EP; [contradiction|].
  cbn [length Nat.eqb].
  destruct (validate_complete (p :: rest) 0 [] [] V DS DP) as (out & ->).
  - intros s _ [].
  - intros z _ [].
  - eexists. reflexivity.
Qed.

(** X20. An error of [LoadConfig] that names an entry names the first one
    that does not pass: the entries before it pass all the checks (each
    is valid, and they share no port and no normalized address), and the
    entry at that index is the one that fails, for the reason the error
    gives: an address that does not parse, an IPv4 address, a port out
    of range, or, for a valid entry, a normalized address or else a port
    that an entry before it has already. *)
Theorem load_config_first_error (path : string) (e : configError) (k : nat) :
  load path = inr e ->
  errorIndex e = Some k ->
  exists data raw out p,
    readFile path = inl data /\ unmarshal data = inl raw
    /\ k < length (Proxies raw)
    /\ validate 0 [] [] (firstn k (Proxies raw)) = inl out
    /\ Forall2 (loadedFrom parseIP ipString) (firstn k (Proxies raw)) out
    /\ NoDup (map IPv6 out) /\ NoDup (map Port out)
    /\ nth_error (Proxies raw) k = Some p
    /\ failsAs parseIP ipString
         (map (normalizedOf parseIP ipString) (firstn k (Proxies raw)))
         (map Port (firstn k (Proxies raw))) p e.
Proof.
  unfold LoadConfig.
  destruct (readFile path) as [data|e0] eqn:RF;
    [|intros [= <-]; discriminate].
  destruct (unmarshal data) as [raw|e0] eqn:UM;
    [|intros [= <-]; discriminate].
  destruct (String.eqb (Interface raw) ""); [intros [= <-]; discriminate|].
  destruct (Nat.eqb (length (Proxies raw)) 0); [intros [= <-]; discriminate|].
  destruct (validate 0 [] [] (Proxies raw)) as [ps|e0] eqn:V; [discriminate|].
  intros [= <-] Ek.
  destruct (validate_first_error _ _ _ _ _ _ V Ek) as (_ & out & p & P & Q & F).
  rewrite Nat.sub_0_r, !app_nil_r in *.
  destruct (validate_sound _ _ _ _ _ P) as (L & NS & NP & _).
  exists data, raw, out, p.
  split; [reflexivity|]. split; [exact UM|].
  split; [apply nth_error_Some; congruence|].
  repeat (split; [assumption|]). exact F.
Qed.

End ConfigurationFacts.

(** *** From the configuration to the listeners *)

Section LoadedEntries.

Variable readFile : string -> bytes + goError.
Variable unmarshal : bytes -> Config + goError.
Variable parseIP : string -> netIP.
Variable ipString : bytes -> string.
Variable itoa : Z -> string.
Variable listen : string -> option goError.

Lemma LoadConfig_loadedFrom (path : string) (cfg : Config) :
  LoadConfig readFile unmarshal parseIP ipString path = inl cfg ->
  exists raws, Forall2 (loadedFrom parseIP ipString) raws (Proxies cfg).
Proof.
  unfold LoadConfig.
  destruct (readFile path) as [data|e]; [|discriminate].
  destruct (unmarshal data) as [raw|e]; [|discriminate].
  destruct (String.eqb (Interface raw) ""); [discriminate|].
  destruct (Nat.eqb (length (Proxies raw)) 0); [discriminate|].
  destruct (validateProxies parseIP ipString 0 [] [] (Proxies raw))
    as [ps|e] eqn:V; [|discriminate].
  intros [= <-]. exists (Proxies raw).
  exact (proj1 (validate_sound parseIP ipString _ _ _ _ _ V)).
Qed.

(** X26. The entries of a loaded configuration parse again: when the text
    [net.IP.String] gives for a parsed address that is no IPv4 address is
    parsed back to that address, [ParseIPv6] accepts the normalized
    address of every loaded entry, so that [StartProxy] does not fail on
    the address of any of them. *)
Theorem loaded_entries_parse (path : string) (cfg : Config) :
  LoadConfig readFile unmarshal parseIP ipString path = inl cfg ->
  (forall s ip,
     parseIP s = Some ip -> To4 ip = None ->
     parseIP (ipString ip) = Some ip) ->
  forall entry,
    In entry (Proxies cfg) ->
    (exists ip, ParseIPv6 parseIP (IPv6 entry) = inl ip)
    /\ forall accepts port e,
         snd (StartProxy parseIP itoa listen entry accepts)
         <> ProxyReturned (Some (ProxyAddress port e)).
Proof.
  intros L RT entry I.
  destruct (LoadConfig_loadedFrom path cfg L) as (raws & F).
  assert (P : exists ip, ParseIPv6 parseIP (IPv6 entry) = inl ip).
  { clear L. induction F as [|r l rs ls (((ip & PI & T4) & _) & EN & _) F IH];
      [destruct I|].
    destruct I as [<-|I]; [|now apply IH].
    exists ip. unfold ParseIPv6. rewrite EN. unfold normalizedOf. rewrite PI.
    rewrite (RT _ _ PI T4). now rewrite T4. }
  split; [exact P|]. destruct P as (ip & P).
  intros accepts port e. unfold StartProxy. rewrite P. cbv zeta.
  destruct (listen (":" ++ itoa (Port entry))%string); [discriminate|].
  destruct (acceptLoop ip (Port entry) accepts) as [t b].
  destruct b; discriminate.
Qed.

End LoadedEntries.

(** ** The addresses of the interface *)

Section NetifLoop.

Variable parseIP : string -> netIP.
Variable ipString : bytes -> string.
Variable ipAddrAdd : list string -> string -> string -> cmdResult.
Variable trimSpace : string -> string.

Local Abbreviation ensureLoop :=
  (ensureEntries parseIP ipString ipAddrAdd trimSpace).

Lemma ParseIPv6_normalized (entry : ProxyEntry) (ip : bytes) :
  ParseIPv6 parseIP (IPv6 entry) = inl ip ->
  normalizedOf parseIP ipString entry = ipString ip.
Proof.
  unfold ParseIPv6, normalizedOf.
  destruct (parseIP (IPv6 entry)) as [a|]; [|discriminate].
  destruct (To4 a); [discriminate|]. now intros [= <-].
Qed.

Lemma ensureLoop_success (iface : string) (existing : list string)
    (entries : list ProxyEntry) :
  forall ran t,
    ensureLoop iface existing ran entries = (t, None) ->
    commands t = missing parseIP ipString existing entries
    /\ Forall (fun e => exists ip, ParseIPv6 parseIP (IPv6 e) = inl ip) entries.
Proof.
  unfold missing.
  induction entries as [|entry rest IH]; intros ran t; simpl.
  - intros [= <-]. split; [reflexivity | constructor].
  - destruct (ParseIPv6 parseIP (IPv6 entry)) as [ip|e] eqn:PE; [|discriminate].
    rewrite (ParseIPv6_normalized _ _ PE).
    destruct (existsb (String.eqb (ipString ip)) existing) eqn:EX; simpl.
    + destruct (ensureLoop iface existing ran rest) as [t' r] eqn:L.
      intros [= <- ->]. destruct (IH _ _ L) as [C F]. simpl.
      split; [exact C|]. constructor; [now exists ip | exact F].
    + destruct (ipAddrAdd ran (ipString ip ++ "/128") iface) as [out|out e].
      * destruct (ensureLoop iface existing (ran ++ [(ipString ip ++ "/128")%string])
                    rest) as [t' r] eqn:L.
        intros [= <- ->]. destruct (IH _ _ L) as [C F]. simpl.
        split; [now rewrite C|]. constructor; [now exists ip | exact F].
      * destruct (contains out fileExists); [|discriminate].
        destruct (ensureLoop iface existing (ran ++ [(ipString ip ++ "/128")%string])
                    rest) as [t' r] eqn:L.
        intros [= <- ->]. destruct (IH _ _ L) as [C F]. simpl.
        split; [now rewrite C|]. constructor; [now exists ip | exact F].
Qed.

Lemma ensureLoop_commands (iface : string) (existing : list string)
    (entries : list ProxyEntry) :
  forall ran t r,
    ensureLoop iface existing ran entries = (t, r) ->
    (forall addr iface' res,
       In (NCommand addr iface' res) t ->
       iface' = iface
       /\ exists entry ip,
            In entry entries
            /\ ParseIPv6 parseIP (IPv6 entry) = inl ip
            /\ addr = (ipString ip ++ "/128")%string
            /\ ~ In (ipString ip) existing)
    /\ length (commands t) <= length entries.
Proof.
  induction entries as [|entry rest IH]; intros ran t r; simpl.
  - intros [= <- <-]. split; [intros ? ? ? [] | simpl; lia].
  - destruct (ParseIPv6 parseIP (IPv6 entry)) as [ip|e] eqn:PE;
      [|intros [= <- <-]; split; [intros ? ? ? [] | simpl; lia]].
    assert (Lift : forall t' r' ran',
               ensureLoop iface existing ran' rest = (t', r') ->
               (forall addr iface' res,
                  In (NCommand addr iface' res) t' ->
                  iface' = iface
                  /\ exists entry0 ip0,
                       (entry = entry0 \/ In entry0 rest)
                       /\ ParseIPv6 parseIP (IPv6 entry0) = inl ip0
                       /\ addr = (ipString ip0 ++ "/128")%string
                       /\ ~ In (ipString ip0) existing)
               /\ length (commands t') <= length rest).
    { intros t' r' ran' L. destruct (IH _ _ _ L) as [C N]. split; [|exact N].
      intros addr iface' res I. destruct (C _ _ _ I) as (-> & e0 & i0 & Ie & Q).
      split; [reflexivity|]. exists e0, i0. tauto. }
    destruct (existsb (String.eqb (ipString ip)) existing) eqn:EX.
    + destruct (ensureLoop iface existing ran rest) as [t' r'] eqn:L.
      intros [= <- <-]. destruct (Lift _ _ _ L) as [C N]. split.
      * intros addr iface' res [H|H]; [discriminate H | exact (C _ _ _ H)].
      * simpl. lia.
    + assert (NE : ~ In (ipString ip) existing).
      { intros I. apply Bool.not_true_iff_false in EX. apply EX.
        apply existsb_exists. exists (ipString ip).
        split; [exact I | apply String.eqb_refl]. }
      assert (Here :
                 iface = iface
                 /\ exists entry0 ip0,
                      (entry = entry0 \/ In entry0 rest)
                      /\ ParseIPv6 parseIP (IPv6 entry0) = inl ip0
                      /\ (ipString ip ++ "/128")%string
                         = (ipString ip0 ++ "/128")%string
                      /\ ~ In (ipString ip0) existing).
      { split; [reflexivity|]. exists entry, ip. auto. }
      destruct (ipAddrAdd ran (ipString ip ++ "/128") iface) as [out|out e].
      * destruct (ensureLoop iface existing (ran ++ [(ipString ip ++ "/128")%string])
                    rest) as [t' r'] eqn:L.
        intros [= <- <-]. destruct (Lift _ _ _ L) as [C N]. split.
        -- intros addr iface' res [H|[H|H]]; try discriminate H.
           ++ injection H as <- <- <-. exact Here.
           ++ exact (C _ _ _ H).
        -- simpl. lia.
      * destruct (contains out fileExists).
        -- destruct (ensureLoop iface existing
                       (ran ++ [(ipString ip ++ "/128")%string]) rest)
             as [t' r'] eqn:L.
           intros [= <- <-]. destruct (Lift _ _ _ L) as [C N]. split.
           ++ intros addr iface' res [H|[H|H]]; try discriminate H.
              ** injection H as <- <- <-. exact Here.
              ** exact (C _ _ _ H).
           ++ simpl. lia.
        -- intros [= <- <-]. split.
           ++ intros addr iface' res [H|[]]. injection H as <- <- <-.
              exact Here.
           ++ simpl. lia.
Qed.

(** The loop returns the error of a failed add only from its last
    command, whose output does not say that the address exists. *)
Lemma ensureLoop_failure (iface : string) (existing : list string)
    (entries : list ProxyEntry) :
  forall ran t addr iface' text e,
    ensureLoop iface existing ran entries
    = (t, Some (AddFailed addr iface' text e)) ->
    iface' = iface
    /\ exists pre out,
         text = trimSpace out
         /\ contains out fileExists = false
         /\ t = pre ++ [NCommand addr iface (CmdFailed out e)].
Proof.
  induction entries as [|entry rest IH]; intros ran t addr iface' text e; simpl.
  - discriminate.
  - destruct (ParseIPv6 parseIP (IPv6 entry)) as [ip|pe]; [|discriminate].
    destruct (existsb (String.eqb (ipString ip)) existing).
    + destruct (ensureLoop iface existing ran rest) as [t' r'] eqn:L.
      intros [= <- ->].
      destruct (IH _ _ _ _ _ _ L) as (-> & pre & out & -> & C & ->).
      split; [reflexivity|].
      exists (NSkip (ipString ip) :: pre), out. auto.
    + destruct (ipAddrAdd ran (ipString ip ++ "/128") iface) as [o|o ce].
      * destruct (ensureLoop iface existing (ran ++ [(ipString ip ++ "/128")%string])
                    rest) as [t' r'] eqn:L.
        intros [= <- ->].
        destruct (IH _ _ _ _ _ _ L) as (-> & pre & out & -> & C & ->).
        split; [reflexivity|].
        exists (NCommand (ipString ip ++ "/128") iface (CmdOk o)
                  :: NAdded (ipString ip ++ "/128") :: pre), out. auto.
      * destruct (contains o fileExists) eqn:CF.
        -- destruct (ensureLoop iface existing
                       (ran ++ [(ipString ip ++ "/128")%string]) rest)
             as [t' r'] eqn:L.
           intros [= <- ->].
           destruct (IH _ _ _ _ _ _ L) as (-> & pre & out & -> & C & ->).
           split; [reflexivity|].
           exists (NCommand (ipString ip ++ "/128") iface (CmdFailed o ce)
                     :: NRace (ipString ip) :: pre), out. auto.
        -- intros [= <- <- <- <- <-]. split; [reflexivity|].
           exists [], o. auto.
Qed.

(** A command that fails without saying that the address exists is the
    last thing the loop does, and its error is what the loop returns. *)
Lemma ensureLoop_stops (iface : string) (existing : list string)
    (entries : list ProxyEntry) :
  forall ran t r pre post addr iface' out e,
    ensureLoop iface existing ran entries = (t, r) ->
    t = pre ++ NCommand addr iface' (CmdFailed out e) :: post ->
    contains out fileExists = false ->
    post = [] /\ iface' = iface
    /\ r = Some (AddFailed addr iface (trimSpace out) e).
Proof.
  induction entries as [|entry rest IH];
    intros ran t r pre post addr iface' out e; simpl.
  - intros [= <- <-] E. now destruct pre.
  - destruct (ParseIPv6 parseIP (IPv6 entry)) as [ip|pe];
      [|intros [= <- <-] E; now destruct pre].
    destruct (existsb (String.eqb (ipString ip)) existing).
    + destruct (ensureLoop iface existing ran rest) as [t' r'] eqn:L.
      intros [= <- <-] E C. destruct pre as [|x pre]; [discriminate E|].
      injection E as _ E. exact (IH _ _ _ _ _ _ _ _ _ L E C).
    + destruct (ipAddrAdd ran (ipString ip ++ "/128") iface) as [o|o ce].
      * destruct (ensureLoop iface existing (ran ++ [(ipString ip ++ "/128")%string])
                    rest) as [t' r'] eqn:L.
        intros [= <- <-] E C. destruct pre as [|x pre]; [discriminate E|].
        injection E as _ E. destruct pre as [|y pre]; [discriminate E|].
        injection E as _ E. exact (IH _ _ _ _ _ _ _ _ _ L E C).
      * destruct (contains o fileExists) eqn:CF.
        -- destruct (ensureLoop iface existing
                       (ran ++ [(ipString ip ++ "/128")%string]) rest)
             as [t' r'] eqn:L.
           intros [= <- <-] E C. destruct pre as [|x pre].
           ++ injection E as _ _ Eo _ _. subst o. congruence.
           ++ injection E as _ E. destruct pre as [|y pre]; [discriminate E|].
              injection E as _ E. exact (IH _ _ _ _ _ _ _ _ _ L E C).
        -- intros [= <- <-] E C. destruct pre as [|x pre].
           ++ injection E as <- <- <- <- <-. auto.
           ++ injection E as _ E. now destruct pre.
Qed.

Lemma ensureLoop_tolerant (iface : string) (existing : list string)
    (entries : list ProxyEntry) :
  (forall ran addr out e,
     ipAddrAdd ran addr iface = CmdFailed out e ->
     contains out fileExists = true) ->
  Forall (fun e => exists ip, ParseIPv6 parseIP (IPv6 e) = inl ip) entries ->
  forall ran, snd (ensureLoop iface existing ran entries) = None.
Proof.
  intros Tol. induction 1 as [|entry rest (ip & PE) F IH]; intros ran; simpl.
  - reflexivity.
  - rewrite PE. destruct (existsb (String.eqb (ipString ip)) existing).
    + specialize (IH ran).
      now destruct (ensureLoop iface existing ran rest) as [t' r'].
    + destruct (ipAddrAdd ran (ipString ip ++ "/128") iface) as [o|o ce] eqn:A.
      * specialize (IH (ran ++ [(ipString ip ++ "/128")%string])).
        now destruct (ensureLoop iface existing
                        (ran ++ [(ipString ip ++ "/128")%string]) rest).
      * rewrite (Tol _ _ _ _ A).
        specialize (IH (ran ++ [(ipString ip ++ "/128")%string])).
        now destruct (ensureLoop iface existing
                        (ran ++ [(ipString ip ++ "/128")%string]) rest).
Qed.

End NetifLoop.

Section NetifFacts.

Variable interfaceByName : string -> option goError.
Variable interfaceAddrs : string -> list string + goError.
Variable parseIP : string -> netIP.
Variable ipString : bytes -> string.
Variable ipAddrAdd : list string -> string -> string -> cmdResult.
Variable trimSpace : string -> string.

Local Abbreviation ensureLoop :=
  (ensureEntries parseIP ipString ipAddrAdd trimSpace).
Local Abbreviation ensure :=
  (EnsureIPv6Addresses interfaceByName interfaceAddrs parseIP ipString
     ipAddrAdd trimSpace).

(** X21. When [EnsureIPv6Addresses] succeeds it has run one [ip addr add] for
    each entry whose normalized address the interface did not have yet,
    in the order of the entries and with the mask /128, and none for any
    other: it is idempotent on addresses already assigned. *)
Theorem ensure_adds_the_missing (iface : string) (entries : list ProxyEntry)
    (t : list netifEvent) :
  ensure iface entries = (t, None) ->
  exists addrs,
    interfaceAddrs iface = inl addrs
    /\ commands t
       = missing parseIP ipString (existingAddresses parseIP ipString addrs)
           entries
    /\ Forall (fun e => exists ip, ParseIPv6 parseIP (IPv6 e) = inl ip) entries.
Proof.
  unfold EnsureIPv6Addresses.
  destruct (interfaceByName iface); [discriminate|].
  destruct (interfaceAddrs iface) as [addrs|e]; [|discriminate].
  intros L. exists addrs. split; [reflexivity|].
  exact (ensureLoop_success parseIP ipString ipAddrAdd trimSpace _ _ _ _ _ L).
Qed.

(** X22. Whatever the outcome, every command [EnsureIPv6Addresses] runs is on
    the given interface, for the normalized IPv6 address of an entry
    with the mask /128, and for an address the interface does not have;
    and it runs at most one command per entry. *)
Theorem ensure_never_adds_assigned (iface : string)
    (entries : list ProxyEntry) (addr iface' : string) (res : cmdResult) :
  In (NCommand addr iface' res) (fst (ensure iface entries)) ->
  iface' = iface
  /\ length (commands (fst (ensure iface entries))) <= length entries
  /\ exists addrs entry ip,
       interfaceAddrs iface = inl addrs
       /\ In entry entries
       /\ ParseIPv6 parseIP (IPv6 entry) = inl ip
       /\ addr = (ipString ip ++ "/128")%string
       /\ ~ In (ipString ip) (existingAddresses parseIP ipString addrs).
Proof.
  unfold EnsureIPv6Addresses.
  destruct (interfaceByName iface); [intros []|].
  destruct (interfaceAddrs iface) as [addrs|e]; [|intros []].
  destruct (ensureLoop iface (existingAddresses parseIP ipString addrs) []
              entries) as [t r] eqn:L.
  destruct (ensureLoop_commands parseIP ipString ipAddrAdd trimSpace _ _ _ _ _ _ L)
    as [C N]. simpl.
  intros I. destruct (C _ _ _ I) as (-> & entry & ip & Q).
  split; [reflexivity|]. split; [exact N|]. exists addrs, entry, ip. tauto.
Qed.

(** X23. A command that fails stops [EnsureIPv6Addresses] at once, unless its
    output says the address exists already. A failed command whose
    output does not hold "RTNETLINK answers: File exists" is the last
    thing done: nothing follows it, no later entry is looked at, and the
    function returns the error of that command, with its address, the
    interface and its output trimmed of white space. Conversely the error
    of a failed add is returned only so: it is that of the last command
    run, whose output does not hold that text. *)
Theorem ensure_stops_at_failed_add (iface : string)
    (entries : list ProxyEntry) :
  (forall pre post addr iface' out e,
     fst (ensure iface entries)
     = pre ++ NCommand addr iface' (CmdFailed out e) :: post ->
     contains out fileExists = false ->
     post = [] /\ iface' = iface
     /\ snd (ensure iface entries)
        = Some (AddFailed addr iface (trimSpace out) e))
  /\ (forall addr iface' text e,
        snd (ensure iface entries) = Some (AddFailed addr iface' text e) ->
        iface' = iface
        /\ exists pre out,
             text = trimSpace out
             /\ contains out fileExists = false
             /\ fst (ensure iface entries)
                = pre ++ [NCommand addr iface (CmdFailed out e)]).
Proof.
  unfold EnsureIPv6Addresses.
  destruct (interfaceByName iface) as [ne|].
  { split; [intros [|x pre] *; discriminate | discriminate]. }
  destruct (interfaceAddrs iface) as [addrs|le].
  2:{ split; [intros [|x pre] *; discriminate | discriminate]. }
  destruct (ensureLoop iface (existingAddresses parseIP ipString addrs) []
              entries) as [t r] eqn:L.
  cbn [fst snd]. split.
  - intros pre post addr iface' out e E C.
    exact (ensureLoop_stops parseIP ipString ipAddrAdd trimSpace
             _ _ _ _ _ _ _ _ _ _ _ _ L E C).
  - intros addr iface' text e ->.
    exact (ensureLoop_failure parseIP ipString ipAddrAdd trimSpace
             _ _ _ _ _ _ _ _ _ L).
Qed.

(** X24. When the interface is found, its addresses can be listed, every entry
    is an IPv6 address and every failing command reports that the address
    exists already (it was added meanwhile), [EnsureIPv6Addresses]
    succeeds. *)
Theorem ensure_tolerates_concurrent_add (iface : string)
    (entries : list ProxyEntry) (addrs : list string) :
  interfaceByName iface = None ->
  interfaceAddrs iface = inl addrs ->
  Forall (fun e => exists ip, ParseIPv6 parseIP (IPv6 e) = inl ip) entries ->
  (forall ran addr out e,
     ipAddrAdd ran addr iface = CmdFailed out e ->
     contains out fileExists = true) ->
  snd (ensure iface entries) = None.
Proof.
  intros IN IA F Tol. unfold EnsureIPv6Addresses. rewrite IN, IA.
  now apply ensureLoop_tolerant.
Qed.

End NetifFacts.

(** ** The socket options *)

Section SocketOptionFacts.

Variable setsockoptInt : sockLevel -> sockOption -> Z -> option goError.

(** X25. [setSocketOptions] makes its calls in the fixed order and stops at
    the first one the kernel refuses: the calls made are a front of the
    six settings; it returns nil exactly when [Control] ran and all six
    were accepted, and then all six were made; otherwise it returns the
    error of [Control], no call made, or the error of the last call made,
    the calls before it accepted. *)
Theorem socket_options_stop_at_first_error (control : option goError) :
  (exists rest,
     tuning = fst (setSocketOptions setsockoptInt control) ++ rest)
  /\ (snd (setSocketOptions setsockoptInt control) = None <->
      control = None /\ Forall (accepted setsockoptInt) tuning)
  /\ (snd (setSocketOptions setsockoptInt control) = None ->
      fst (setSocketOptions setsockoptInt control) = tuning)
  /\ (forall e,
        snd (setSocketOptions setsockoptInt control) = Some e ->
        (control = Some e
         /\ fst (setSocketOptions setsockoptInt control) = [])
        \/ (control = None
            /\ exists before c,
                 fst (setSocketOptions setsockoptInt control) = before ++ [c]
                 /\ Forall (accepted setsockoptInt) before
                 /\ setsockoptInt (level c) (opt c) (value c) = Some e)).
Proof.
  unfold setSocketOptions, thenSet, tuning, accepted.
  destruct control as [ce|].
  { split; [now exists tuning|]. simpl. split; [|split].
    - split; [discriminate | intros [H _]; discriminate H].
    - discriminate.
    - intros e [= <-]. now left. }
  destruct (setsockoptInt SOL_SOCKET SO_REUSEADDR 1) as [e1|] eqn:E1;
    [|destruct (setsockoptInt IPPROTO_TCP TCP_NODELAY 1) as [e2|] eqn:E2;
      [|destruct (setsockoptInt SOL_SOCKET SO_KEEPALIVE 1) as [e3|] eqn:E3;
        [|destruct (setsockoptInt IPPROTO_TCP TCP_KEEPIDLE 30) as [e4|] eqn:E4;
          [|destruct (setsockoptInt IPPROTO_TCP TCP_KEEPINTVL 10) as [e5|] eqn:E5;
            [|destruct (setsockoptInt IPPROTO_TCP TCP_KEEPCNT 3) as [e6|] eqn:E6]]]]];
    cbn [fst snd].
  all: split; [eexists; reflexivity|].
  all: split;
    [split;
     [ first [ discriminate
             | intros _; split; [reflexivity|];
               repeat constructor; assumption ]
     | intros [_ F];
       repeat match goal with
              | F : Forall _ (_ :: _) |- _ => inversion F; subst; clear F
              end;
       simpl in *; try congruence ]|].
  all: split; [first [discriminate | reflexivity]|].
  all: intros e EQ;
    first [ discriminate EQ
          | injection EQ as <-; right; split; [reflexivity|];
            match goal with
            | |- exists before c, ?l = before ++ [c] /\ _ =>
                exists (removelast l),
                  (last l {| level := SOL_SOCKET; opt := SO_REUSEADDR;
                             value := 1 |})
            end;
            split; [reflexivity|]; split;
            [repeat constructor; assumption | assumption] ].
Qed.

End SocketOptionFacts.

(** ** The further theorems at the examples *)

Lemma dial_from_outbound_connected :
  In (EvDial outbound "example.com:443" (DialOk (Some outbound) 40000))
     (handleConnection showIP showPort joinColon envConnected outbound)
  /\ outbound = outbound
  /\ DialOk (Some outbound) 40000 = dial envConnected "example.com:443".
Proof.
  assert (I : In (EvDial outbound "example.com:443"
                    (DialOk (Some outbound) 40000))
                (handleConnection showIP showPort joinColon envConnected
                   outbound)).
  { vm_compute. tauto. }
  split; [exact I|].
  exact (dial_from_outbound showIP showPort joinColon envConnected outbound
           _ _ _ I).
Defined.

Lemma success_only_after_dial_connected :
  handleConnection showIP showPort joinColon envConnected outbound
  = firstn 9 (handleConnection showIP showPort joinColon envConnected outbound)
    ++ EvWrite (sendReplyBytes repSuccess (Some outbound) 40000) true
    :: skipn 10 (handleConnection showIP showPort joinColon envConnected
                   outbound)
  /\ exists pre' target ip port,
       firstn 9 (handleConnection showIP showPort joinColon envConnected
                   outbound)
       = pre' ++ [EvDial outbound target (DialOk ip port)]
       /\ sendReplyBytes repSuccess (Some outbound) 40000
          = sendReplyBytes repSuccess ip (uint16 port).
Proof.
  split; [reflexivity|].
  apply (success_only_after_dial showIP showPort joinColon envConnected
           outbound
           (firstn 9 (handleConnection showIP showPort joinColon envConnected
                        outbound))
           (skipn 10 (handleConnection showIP showPort joinColon envConnected
                        outbound))
           (sendReplyBytes repSuccess (Some outbound) 40000) true).
  - reflexivity.
  - reflexivity.
  - vm_compute. lia.
Defined.

Lemma connect_ipv4_end_to_end_eager :
  Z_of_byte x03 = Z.of_nat (length [x02; x01; x00])
  /\ In authNone [x02; x01; x00]
  /\ writeOk envEager 0 = true
  /\ In EvRelay (handleConnection showIP showPort joinColon envEager outbound)
  /\ clientBytes envEager
     = readBytes (handleConnection showIP showPort joinColon envEager outbound)
       ++ [x47; x45].
Proof.
  assert (I : In authNone [x02; x01; x00]) by (right; right; left; reflexivity).
  split; [reflexivity|]. split; [exact I|]. split; [reflexivity|].
  destruct (connect_ipv4_end_to_end showIP showPort joinColon envEager outbound
              x03 x00 x7f x00 x00 x01 x00 x50 [x02; x01; x00] [x47; x45]
              (Some outbound) 40000 eq_refl eq_refl I eq_refl eq_refl)
    as [R B].
  split; [|exact B]. rewrite R. cbn [In]. tauto.
Defined.

Lemma reply_port_round_trip_40000 :
  (0 <= 40000 < 65536)%Z
  /\ bigEndianUint16
       (skipn (length (sendReplyBytes repSuccess (Some outbound) 40000) - 2)
          (sendReplyBytes repSuccess (Some outbound) 40000))
     = 40000%Z.
Proof.
  assert (R : (0 <= 40000 < 65536)%Z) by lia.
  split; [exact R|].
  exact (reply_port_round_trip repSuccess (Some outbound) 40000 R).
Defined.

Lemma bound_address_echo_outbound :
  length outbound = 16
  /\ firstn 12 outbound <> v4InV6Prefix
  /\ sendReplyBytes repSuccess (Some outbound) 40000
     = [x05; repSuccess; x00; x04] ++ outbound
         ++ [byte_of_Z (Z.shiftr 40000 8); byte_of_Z 40000].
Proof.
  assert (N : firstn 12 outbound <> v4InV6Prefix) by discriminate.
  split; [reflexivity|]. split; [exact N|].
  exact (proj2 (bound_address_echo repSuccess outbound 40000 eq_refl) N).
Defined.

Lemma relay_frozen_after_return_interleaved :
  returned (relay tcpClient tcpRemote brokenUpload download emptyPool
              interleaved) = true
  /\ relay tcpClient tcpRemote brokenUpload download emptyPool
       (interleaved ++ [Run Upstream 0; Wait; Run Downstream 1])
     = relay tcpClient tcpRemote brokenUpload download emptyPool interleaved.
Proof.
  split; [reflexivity|].
  exact (relay_frozen_after_return tcpClient tcpRemote brokenUpload download
           emptyPool interleaved [Run Upstream 0; Wait; Run Downstream 1]
           eq_refl).
Defined.

Lemma sessions_use_entry_address_arrivals :
  In (PServe outbound 1080 envRefused)
     (fst (StartProxy knownIP showPort bindable entry1 arrivals))
  /\ ParseIPv6 knownIP (IPv6 entry1) = inl outbound
  /\ To4 outbound = None
  /\ forall localIP target res,
       In (EvDial localIP target res)
          (handleConnection showIP showPort joinColon envRefused outbound) ->
       localIP = outbound.
Proof.
  assert (I : In (PServe outbound 1080 envRefused)
                (fst (StartProxy knownIP showPort bindable entry1 arrivals))).
  { cbn. tauto. }
  split; [exact I|].
  destruct (sessions_use_entry_address knownIP showPort bindable showIP
              joinColon entry1 arrivals outbound 1080 envRefused I)
    as (P & T & _ & _ & _ & D).
  split; [exact P|]. split; [exact T | exact D].
Defined.

Lemma accept_loop_serves_until_closed_arrivals :
  ParseIPv6 knownIP (IPv6 entry1) = inl outbound
  /\ bindable (":" ++ showPort (Port entry1))%string = None
  /\ listenerClosed arrivals
  /\ served (fst (StartProxy knownIP showPort bindable entry1 arrivals))
     = [envConnected; envRefused]
  /\ snd (StartProxy knownIP showPort bindable entry1 arrivals)
     = ProxyReturned None.
Proof.
  assert (C : listenerClosed arrivals).
  { unfold listenerClosed, arrivals. cbn [In]. tauto. }
  split; [reflexivity|]. split; [reflexivity|]. split; [exact C|].
  destruct (accept_loop_serves_until_closed knownIP showPort bindable entry1
              arrivals outbound eq_refl eq_refl) as (S & R & _).
  split; [exact S | exact (proj1 (R C))].
Defined.

Lemma load_config_sound_good :
  LoadConfig readable (readsAs goodFile) knownIP knownText "config.yaml"
  = inl goodFile
  /\ NoDup (map IPv6 (Proxies goodFile))
  /\ NoDup (map Port (Proxies goodFile)).
Proof.
  split; [reflexivity|].
  destruct (load_config_sound readable (readsAs goodFile) knownIP knownText
              "config.yaml" goodFile eq_refl) as (_ & _ & NS & NP & _).
  split; [exact NS | exact NP].
Defined.

Lemma load_config_complete_good :
  Interface goodFile <> ""%string
  /\ Proxies goodFile <> []
  /\ Forall (validEntry knownIP) (Proxies goodFile)
  /\ NoDup (map (normalizedOf knownIP knownText) (Proxies goodFile))
  /\ NoDup (map Port (Proxies goodFile))
  /\ exists cfg,
       LoadConfig readable (readsAs goodFile) knownIP knownText "config.yaml"
       = inl cfg.
Proof.
  assert (NI : Interface goodFile <> ""%string) by discriminate.
  assert (NP : Proxies goodFile <> []) by discriminate.
  assert (V : Forall (validEntry knownIP) (Proxies goodFile)).
  { repeat constructor; try (simpl; lia).
    - exists outbound. split; reflexivity.
    - exists outbound2. split; reflexivity. }
  assert (DS : NoDup (map (normalizedOf knownIP knownText) (Proxies goodFile))).
  { repeat constructor; simpl; intuition discriminate. }
  assert (DP : NoDup (map Port (Proxies goodFile))).
  { repeat constructor; simpl; intuition discriminate. }
  repeat (split; [assumption|]).
  exact (load_config_complete readable (readsAs goodFile) knownIP knownText
           "config.yaml" [] goodFile eq_refl eq_refl NI NP V DS DP).
Defined.

Lemma load_config_first_error_clash :
  LoadConfig readable (readsAs clashingFile) knownIP knownText "config.yaml"
  = inr (DuplicatePort 1 1080)
  /\ errorIndex (DuplicatePort 1 1080) = Some 1
  /\ exists data raw out p,
       readable "config.yaml" = inl data
       /\ readsAs clashingFile data = inl raw
       /\ 1 < length (Proxies raw)
       /\ validateProxies knownIP knownText 0 [] [] (firstn 1 (Proxies raw))
          = inl out
       /\ Forall2 (loadedFrom knownIP knownText) (firstn 1 (Proxies raw)) out
       /\ NoDup (map IPv6 out) /\ NoDup (map Port out)
       /\ nth_error (Proxies raw) 1 = Some p
       /\ failsAs knownIP knownText
            (map (normalizedOf knownIP knownText) (firstn 1 (Proxies raw)))
            (map Port (firstn 1 (Proxies raw))) p (DuplicatePort 1 1080).
Proof.
  split; [reflexivity|]. split; [reflexivity|].
  exact (load_config_first_error readable (readsAs clashingFile) knownIP
           knownText "config.yaml" (DuplicatePort 1 1080) 1 eq_refl eq_refl).
Defined.

Lemma ensure_adds_the_missing_second :
  EnsureIPv6Addresses found hasFirst knownIP knownText addsFine trimAscii
    "eth0"
    [entry1; entry2]
  = ([NSkip "2001:db8::1";
      NCommand "2001:db8::2/128" "eth0" (CmdOk ""); NAdded "2001:db8::2/128"],
     None)
  /\ exists addrs,
       hasFirst "eth0" = inl addrs
       /\ commands [NSkip "2001:db8::1";
                    NCommand "2001:db8::2/128" "eth0" (CmdOk "");
                    NAdded "2001:db8::2/128"]
          = missing knownIP knownText (existingAddresses knownIP knownText addrs)
              [entry1; entry2]
       /\ Forall (fun e => exists ip, ParseIPv6 knownIP (IPv6 e) = inl ip)
            [entry1; entry2].
Proof.
  split; [reflexivity|].
  exact (ensure_adds_the_missing found hasFirst knownIP knownText addsFine
           trimAscii "eth0" [entry1; entry2] _ eq_refl).
Defined.

Lemma ensure_never_adds_assigned_second :
  In (NCommand "2001:db8::2/128" "eth0" (CmdOk ""))
     (fst (EnsureIPv6Addresses found hasFirst knownIP knownText addsFine
             trimAscii "eth0" [entry1; entry2]))
  /\ length (commands (fst (EnsureIPv6Addresses found hasFirst knownIP
                              knownText addsFine trimAscii "eth0"
                              [entry1; entry2])))
     <= 2.
Proof.
  assert (I : In (NCommand "2001:db8::2/128" "eth0" (CmdOk ""))
                (fst (EnsureIPv6Addresses found hasFirst knownIP knownText
                        addsFine trimAscii "eth0" [entry1; entry2]))).
  { vm_compute. tauto. }
  split; [exact I|].
  exact (proj1 (proj2 (ensure_never_adds_assigned found hasFirst knownIP
                         knownText addsFine trimAscii "eth0"
                         [entry1; entry2] _ _ _ I))).
Defined.

Lemma ensure_stops_at_failed_add_refused :
  fst (EnsureIPv6Addresses found hasFirst knownIP knownText notPermitted
         trimAscii "eth0" [entry2; entry1])
  = [] ++ NCommand "2001:db8::2/128" "eth0"
            (CmdFailed
               (String newline "RTNETLINK answers: Operation not permitted"
                ++ lineEnd)
               (Opaque "exit status 2")) :: []
  /\ contains (String newline "RTNETLINK answers: Operation not permitted"
               ++ lineEnd) fileExists = false
  /\ snd (EnsureIPv6Addresses found hasFirst knownIP knownText notPermitted
            trimAscii "eth0" [entry2; entry1])
     = Some (AddFailed "2001:db8::2/128" "eth0"
               "RTNETLINK answers: Operation not permitted"
               (Opaque "exit status 2")).
Proof.
  split; [reflexivity|]. split; [reflexivity|].
  exact (proj2 (proj2 (proj1 (ensure_stops_at_failed_add found hasFirst knownIP
                                knownText notPermitted trimAscii "eth0"
                                [entry2; entry1])
                             [] [] _ _ _ _ eq_refl eq_refl))).
Defined.

Lemma ensure_tolerates_concurrent_add_meanwhile :
  Forall (fun e => exists ip, ParseIPv6 knownIP (IPv6 e) = inl ip)
    [entry1; entry2]
  /\ (forall ran addr out e,
        addedMeanwhile ran addr "eth0" = CmdFailed out e ->
        contains out fileExists = true)
  /\ snd (EnsureIPv6Addresses found hasFirst knownIP knownText addedMeanwhile
            trimAscii "eth0" [entry1; entry2]) = None.
Proof.
  assert (F : Forall (fun e => exists ip, ParseIPv6 knownIP (IPv6 e) = inl ip)
                [entry1; entry2]).
  { repeat constructor; eexists; reflexivity. }
  assert (T : forall ran addr out e,
             addedMeanwhile ran addr "eth0" = CmdFailed out e ->
             contains out fileExists = true).
  { intros ran addr out e [= <- _]. reflexivity. }
  split; [exact F|]. split; [exact T|].
  exact (ensure_tolerates_concurrent_add found hasFirst knownIP knownText
           addedMeanwhile trimAscii "eth0" [entry1; entry2]
           ["2001:db8::1/64"%string]
           eq_refl eq_refl F T).
Defined.

Lemma loaded_entries_parse_good :
  LoadConfig readable (readsAs goodFile) knownIP knownText "config.yaml"
  = inl goodFile
  /\ (forall s ip,
        knownIP s = Some ip -> To4 ip = None ->
        knownIP (knownText ip) = Some ip)
  /\ In entry2 (Proxies goodFile)
  /\ exists ip, ParseIPv6 knownIP (IPv6 entry2) = inl ip.
Proof.
  assert (RT : forall s ip,
             knownIP s = Some ip -> To4 ip = None ->
             knownIP (knownText ip) = Some ip).
  { intros s ip. unfold knownIP.
    destruct (String.eqb s "2001:db8::1"); [intros [= <-] _; reflexivity|].
    destruct (String.eqb s "2001:db8::2"); [intros [= <-] _; reflexivity|].
    destruct (String.eqb s "10.0.0.1"); [|discriminate].
    intros [= <-]. discriminate. }
  assert (I : In entry2 (Proxies goodFile)) by (right; left; reflexivity).
  split; [reflexivity|]. split; [exact RT|]. split; [exact I|].
  exact (proj1 (loaded_entries_parse readable (readsAs goodFile) knownIP
                  knownText showPort bindable "config.yaml" goodFile eq_refl RT
                  entry2 I)).
Defined.
